(** * salte-auth: the authentication controller (src/salte-auth.js)

    A shallow embedding of the [SalteAuth] class: its [$promises],
    [$timeouts] and [$listeners] tables, the promise chains it builds, the
    timers it arms and the events it fires.  The JavaScript engine is part of
    the state: a heap of promises with their reactions, the microtask queue
    and the table of armed timers.  Arrow functions handed to [then], [catch],
    [setTimeout] and [on] are defunctionalised, one constructor per closure of
    the source. *)

From stdpp Require Import base option list strings gmap.
From Stdlib Require Import ZArith.

Local Open Scope string_scope.
Local Open Scope list_scope.
Local Open Scope Z_scope.

(** ** Values *)

(** The decoded id token ([profile.userInfo]); only [exp] (seconds since the
    epoch) is read by the controller. *)
Record userInfo := { exp : Z }.

(** Promises are named by their rank of creation. *)
Abbreviation pid := nat.

(** JavaScript values that cross the controller's API. [VErr name message] is
    an [Error] object, [VPromise p] a reference to the promise [p] of the
    heap, [VThis] the controller itself. *)
Inductive value :=
| undefined
| null
| VBool (b : bool)
| VStr (s : string)
| VUser (u : userInfo)
| VErr (name message : string)
| VPromise (p : pid)
| VThis.

Global Instance userInfo_eq_dec : EqDecision userInfo.
Proof. solve_decision. Defined.
Global Instance value_eq_dec : EqDecision value.
Proof. solve_decision. Defined.

(** [if (v)] *)
Definition truthy (v : value) : bool :=
  match v with
  | undefined | null => false
  | VBool b => b
  | VStr s => negb (String.eqb s "")
  | _ => true
  end.

(** [a || b] *)
Definition js_or (a b : value) : value := if truthy a then a else b.

(** [`${v}`] *)
Definition template (v : value) : string :=
  match v with
  | undefined => "undefined"
  | null => "null"
  | VBool b => if b then "true" else "false"
  | VStr s => s
  | VErr name message => name +:+ ": " +:+ message
  | VPromise _ => "[object Promise]"
  | VUser _ | VThis => "[object Object]"
  end.

Definition ReferenceError (message : string) : value := VErr "ReferenceError" message.
Definition TypeError (message : string) : value := VErr "TypeError" message.

(** ** Listeners *)

(** Functions registered with [on].  The constructor registers three closures
    of its own; an application callback has an identity and either returns or
    throws.  Application callbacks do not call back into the controller. *)
Inductive listener :=
| RenewOnLogin                              (* (error) => { if (error) return; this.$$refreshToken(); } *)
| RenewOnRefresh                            (* the same closure, registered for 'refresh' *)
| StopOnLogout                              (* () => { clearTimeout(this.$timeouts.refresh); } *)
| AppFn (id : nat) (throws : option value).

Global Instance listener_eq_dec : EqDecision listener.
Proof. solve_decision. Defined.

(** The second argument of [on] and [off]: a function or anything else. *)
Inductive callable :=
| Fn (l : listener)
| NotFn (v : value).

(** ** The session profile *)

(** Modelled from the spec: salte-auth.profile.js is not among the sources.
    The Session Profile holds the id token, access token and authorization
    code (present or absent), the correlation values, the redirect return URL
    and the action recorded per state; [userInfo] is the decoded id token and
    [accessTokenExp] the expiry of the access token in epoch milliseconds. *)
Record Profile := {
  idToken : option string;
  accessToken : option string;
  accessTokenExp : Z;
  code : option string;
  userinfo : option userInfo;
  localState : option nat;
  nonce : option nat;
  redirectUrl : option string;
  p_state : option nat;
  p_error : option string;
  actions : list (nat * string)
}.

(** Modelled from the spec: [$clear] of salte-auth.profile.js, "cleared
    entirely": every field goes back to absent. *)
Definition p_clear (_ : Profile) : Profile :=
  {| idToken := None; accessToken := None; accessTokenExp := 0; code := None;
     userinfo := None; localState := None; nonce := None; redirectUrl := None;
     p_state := None; p_error := None; actions := [] |}.

(** Modelled from the spec: [$clearErrors] of salte-auth.profile.js, the
    partial clear "errors only". *)
Definition p_clearErrors (p : Profile) : Profile :=
  {| idToken := idToken p; accessToken := accessToken p;
     accessTokenExp := accessTokenExp p; code := code p;
     userinfo := userinfo p; localState := localState p; nonce := nonce p;
     redirectUrl := redirectUrl p; p_state := p_state p; p_error := None;
     actions := actions p |}.

(** Modelled from the spec: [idTokenExpired] and [accessTokenExpired] of
    salte-auth.profile.js, "booleans from comparing an embedded expiration
    claim to current time"; an absent token counts as expired. *)
Definition idTokenExpired (now : Z) (p : Profile) : bool :=
  match idToken p, userinfo p with
  | Some _, Some u => exp u * 1000 <=? now
  | _, _ => true
  end.

Definition accessTokenExpired (now : Z) (p : Profile) : bool :=
  match accessToken p with
  | Some _ => accessTokenExp p <=? now
  | None => true
  end.

Definition p_code (p : Profile) : value := from_option VStr undefined (code p).
Definition p_userInfo (p : Profile) : value := from_option VUser null (userinfo p).
Definition p_accessToken (p : Profile) : value := from_option VStr undefined (accessToken p).

Definition with_correlation (st nc : nat) (p : Profile) : Profile :=
  {| idToken := idToken p; accessToken := accessToken p;
     accessTokenExp := accessTokenExp p; code := code p;
     userinfo := userinfo p; localState := Some st; nonce := Some nc;
     redirectUrl := redirectUrl p; p_state := p_state p; p_error := p_error p;
     actions := actions p |}.

Definition with_redirectUrl (u : option string) (p : Profile) : Profile :=
  {| idToken := idToken p; accessToken := accessToken p;
     accessTokenExp := accessTokenExp p; code := code p;
     userinfo := userinfo p; localState := localState p; nonce := nonce p;
     redirectUrl := u; p_state := p_state p; p_error := p_error p;
     actions := actions p |}.

(** [profile.$actions(state, action)]: record the action of a redirect. *)
Definition with_action (st : option nat) (a : string) (p : Profile) : Profile :=
  {| idToken := idToken p; accessToken := accessToken p;
     accessTokenExp := accessTokenExp p; code := code p;
     userinfo := userinfo p; localState := localState p; nonce := nonce p;
     redirectUrl := redirectUrl p; p_state := p_state p; p_error := p_error p;
     actions := match st with Some n => (n, a) :: actions p | None => actions p end |}.

(** [profile.$actions(state)]: the action recorded for a state. *)
Definition action_of (st : option nat) (p : Profile) : option string :=
  match st with
  | Some n => snd <$> List.find (fun x => Nat.eqb (fst x) n) (actions p)
  | None => None
  end.

(** ** Configuration and providers *)

(** A provider strategy ([this.$providers[name]] or a custom object): the
    path of its authorize endpoint and of its deauthorize URL, when it
    defines them.  For hydra these are "/oauth2/auth" and
    "/oauth2/sessions/logout". *)
Record Defaults := {
  d_loginType : option value;
  d_autoRefresh : option bool;
  d_autoRefreshBuffer : option Z
}.

Definition no_defaults : Defaults :=
  {| d_loginType := None; d_autoRefresh := None; d_autoRefreshBuffer := None |}.

Record Provider := {
  authorizeEndpoint : option string;
  deauthorizeUrl : option string;
  defaultConfig : Defaults
}.

(** src/providers/hydra.js *)
Definition SalteAuthHydraProvider : Provider :=
  {| authorizeEndpoint := Some "/oauth2/auth";
     deauthorizeUrl := Some "/oauth2/sessions/logout";
     defaultConfig := no_defaults |}.

Inductive provider_config :=
| NoProvider                     (* config.provider is missing *)
| Named (name : string)          (* a key of this.$providers *)
| Custom (p : Provider).         (* a provider object *)

(** The [Config] object as the application passes it; the three fields the
    constructor defaults are optional. *)
Record Config := {
  providerUrl : string;
  responseType : string;
  c_provider : provider_config;
  loginType : option value;
  autoRefresh : option bool;
  autoRefreshBuffer : option Z;
  redirectLoginCallback : option listener
}.

(** [defaultsDeep(config, this.$provider.defaultConfig, { loginType:
    'iframe', autoRefresh: true, autoRefreshBuffer: 60000 })]: a field the
    application left undefined takes the provider's default, then the
    library's. *)
Definition defaultsDeep (c : Config) (d : Defaults) : Config :=
  {| providerUrl := providerUrl c; responseType := responseType c;
     c_provider := c_provider c;
     loginType :=
       Some (default (default (VStr "iframe") (d_loginType d)) (loginType c));
     autoRefresh :=
       Some (default (default true (d_autoRefresh d)) (autoRefresh c));
     autoRefreshBuffer :=
       Some (default (default 60000 (d_autoRefreshBuffer d)) (autoRefreshBuffer c));
     redirectLoginCallback := redirectLoginCallback c |}.

(** The [LoginConfig] of [loginWithIframe]; [clear] is ['all'], ['errors'] or
    [false]. *)
Inductive clear_mode := ClearAll | ClearErrors | ClearNothing.

Record LoginConfig := {
  noPrompt : option bool;
  clear : option clear_mode;
  events : option bool;
  timeout : option Z
}.

Inductive iframe_arg :=
| NoArg
| BoolArg (refresh : bool)
| ObjArg (c : LoginConfig).

(** ** Transports *)

Inductive transport := Iframe | Popup | NewTab | Navigate.

Inductive url :=
| LoginUrl (endpoint : string) (st nc : nat) (response_type : string) (prompt_none : bool)
| AccessTokenUrl (endpoint : string) (st nc : nat)
| DeauthorizeUrl (location : string)
| Href (location : string).

(** ** Promises *)

Inductive outcome :=
| Fulfilled (v : value)
| Rejected (e : value).

(** The closures the controller passes to [then] and [catch]. *)
Inductive callback :=
| LoginIframeThen (events : bool)
| LoginIframeCatch (events : bool)
| LoginWindowThen            (* loginWithPopup, loginWithNewTab *)
| LoginWindowCatch
| LogoutThen
| LogoutCatch
| RefreshThen
| RefreshCatch
| TokenRenewThen             (* () => { this.profile.$clearErrors(); ... } *)
| TokenValidateThen          (* after createIframe(this.$accessTokenUrl) *)
| TokenDoneThen
| TokenDoneCatch
| ConsoleErrorCatch          (* (error) => { console.error(error); } *)
| StopRenewalThen.           (* $$onVisibilityChanged *)

(** A reaction registered on a promise, with the promise it settles. *)
Inductive reaction :=
| Then (f : callback) (target : pid)
| Catch (g : callback) (target : pid)
| Adopt (target : pid).      (* target was resolved with this promise *)

(** Where a promise comes from: only a transport promise is settled from
    outside, only a chained promise by a reaction. *)
Inductive origin :=
| FromTransport (t : transport)
| Chained
| Immediate                   (* Promise.resolve(), Promise.reject(e) *)
| NoExecutor.                 (* new Promise(() => {}) *)

Record promise := {
  p_origin : origin;
  status : option outcome;
  reactions : list reaction
}.

(** A microtask: a reaction with the outcome it reacts to. *)
Record job := Job { j_reaction : reaction; j_outcome : outcome }.

(** ** Timers *)

Inductive timer_callback :=
| RefreshTick                 (* the first closure of $$refreshToken *)
| ExpiredTick                 (* the second closure of $$refreshToken *)
| RouteChangedTick            (* setTimeout(this.$$onRouteChanged.bind(this)) *)
| RedirectLanding (error : value).

(** A field of [this.$timeouts]: never assigned, a timer id, or [null]. *)
Inductive slot := Unset | TimerId (id : nat) | Nulled.

(** ** The controller *)

Record Promises := {
  login : option pid;
  logout : option pid;
  refresh : option pid;
  token : option pid
}.

Record Timeouts := {
  t_refresh : slot;
  t_expired : slot
}.

Record state := {
  promises : Promises;                         (* this.$promises *)
  timeouts : Timeouts;                         (* this.$timeouts *)
  listeners : gmap string (list listener);     (* this.$listeners *)
  config : Config;                             (* this.$config *)
  providers : gmap string Provider;            (* this.$providers *)
  profile : Profile;                           (* this.profile *)
  heap : gmap pid promise;                     (* the promises of the engine *)
  next_pid : pid;
  queue : list job;                            (* the microtask queue *)
  armed : gmap nat (timer_callback * Z);       (* pending setTimeout calls *)
  next_timer : nat;
  now : Z;                                     (* Date.now() *)
  uuid : nat;                                  (* source of uuid.v4() *)
  href : string;                               (* location.href *)
  captured : list (string * string);           (* parameters of the landed window *)
  opened : list (transport * url);             (* transports opened, in order *)
  dispatched : list (string * value * value);  (* window.dispatchEvent *)
  invoked : list (listener * value * value);   (* listener calls, in order *)
  console : list value;                        (* console.error, console.warn *)
  watching : bool                              (* route and visibility handlers installed *)
}.

(** Field updates of [state]. *)

Definition upd_promises (f : Promises -> Promises)
    (s : state) : state :=
  {| promises := f (promises s); timeouts := timeouts s;
     listeners := listeners s; config := config s; providers := providers s;
     profile := profile s; heap := heap s; next_pid := next_pid s;
     queue := queue s; armed := armed s; next_timer := next_timer s;
     now := now s; uuid := uuid s; href := href s; captured := captured s;
     opened := opened s; dispatched := dispatched s; invoked := invoked s;
     console := console s; watching := watching s |}.

Definition upd_timeouts (f : Timeouts -> Timeouts)
    (s : state) : state :=
  {| promises := promises s; timeouts := f (timeouts s);
     listeners := listeners s; config := config s; providers := providers s;
     profile := profile s; heap := heap s; next_pid := next_pid s;
     queue := queue s; armed := armed s; next_timer := next_timer s;
     now := now s; uuid := uuid s; href := href s; captured := captured s;
     opened := opened s; dispatched := dispatched s; invoked := invoked s;
     console := console s; watching := watching s |}.

Definition upd_listeners (f : gmap string (list listener) -> gmap string (list listener))
    (s : state) : state :=
  {| promises := promises s; timeouts := timeouts s;
     listeners := f (listeners s); config := config s;
     providers := providers s; profile := profile s; heap := heap s;
     next_pid := next_pid s; queue := queue s; armed := armed s;
     next_timer := next_timer s; now := now s; uuid := uuid s; href := href s;
     captured := captured s; opened := opened s; dispatched := dispatched s;
     invoked := invoked s; console := console s; watching := watching s |}.

Definition upd_config (f : Config -> Config)
    (s : state) : state :=
  {| promises := promises s; timeouts := timeouts s; listeners := listeners s;
     config := f (config s); providers := providers s; profile := profile s;
     heap := heap s; next_pid := next_pid s; queue := queue s;
     armed := armed s; next_timer := next_timer s; now := now s;
     uuid := uuid s; href := href s; captured := captured s;
     opened := opened s; dispatched := dispatched s; invoked := invoked s;
     console := console s; watching := watching s |}.

Definition upd_profile (f : Profile -> Profile)
    (s : state) : state :=
  {| promises := promises s; timeouts := timeouts s; listeners := listeners s;
     config := config s; providers := providers s; profile := f (profile s);
     heap := heap s; next_pid := next_pid s; queue := queue s;
     armed := armed s; next_timer := next_timer s; now := now s;
     uuid := uuid s; href := href s; captured := captured s;
     opened := opened s; dispatched := dispatched s; invoked := invoked s;
     console := console s; watching := watching s |}.

Definition upd_heap (f : gmap pid promise -> gmap pid promise)
    (s : state) : state :=
  {| promises := promises s; timeouts := timeouts s; listeners := listeners s;
     config := config s; providers := providers s; profile := profile s;
     heap := f (heap s); next_pid := next_pid s; queue := queue s;
     armed := armed s; next_timer := next_timer s; now := now s;
     uuid := uuid s; href := href s; captured := captured s;
     opened := opened s; dispatched := dispatched s; invoked := invoked s;
     console := console s; watching := watching s |}.

Definition upd_next_pid (f : pid -> pid)
    (s : state) : state :=
  {| promises := promises s; timeouts := timeouts s; listeners := listeners s;
     config := config s; providers := providers s; profile := profile s;
     heap := heap s; next_pid := f (next_pid s); queue := queue s;
     armed := armed s; next_timer := next_timer s; now := now s;
     uuid := uuid s; href := href s; captured := captured s;
     opened := opened s; dispatched := dispatched s; invoked := invoked s;
     console := console s; watching := watching s |}.

Definition upd_queue (f : list job -> list job)
    (s : state) : state :=
  {| promises := promises s; timeouts := timeouts s; listeners := listeners s;
     config := config s; providers := providers s; profile := profile s;
     heap := heap s; next_pid := next_pid s; queue := f (queue s);
     armed := armed s; next_timer := next_timer s; now := now s;
     uuid := uuid s; href := href s; captured := captured s;
     opened := opened s; dispatched := dispatched s; invoked := invoked s;
     console := console s; watching := watching s |}.

Definition upd_armed (f : gmap nat (timer_callback * Z) -> gmap nat (timer_callback * Z))
    (s : state) : state :=
  {| promises := promises s; timeouts := timeouts s; listeners := listeners s;
     config := config s; providers := providers s; profile := profile s;
     heap := heap s; next_pid := next_pid s; queue := queue s;
     armed := f (armed s); next_timer := next_timer s; now := now s;
     uuid := uuid s; href := href s; captured := captured s;
     opened := opened s; dispatched := dispatched s; invoked := invoked s;
     console := console s; watching := watching s |}.

Definition upd_next_timer (f : nat -> nat)
    (s : state) : state :=
  {| promises := promises s; timeouts := timeouts s; listeners := listeners s;
     config := config s; providers := providers s; profile := profile s;
     heap := heap s; next_pid := next_pid s; queue := queue s;
     armed := armed s; next_timer := f (next_timer s); now := now s;
     uuid := uuid s; href := href s; captured := captured s;
     opened := opened s; dispatched := dispatched s; invoked := invoked s;
     console := console s; watching := watching s |}.

Definition upd_now (f : Z -> Z)
    (s : state) : state :=
  {| promises := promises s; timeouts := timeouts s; listeners := listeners s;
     config := config s; providers := providers s; profile := profile s;
     heap := heap s; next_pid := next_pid s; queue := queue s;
     armed := armed s; next_timer := next_timer s; now := f (now s);
     uuid := uuid s; href := href s; captured := captured s;
     opened := opened s; dispatched := dispatched s; invoked := invoked s;
     console := console s; watching := watching s |}.

Definition upd_uuid (f : nat -> nat)
    (s : state) : state :=
  {| promises := promises s; timeouts := timeouts s; listeners := listeners s;
     config := config s; providers := providers s; profile := profile s;
     heap := heap s; next_pid := next_pid s; queue := queue s;
     armed := armed s; next_timer := next_timer s; now := now s;
     uuid := f (uuid s); href := href s; captured := captured s;
     opened := opened s; dispatched := dispatched s; invoked := invoked s;
     console := console s; watching := watching s |}.

Definition upd_href (f : string -> string)
    (s : state) : state :=
  {| promises := promises s; timeouts := timeouts s; listeners := listeners s;
     config := config s; providers := providers s; profile := profile s;
     heap := heap s; next_pid := next_pid s; queue := queue s;
     armed := armed s; next_timer := next_timer s; now := now s;
     uuid := uuid s; href := f (href s); captured := captured s;
     opened := opened s; dispatched := dispatched s; invoked := invoked s;
     console := console s; watching := watching s |}.

Definition upd_captured (f : list (string * string) -> list (string * string))
    (s : state) : state :=
  {| promises := promises s; timeouts := timeouts s; listeners := listeners s;
     config := config s; providers := providers s; profile := profile s;
     heap := heap s; next_pid := next_pid s; queue := queue s;
     armed := armed s; next_timer := next_timer s; now := now s;
     uuid := uuid s; href := href s; captured := f (captured s);
     opened := opened s; dispatched := dispatched s; invoked := invoked s;
     console := console s; watching := watching s |}.

Definition upd_opened (f : list (transport * url) -> list (transport * url))
    (s : state) : state :=
  {| promises := promises s; timeouts := timeouts s; listeners := listeners s;
     config := config s; providers := providers s; profile := profile s;
     heap := heap s; next_pid := next_pid s; queue := queue s;
     armed := armed s; next_timer := next_timer s; now := now s;
     uuid := uuid s; href := href s; captured := captured s;
     opened := f (opened s); dispatched := dispatched s; invoked := invoked s;
     console := console s; watching := watching s |}.

Definition upd_dispatched (f : list (string * value * value) -> list (string * value * value))
    (s : state) : state :=
  {| promises := promises s; timeouts := timeouts s; listeners := listeners s;
     config := config s; providers := providers s; profile := profile s;
     heap := heap s; next_pid := next_pid s; queue := queue s;
     armed := armed s; next_timer := next_timer s; now := now s;
     uuid := uuid s; href := href s; captured := captured s;
     opened := opened s; dispatched := f (dispatched s); invoked := invoked s;
     console := console s; watching := watching s |}.

Definition upd_invoked (f : list (listener * value * value) -> list (listener * value * value))
    (s : state) : state :=
  {| promises := promises s; timeouts := timeouts s; listeners := listeners s;
     config := config s; providers := providers s; profile := profile s;
     heap := heap s; next_pid := next_pid s; queue := queue s;
     armed := armed s; next_timer := next_timer s; now := now s;
     uuid := uuid s; href := href s; captured := captured s;
     opened := opened s; dispatched := dispatched s; invoked := f (invoked s);
     console := console s; watching := watching s |}.

Definition upd_console (f : list value -> list value)
    (s : state) : state :=
  {| promises := promises s; timeouts := timeouts s; listeners := listeners s;
     config := config s; providers := providers s; profile := profile s;
     heap := heap s; next_pid := next_pid s; queue := queue s;
     armed := armed s; next_timer := next_timer s; now := now s;
     uuid := uuid s; href := href s; captured := captured s;
     opened := opened s; dispatched := dispatched s; invoked := invoked s;
     console := f (console s); watching := watching s |}.

Definition upd_watching (f : bool -> bool)
    (s : state) : state :=
  {| promises := promises s; timeouts := timeouts s; listeners := listeners s;
     config := config s; providers := providers s; profile := profile s;
     heap := heap s; next_pid := next_pid s; queue := queue s;
     armed := armed s; next_timer := next_timer s; now := now s;
     uuid := uuid s; href := href s; captured := captured s;
     opened := opened s; dispatched := dispatched s; invoked := invoked s;
     console := console s; watching := f (watching s) |}.

Definition set_login (h : option pid) (p : Promises) : Promises :=
  {| login := h; logout := logout p; refresh := refresh p; token := token p |}.
Definition set_logout (h : option pid) (p : Promises) : Promises :=
  {| login := login p; logout := h; refresh := refresh p; token := token p |}.
Definition set_refresh (h : option pid) (p : Promises) : Promises :=
  {| login := login p; logout := logout p; refresh := h; token := token p |}.
Definition set_token (h : option pid) (p : Promises) : Promises :=
  {| login := login p; logout := logout p; refresh := refresh p; token := h |}.

Definition set_t_refresh (x : slot) (t : Timeouts) : Timeouts :=
  {| t_refresh := x; t_expired := t_expired t |}.
Definition set_t_expired (x : slot) (t : Timeouts) : Timeouts :=
  {| t_refresh := t_refresh t; t_expired := x |}.

(** ** Methods as state transformers that may throw *)

Inductive result (A : Type) :=
| Ok (a : A)
| Throw (e : value).
Arguments Ok {A} a.
Arguments Throw {A} e.

Definition M (A : Type) : Type := state -> result A * state.

Global Instance M_ret : MRet M := fun A a s => (Ok a, s).
Global Instance M_bind : MBind M := fun A B f m s =>
  match m s with
  | (Ok a, s') => f a s'
  | (Throw e, s') => (Throw e, s')
  end.

Definition throw {A} (e : value) : M A := fun s => (Throw e, s).
Definition get {A} (f : state -> A) : M A := fun s => (Ok (f s), s).
Definition modify (f : state -> state) : M unit := fun s => (Ok tt, f s).

(** [array.forEach(f)] *)
Fixpoint forEach {A} (f : A -> M unit) (l : list A) : M unit :=
  match l with
  | [] => mret tt
  | x :: l' => f x;; forEach f l'
  end.

(** ** The promise engine *)

Definition new_promise (o : origin) (st : option outcome) : M pid := fun s =>
  (Ok (next_pid s),
   upd_next_pid S
     (upd_heap (insert (next_pid s)
                  {| p_origin := o; status := st; reactions := [] |}) s)).

Definition Promise_resolve (v : value) : M pid :=
  new_promise Immediate (Some (Fulfilled v)).
Definition Promise_reject (e : value) : M pid :=
  new_promise Immediate (Some (Rejected e)).

(** Register a reaction on [p]: kept with the promise while it is pending,
    queued as a microtask once it is settled. *)
Definition react (p : pid) (r : reaction) (s : state) : state :=
  match heap s !! p with
  | Some P =>
      match status P with
      | None =>
          upd_heap (insert p {| p_origin := p_origin P; status := None;
                                reactions := reactions P ++ [r] |}) s
      | Some o => upd_queue (fun q => q ++ [Job r o]) s
      end
  | None => s
  end.

(** [p.then(f)] and [p.catch(g)] return a new promise. *)
Definition p_then (p : pid) (f : callback) : M pid :=
  d ← new_promise Chained None; modify (react p (Then f d));; mret d.
Definition p_catch (p : pid) (g : callback) : M pid :=
  d ← new_promise Chained None; modify (react p (Catch g d));; mret d.

(** Settle a pending promise and queue its reactions, in the order of their
    registration; a settled promise stays as it is. *)
Definition settle (p : pid) (o : outcome) (s : state) : state :=
  match heap s !! p with
  | Some P =>
      match status P with
      | None =>
          upd_queue (fun q => q ++ ((fun r => Job r o) <$> reactions P))
            (upd_heap (insert p {| p_origin := p_origin P; status := Some o;
                                   reactions := [] |}) s)
      | Some _ => s
      end
  | None => s
  end.

(** The resolve function of [d]: a promise is adopted, any other value
    fulfils. *)
Definition resolve (d : pid) (v : value) (s : state) : state :=
  match v with
  | VPromise q => react q (Adopt d) s
  | _ => settle d (Fulfilled v) s
  end.

(** ** Timers *)

Definition setTimeout (cb : timer_callback) (delay : Z) : M nat := fun s =>
  (Ok (next_timer s),
   upd_next_timer S (upd_armed (insert (next_timer s) (cb, delay)) s)).

Definition clearTimeout (x : slot) : M unit :=
  match x with
  | TimerId id => modify (upd_armed (delete id))
  | _ => mret tt
  end.

(** ** Utilities (salte-auth.utilities.js): the transport primitives *)

Definition open_transport (t : transport) (u : url) : M pid :=
  p ← new_promise (FromTransport t) None;
  modify (upd_opened (fun l => l ++ [(t, u)]));;
  mret p.

Definition createIframe (u : url) : M pid := open_transport Iframe u.
Definition openPopup (u : url) : M pid := open_transport Popup u.
Definition openNewTab (u : url) : M pid := open_transport NewTab u.
Definition d_navigate (u : url) : M unit :=
  modify (upd_opened (fun l => l ++ [(Navigate, u)])).

(** ** Providers and URLs *)

(** [get $provider()] *)
Definition d_provider : M Provider := fun s =>
  match c_provider (config s) with
  | NoProvider => (Throw (ReferenceError "A provider must be specified"), s)
  | Named name =>
      if String.eqb name "" then
        (Throw (ReferenceError "A provider must be specified"), s)
      else
        match providers s !! name with
        | Some p => (Ok p, s)
        | None => (Throw (ReferenceError ("Unknown Provider (" +:+ name +:+ ")")), s)
        end
  | Custom p => (Ok p, s)
  end.

Definition fresh_correlation : M (nat * nat) := fun s =>
  (Ok (uuid s, S (uuid s)),
   upd_uuid (fun n => S (S n))
     (upd_profile (with_correlation (uuid s) (S (uuid s))) s)).

Definition d_authorizeEndpoint : M string :=
  p ← d_provider;
  base ← get (fun s => providerUrl (config s));
  mret (base +:+ default "/authorize" (authorizeEndpoint p)).

(** [get $accessTokenUrl()] *)
Definition d_accessTokenUrl : M url :=
  '(st, nc) ← fresh_correlation;
  e ← d_authorizeEndpoint;
  mret (AccessTokenUrl e st nc).

(** [$loginUrl(refresh)] *)
Definition d_loginUrl (refresh : bool) : M url :=
  '(st, nc) ← fresh_correlation;
  e ← d_authorizeEndpoint;
  rt ← get (fun s => responseType (config s));
  mret (LoginUrl e st nc rt refresh).

(** [get $deauthorizeUrl()] *)
Definition d_deauthorizeUrl : M url :=
  p ← d_provider;
  match deauthorizeUrl p with
  | None => throw (TypeError "this.$provider.deauthorizeUrl is undefined")
  | Some path =>
      base ← get (fun s => providerUrl (config s));
      mret (DeauthorizeUrl (base +:+ path))
  end.

(** ** The event bus *)

Definition event_types : list string := ["login"; "logout"; "refresh"; "expired"].

(** [array.indexOf(x)]: the first index of [x], or [-1]. *)
Fixpoint indexOf_from {A} `{EqDecision A} (x : A) (l : list A) (i : Z) : Z :=
  match l with
  | [] => -1
  | y :: l' => if decide (y = x) then i else indexOf_from x l' (i + 1)
  end.

Definition indexOf {A} `{EqDecision A} (x : A) (l : list A) : Z :=
  indexOf_from x l 0.

(** [array.splice(start, deleteCount)]: a negative [start] counts from the
    end of the array. *)
Definition splice {A} (start deleteCount : Z) (l : list A) : list A :=
  let len := Z.of_nat (length l) in
  let actualStart :=
    if start <? 0 then Z.max (len + start) 0 else Z.min start len in
  let actualDeleteCount := Z.min (Z.max deleteCount 0) (len - actualStart) in
  take (Z.to_nat actualStart) l
    ++ drop (Z.to_nat (actualStart + actualDeleteCount)) l.

Definition check_event (eventType : string) (callback : callable) : M listener :=
  if decide (indexOf eventType event_types = -1) then
    throw (ReferenceError ("Unknown Event Type (" +:+ eventType +:+ ")"))
  else
    match callback with
    | NotFn _ => throw (ReferenceError "Invalid callback provided!")
    | Fn l => mret l
    end.

Definition on (eventType : string) (callback : callable) : M unit :=
  l ← check_event eventType callback;
  modify (upd_listeners (fun m =>
    <[eventType := default [] (m !! eventType) ++ [l]]> m)).

Definition off (eventType : string) (callback : callable) : M unit :=
  l ← check_event eventType callback;
  eventListeners ← get (fun s => listeners s !! eventType);
  match eventListeners with
  | None | Some [] => mret tt
  | Some ls =>
      let index := indexOf l ls in
      modify (upd_listeners (insert eventType (splice index 1 ls)))
  end.

(** [$$refreshToken()]: registers the timeouts that renew the id token. *)
Definition dd_refreshToken : M unit :=
  r ← get (fun s => t_refresh (timeouts s));
  match r with Unset => mret tt | _ => clearTimeout r end;;
  e ← get (fun s => t_expired (timeouts s));
  match e with Unset => mret tt | _ => clearTimeout e end;;
  u ← get (fun s => userinfo (profile s));
  match u with
  | None => throw (TypeError "this.profile.userInfo is null")
  | Some u =>
      n ← get now;
      buffer ← get (fun s => autoRefreshBuffer (config s));
      let timeToExpiration := exp u * 1000 - n in
      id ← setTimeout RefreshTick
             match buffer with
             | Some b => Z.max (timeToExpiration - b) 0
             | None => 0
             end;
      modify (upd_timeouts (set_t_refresh (TimerId id)));;
      id' ← setTimeout ExpiredTick (Z.max timeToExpiration 0);
      modify (upd_timeouts (set_t_expired (TimerId id')))
  end.

(** Calling a registered listener with [(error, data)]. *)
Definition call_listener (error data : value) (l : listener) : M unit :=
  modify (upd_invoked (fun log => log ++ [(l, error, data)]));;
  match l with
  | RenewOnLogin | RenewOnRefresh =>
      if truthy error then mret tt else dd_refreshToken
  | StopOnLogout =>
      r ← get (fun s => t_refresh (timeouts s)); clearTimeout r
  | AppFn _ None => mret tt
  | AppFn _ (Some e) => throw e
  end.

(** [$fire(eventType, error, data)] *)
Definition d_fire (eventType : string) (error data : value) : M unit :=
  modify (upd_dispatched (fun log => log ++ [("salte-auth-" +:+ eventType, error, data)]));;
  eventListeners ← get (fun s => listeners s !! eventType);
  match eventListeners with
  | None | Some [] => mret tt
  | Some ls => forEach (call_listener error data) ls
  end.

(** ** Login *)

(** The [LoginConfig] of [loginWithIframe] after the boolean shorthand and
    [defaultsDeep]. *)
Definition iframe_config (a : iframe_arg) : LoginConfig :=
  let c :=
    match a with
    | NoArg => {| noPrompt := None; clear := None; events := None; timeout := None |}
    | BoolArg b =>
        {| noPrompt := Some b; clear := if b then Some ClearErrors else None;
           events := Some false; timeout := Some 3000 |}
    | ObjArg c => c
    end in
  {| noPrompt := Some (default false (noPrompt c));
     clear := Some (default ClearAll (clear c));
     events := Some (default true (events c));
     timeout := timeout c |}.

Definition loginWithIframe (a : iframe_arg) : M pid :=
  pending ← get (fun s => login (promises s));
  match pending with
  | Some p => mret p
  | None =>
      let c := iframe_config a in
      match clear c with
      | Some ClearAll => modify (upd_profile p_clear)
      | Some ClearErrors => modify (upd_profile p_clearErrors)
      | _ => mret tt
      end;;
      u ← d_loginUrl (default false (noPrompt c));
      t ← createIframe u;
      d ← p_then t (LoginIframeThen (default true (events c)));
      h ← p_catch d (LoginIframeCatch (default true (events c)));
      modify (upd_promises (set_login (Some h)));;
      mret h
  end.

Definition login_with_window (open : url -> M pid) : M pid :=
  pending ← get (fun s => login (promises s));
  match pending with
  | Some p => mret p
  | None =>
      modify (upd_profile p_clear);;
      u ← d_loginUrl false;
      t ← open u;
      d ← p_then t LoginWindowThen;
      h ← p_catch d LoginWindowCatch;
      modify (upd_promises (set_login (Some h)));;
      mret h
  end.

Definition loginWithPopup : M pid := login_with_window openPopup.
Definition loginWithNewTab : M pid := login_with_window openNewTab.

(** The double quote, to write the messages that hold one. *)
Definition dquote : string := String (Ascii.ascii_of_nat 34) EmptyString.

Definition deprecation_warning : value :=
  VStr ("The " +:+ dquote +:+ "redirectLoginCallback" +:+ dquote
        +:+ " api has been deprecated in favor of the " +:+ dquote +:+ "on"
        +:+ dquote
        +:+ " api, see http://bit.ly/salte-auth-on for more info.").

(** A string as an operand of [&&] and [||]: the empty string is falsy. *)
Definition nonempty (o : option string) : option string :=
  match o with
  | Some u => if String.eqb u "" then None else Some u
  | None => None
  end.

Definition loginWithRedirect (redirectUrl' : option string) : M pid :=
  warn ← get (fun s => redirectLoginCallback (config s));
  match warn with
  | Some _ => modify (upd_console (fun l => l ++ [deprecation_warning]))
  | None => mret tt
  end;;
  pending ← get (fun s => login (promises s));
  match pending with
  | Some p => mret p
  | None =>
      h ← new_promise NoExecutor None;
      modify (upd_promises (set_login (Some h)));;
      modify (upd_profile p_clear);;
      here ← get href;
      modify (upd_profile (fun p =>
        with_redirectUrl
          (Some (default (default here (nonempty (redirectUrl p)))
                   (nonempty redirectUrl'))) p));;
      u ← d_loginUrl false;
      modify (upd_profile (fun p => with_action (localState p) "login" p));;
      d_navigate u;;
      mret h
  end.

(** ** Logout *)

Definition logout_with (open : url -> M pid) : M pid :=
  pending ← get (fun s => logout (promises s));
  match pending with
  | Some p => mret p
  | None =>
      u ← d_deauthorizeUrl;
      modify (upd_profile p_clear);;
      t ← open u;
      d ← p_then t LogoutThen;
      h ← p_catch d LogoutCatch;
      modify (upd_promises (set_logout (Some h)));;
      mret h
  end.

Definition logoutWithIframe : M pid := logout_with createIframe.
Definition logoutWithPopup : M pid := logout_with openPopup.
Definition logoutWithNewTab : M pid := logout_with openNewTab.

Definition logoutWithRedirect : M unit :=
  u ← d_deauthorizeUrl;
  modify (upd_profile p_clear);;
  modify (upd_profile (fun p => with_action (localState p) "logout" p));;
  d_navigate u.

(** ** Refresh and token retrieval *)

Definition refreshToken : M pid :=
  pending ← get (fun s => refresh (promises s));
  match pending with
  | Some p => mret p
  | None =>
      l ← loginWithIframe (BoolArg true);
      d ← p_then l RefreshThen;
      h ← p_catch d RefreshCatch;
      modify (upd_promises (set_refresh (Some h)));;
      mret h
  end.

(** The test of [retrieveAccessToken] for "id token has expired,
    reauthenticating". *)
Definition must_login (s : state) : bool :=
  if String.eqb (responseType (config s)) "code"
  then negb (truthy (p_code (profile s)))
  else idTokenExpired (now s) (profile s).

(** The login step of [retrieveAccessToken]: [Some p] is the promise of an
    early [return]. *)
Definition token_login : M (option pid) :=
  lt ← get (fun s => loginType (config s));
  if decide (lt = Some (VStr "iframe")) then
    h ← loginWithIframe NoArg;
    modify (upd_promises (set_token (Some h)));; mret None
  else if decide (lt = Some (VStr "redirect")) then
    h ← loginWithRedirect None;
    modify (upd_promises (set_token (Some h)));; mret None
  else if decide (lt = Some (VBool false)) then
    l ← get (fun s => login (promises s));
    match l with
    | Some h => modify (upd_promises (set_token (Some h)));; mret None
    | None =>
        modify (upd_promises (set_token None));;
        q ← Promise_reject (ReferenceError
               "Automatic login is disabled, please login before making any requests!");
        mret (Some q)
    end
  else
    modify (upd_promises (set_token None));;
    q ← Promise_reject (ReferenceError
           ("Invalid Login Type (" +:+ from_option template "undefined" lt +:+ ")"));
    mret (Some q).

(** The end of [retrieveAccessToken]: the renewal of the access token,
    unless the response type is 'code', and the two handlers that clear the
    token handle are chained on the promise the handle holds. *)
Definition token_chain : M value :=
  rt ← get (fun s => responseType (config s));
  (if String.eqb rt "code" then mret tt
   else
     t ← get (fun s => token (promises s));
     match t with
     | Some t =>
         d ← p_then t TokenRenewThen;
         modify (upd_promises (set_token (Some d)))
     | None => throw (TypeError "this.$promises.token is null")
     end);;
  t ← get (fun s => token (promises s));
  match t with
  | Some t =>
      d ← p_then t TokenDoneThen;
      h ← p_catch d TokenDoneCatch;
      modify (upd_promises (set_token (Some h)));;
      mret (VPromise h)
  | None => mret null
  end.

Definition retrieveAccessToken : M value :=
  pending ← get (fun s => token (promises s));
  match pending with
  | Some p => mret (VPromise p)
  | None =>
      p0 ← Promise_resolve undefined;
      modify (upd_promises (set_token (Some p0)));;
      need ← get must_login;
      early ← (if need : bool then token_login else mret None);
      match early with
      | Some q => mret (VPromise q)
      | None => token_chain
      end
  end.

(** [$$onVisibilityChanged()]; [hidden] is [this.$utilities.$hidden]. *)
Definition dd_onVisibilityChanged (hidden : bool) : M unit :=
  expired ← get (fun s => idTokenExpired (now s) (profile s));
  ar ← get (fun s => autoRefresh (config s));
  if (expired : bool) || negb (default false ar) then mret tt
  else if hidden then
    p ← refreshToken;
    p_then p StopRenewalThen;;
    mret tt
  else dd_refreshToken.

(** ** Collaborators whose code is not among the sources *)

(** [parseParams] is [profile.$parseParams()] reading the parameters of the
    landed window, [validate] is [profile.$validate(refresh)] at a given time
    (the error it returns, if any, and the profile it leaves), and
    [isRouteSecure] is [$utilities.isRouteSecure(location.href, routes)]. *)
Class Collaborators := {
  parseParams : list (string * string) -> Profile -> Profile;
  validate : Z -> bool -> Profile -> option value * Profile;
  isRouteSecure : string -> bool
}.

Section Controller.
Context `{Collaborators}.

Definition d_parseParams : M unit :=
  modify (fun s => upd_profile (parseParams (captured s)) s).

Definition d_validate (refresh : bool) : M (option value) := fun s =>
  let '(e, p) := validate (now s) refresh (profile s) in
  (Ok e, upd_profile (fun _ => p) s).

(** [$$onRouteChanged()] *)
Definition dd_onRouteChanged : M unit :=
  here ← get href;
  if isRouteSecure here then retrieveAccessToken;; mret tt else mret tt.

(** [this.profile.code || this.profile.userInfo] *)
Definition login_response : M value :=
  get (fun s => js_or (p_code (profile s)) (p_userInfo (profile s))).

(** The bodies of the closures passed to [then] and [catch]; [v] is the
    value or the error the closure receives. *)
Definition apply_callback (cb : callback) (v : value) : M value :=
  match cb with
  | LoginIframeThen events =>
      modify (upd_promises (set_login None));;
      error ← d_validate false;
      match error with
      | Some e => q ← Promise_reject e; mret (VPromise q)
      | None =>
          response ← login_response;
          (if events then d_fire "login" null response else mret tt);;
          mret response
      end
  | LoginIframeCatch events =>
      modify (upd_promises (set_login None));;
      (if events then d_fire "login" v undefined else mret tt);;
      q ← Promise_reject v; mret (VPromise q)
  | LoginWindowThen =>
      modify (upd_promises (set_login None));;
      d_parseParams;;
      error ← d_validate false;
      match error with
      | Some e =>
          modify (upd_profile p_clear);;
          q ← Promise_reject e; mret (VPromise q)
      | None =>
          response ← login_response;
          d_fire "login" null response;;
          mret response
      end
  | LoginWindowCatch =>
      modify (upd_promises (set_login None));;
      d_fire "login" v undefined;;
      q ← Promise_reject v; mret (VPromise q)
  | LogoutThen =>
      modify (upd_promises (set_logout None));;
      d_fire "logout" undefined undefined;;
      mret undefined
  | LogoutCatch =>
      modify (upd_promises (set_logout None));;
      d_fire "logout" v undefined;;
      q ← Promise_reject v; mret (VPromise q)
  | RefreshThen =>
      modify (upd_promises (set_refresh None));;
      error ← d_validate true;
      match error with
      | Some e => q ← Promise_reject e; mret (VPromise q)
      | None =>
          modify (upd_promises (set_refresh None));;
          d_fire "refresh" null v;;
          mret v
      end
  | RefreshCatch =>
      modify (upd_promises (set_refresh None));;
      d_fire "refresh" v undefined;;
      q ← Promise_reject v; mret (VPromise q)
  | TokenRenewThen =>
      modify (upd_profile p_clearErrors);;
      expired ← get (fun s => accessTokenExpired (now s) (profile s));
      if expired : bool then
        u ← d_accessTokenUrl;
        t ← createIframe u;
        d ← p_then t TokenValidateThen;
        mret (VPromise d)
      else get (fun s => p_accessToken (profile s))
  | TokenValidateThen =>
      error ← d_validate true;
      match error with
      | Some e => q ← Promise_reject e; mret (VPromise q)
      | None => get (fun s => p_accessToken (profile s))
      end
  | TokenDoneThen =>
      modify (upd_promises (set_token None));;
      mret v
  | TokenDoneCatch =>
      modify (upd_promises (set_token None));;
      q ← Promise_reject v; mret (VPromise q)
  | ConsoleErrorCatch =>
      modify (upd_console (fun l => l ++ [v]));;
      mret undefined
  | StopRenewalThen =>
      r ← get (fun s => t_refresh (timeouts s));
      clearTimeout r;;
      modify (upd_timeouts (set_t_refresh Nulled));;
      mret undefined
  end.

(** ** Microtasks *)

(** Run a closure as a reaction: its result resolves the chained promise, an
    exception rejects it. *)
Definition run_reaction (cb : callback) (d : pid) (v : value) (s : state) : state :=
  match apply_callback cb v s with
  | (Ok v', s') => resolve d v' s'
  | (Throw e, s') => settle d (Rejected e) s'
  end.

Definition run_job (j : job) (s : state) : state :=
  match j with
  | Job (Then f d) (Fulfilled v) => run_reaction f d v s
  | Job (Then _ d) (Rejected e) => settle d (Rejected e) s
  | Job (Catch _ d) (Fulfilled v) => settle d (Fulfilled v) s
  | Job (Catch g d) (Rejected e) => run_reaction g d e s
  | Job (Adopt d) o => settle d o s
  end.

(** One microtask: the oldest job of the queue. *)
Definition microtask (s : state) : state :=
  match queue s with
  | [] => s
  | j :: q => run_job j (upd_queue (fun _ => q) s)
  end.

(** Run microtasks until the queue is empty, at most [fuel] of them. *)
Fixpoint drain (fuel : nat) (s : state) : state :=
  match fuel, queue s with
  | S n, _ :: _ => drain n (microtask s)
  | _, _ => s
  end.

(** ** Timer callbacks *)

Definition run_timer (cb : timer_callback) : M unit :=
  match cb with
  | RefreshTick =>
      ar ← get (fun s => autoRefresh (config s));
      if default false ar then
        p ← refreshToken;
        p_catch p ConsoleErrorCatch;;
        mret tt
      else d_fire "refresh" undefined undefined
  | ExpiredTick => d_fire "expired" undefined undefined
  | RouteChangedTick => dd_onRouteChanged
  | RedirectLanding error =>
      action ← get (fun s => action_of (p_state (profile s)) (profile s));
      (if truthy error then modify (upd_profile p_clear)
       else
         target ← get (fun s => redirectUrl (profile s));
         d_navigate (Href (default "undefined" target));;
         modify (upd_profile (with_redirectUrl None)));;
      (if decide (action = Some "login") then
         response ← login_response;
         d_fire "login" (js_or error null) response
       else if decide (action = Some "logout") then
         d_fire "logout" error undefined
       else mret tt);;
      cb ← get (fun s => redirectLoginCallback (config s));
      match cb with
      | Some f => call_listener error undefined f
      | None => mret tt
      end
  end.

(** ** The page: calls, tasks and microtasks *)

Inductive api :=
| On (eventType : string) (callback : callable)
| Off (eventType : string) (callback : callable)
| LoginWithIframe (a : iframe_arg)
| LoginWithPopup
| LoginWithNewTab
| LoginWithRedirect (redirectUrl : option string)
| LogoutWithIframe
| LogoutWithPopup
| LogoutWithNewTab
| LogoutWithRedirect
| RefreshToken
| RetrieveAccessToken.

Definition returning (m : M pid) : M value := p ← m; mret (VPromise p).
Definition returning_nothing (m : M unit) : M value := m;; mret undefined.

Definition call (a : api) : M value :=
  match a with
  | On e c => returning_nothing (on e c)
  | Off e c => returning_nothing (off e c)
  | LoginWithIframe a => returning (loginWithIframe a)
  | LoginWithPopup => returning loginWithPopup
  | LoginWithNewTab => returning loginWithNewTab
  | LoginWithRedirect r => returning (loginWithRedirect r)
  | LogoutWithIframe => returning logoutWithIframe
  | LogoutWithPopup => returning logoutWithPopup
  | LogoutWithNewTab => returning logoutWithNewTab
  | LogoutWithRedirect => returning_nothing logoutWithRedirect
  | RefreshToken => returning refreshToken
  | RetrieveAccessToken => retrieveAccessToken
  end.

(** What happens on the page.  A call of the application may come at any
    point; a task of the event loop (a timer, a transport that lands, a route
    or visibility change) runs only when no microtask is left. *)
Inductive event :=
| Call (a : api)
| Microtask
| Tick (time : Z)
| TimerFires (id : nat)
| TransportSettles (p : pid) (o : outcome) (params : list (string * string))
| RouteChanged (location : string)
| VisibilityChanged (hidden : bool).

(** An exception nobody catches is reported on the console. *)
Definition uncaught {A} (m : M A) (s : state) : state :=
  match m s with
  | (Ok _, s') => s'
  | (Throw e, s') => upd_console (fun l => l ++ [e]) s'
  end.

(** A transport that lands: an iframe that succeeded has parsed its
    parameters into the profile before it is removed; a window leaves them to
    its opener. *)
Definition land (t : transport) (o : outcome) (params : list (string * string))
    (s : state) : state :=
  match t, o with
  | Iframe, Fulfilled _ => upd_profile (parseParams params) s
  | _, _ => upd_captured (fun _ => params) s
  end.

Definition task (e : event) (s : state) : state :=
  match e with
  | TimerFires id =>
      match armed s !! id with
      | Some (cb, _) => uncaught (run_timer cb) (upd_armed (delete id) s)
      | None => s
      end
  | TransportSettles p o params =>
      match heap s !! p with
      | Some {| p_origin := FromTransport t; status := None |} =>
          settle p o (land t o params s)
      | _ => s
      end
  | RouteChanged location =>
      if watching s
      then uncaught dd_onRouteChanged (upd_href (fun _ => location) s)
      else s
  | VisibilityChanged hidden =>
      if watching s then uncaught (dd_onVisibilityChanged hidden) s else s
  | _ => s
  end.

Definition step (e : event) (s : state) : state :=
  match e with
  | Call a => snd (call a s)
  | Microtask => microtask s
  | Tick time => if now s <=? time then upd_now (fun _ => time) s else s
  | _ => match queue s with [] => task e s | _ => s end
  end.

Definition run (es : list event) (s : state) : state :=
  foldl (fun s e => step e s) s es.

(** ** The constructor *)

(** [$utilities.$iframe], [$utilities.$popup], or neither. *)
Inductive context := InIframe | InPopup | TopLevel.

(** The page a controller is constructed on. *)
Record window := {
  salte_auth : option state;                  (* window.salte.auth *)
  w_context : context;
  w_href : string;
  w_params : list (string * string);
  w_storage : Profile;                        (* what the storage holds *)
  w_now : Z;
  w_uuid : nat;
  w_Providers : gmap string Provider          (* salte-auth.providers.js *)
}.

Definition fresh_instance (w : window) (c : Config) : state :=
  {| promises := {| login := None; logout := None; refresh := None; token := None |};
     timeouts := {| t_refresh := Unset; t_expired := Unset |};
     listeners := ∅; config := c; providers := w_Providers w;
     profile := w_storage w; heap := ∅; next_pid := 0%nat; queue := [];
     armed := ∅; next_timer := 0%nat; now := w_now w; uuid := w_uuid w;
     href := w_href w; captured := w_params w; opened := []; dispatched := [];
     invoked := []; console := []; watching := false |}.

(** The body of the constructor once a config is there. *)
Definition construct (ctx : context) : M unit :=
  p ← d_provider;
  modify (upd_config (fun c => defaultsDeep c (defaultConfig p)));;
  match ctx with
  | InIframe => d_parseParams
  | InPopup => mret tt
  | TopLevel =>
      target ← get (fun s => redirectUrl (profile s));
      here ← get href;
      if bool_decide (is_Some (nonempty target) ∧ target ≠ Some here) then
        d_parseParams;;
        error ← d_validate false;
        setTimeout (RedirectLanding (default undefined error)) 0;;
        mret tt
      else
        setTimeout RouteChangedTick 0;;
        on "login" (Fn RenewOnLogin);;
        on "refresh" (Fn RenewOnRefresh);;
        on "logout" (Fn StopOnLogout);;
        expired ← get (fun s => idTokenExpired (now s) (profile s));
        (if expired : bool then mret tt else dd_refreshToken);;
        modify (upd_watching (fun _ => true));;
        d_fire "create" null VThis
  end;;
  warn ← get (fun s => redirectLoginCallback (config s));
  match warn with
  | Some _ => modify (upd_console (fun l => l ++ [deprecation_warning]))
  | None => mret tt
  end.

Definition set_salte_auth (inst : state) (w : window) : window :=
  {| salte_auth := Some inst; w_context := w_context w; w_href := w_href w;
     w_params := w_params w; w_storage := w_storage w; w_now := w_now w;
     w_uuid := w_uuid w; w_Providers := w_Providers w |}.

(** [new SalteAuth(config)]: the instance, or the exception, and the page
    with [window.salte.auth] set. *)
Definition constructor (w : window) (config : option Config) : result state * window :=
  match salte_auth w with
  | Some instance => (Ok instance, w)
  | None =>
      match config with
      | None => (Throw (ReferenceError "A config must be provided."), w)
      | Some c =>
          match construct (w_context w) (fresh_instance w c) with
          | (Ok _, this) => (Ok this, set_salte_auth this w)
          | (Throw e, _) => (Throw e, w)
          end
      end
  end.

End Controller.

(** * Properties *)

Ltac unfold_M :=
  unfold mbind, mret, M_bind, M_ret, get, modify, throw in *.

(** ** Arrays *)

Lemma indexOf_from_absent {A} `{EqDecision A} (x : A) (l : list A) (i : Z) :
  x ∉ l -> indexOf_from x l i = -1.
Proof.
  revert i; induction l as [|y l IH]; intros i Hx; simpl; [done|].
  apply not_elem_of_cons in Hx as [Hne Hx].
  destruct (decide (y = x)) as [->|_]; [done|]. by apply IH.
Qed.

Lemma indexOf_from_present {A} `{EqDecision A} (x : A) (l : list A) (i : Z) :
  x ∈ l -> i <= indexOf_from x l i.
Proof.
  revert i; induction l as [|y l IH]; intros i Hx; simpl.
  - by apply elem_of_nil in Hx.
  - destruct (decide (y = x)) as [->|Hne]; [lia|].
    apply elem_of_cons in Hx as [->|Hx]; [done|].
    specialize (IH (i + 1) Hx). lia.
Qed.

Lemma indexOf_known (eventType : string) :
  eventType ∈ event_types -> indexOf eventType event_types ≠ -1.
Proof.
  intros Hin. pose proof (indexOf_from_present _ _ 0 Hin). unfold indexOf. lia.
Qed.

Lemma indexOf_unknown (eventType : string) :
  eventType ∉ event_types -> indexOf eventType event_types = -1.
Proof. apply indexOf_from_absent. Qed.

(** [splice(-1, 1)] removes the last element. *)
Lemma splice_minus_one {A} (init : list A) (x : A) :
  splice (-1) 1 (init ++ [x]) = init.
Proof.
  unfold splice. rewrite length_app. simpl length.
  replace (-1 <? 0) with true by done.
  replace (Z.max (Z.of_nat (length init + 1) + -1) 0)
    with (Z.of_nat (length init)) by lia.
  replace (Z.min (Z.max 1 0) (Z.of_nat (length init + 1) - Z.of_nat (length init)))
    with 1 by lia.
  rewrite Nat2Z.id, take_app_length.
  rewrite drop_ge; [by rewrite app_nil_r|].
  rewrite length_app. simpl. lia.
Qed.

(** [splice(i, 1)] at the index of an element removes that element. *)
Lemma splice_at {A} (l1 l2 : list A) (x : A) :
  splice (Z.of_nat (length l1)) 1 (l1 ++ x :: l2) = l1 ++ l2.
Proof.
  unfold splice. rewrite length_app. simpl length.
  rewrite (proj2 (Z.ltb_ge _ _)) by lia.
  replace (Z.min (Z.of_nat (length l1)) (Z.of_nat (length l1 + S (length l2))))
    with (Z.of_nat (length l1)) by lia.
  replace (Z.min (Z.max 1 0) (Z.of_nat (length l1 + S (length l2)) - Z.of_nat (length l1)))
    with 1 by lia.
  rewrite Nat2Z.id, take_app_length.
  replace (Z.to_nat (Z.of_nat (length l1) + 1)) with (length l1 + 1)%nat by lia.
  rewrite drop_app_add' by done. done.
Qed.

(** ** A page to run the controller on *)

Definition no_profile : Profile :=
  {| idToken := None; accessToken := None; accessTokenExp := 0; code := None;
     userinfo := None; localState := None; nonce := None; redirectUrl := None;
     p_state := None; p_error := None; actions := [] |}.

(** A landed window that brings an id token expiring at second 1120 and an
    access token, and a validation that accepts everything. *)
Definition demo_collaborators : Collaborators :=
  {| parseParams := fun _ p =>
       {| idToken := Some "id"; accessToken := Some "at";
          accessTokenExp := 1120000; code := None;
          userinfo := Some {| exp := 1120 |}; localState := localState p;
          nonce := nonce p; redirectUrl := redirectUrl p;
          p_state := localState p; p_error := None; actions := actions p |};
     validate := fun _ _ p => (None, p);
     isRouteSecure := fun _ => false |}.

Definition demo_config : Config :=
  {| providerUrl := "https://idp.example"; responseType := "id_token";
     c_provider := Named "hydra"; loginType := None; autoRefresh := None;
     autoRefreshBuffer := None; redirectLoginCallback := None |}.

Definition demo_window : window :=
  {| salte_auth := None; w_context := TopLevel;
     w_href := "https://app.example/"; w_params := [];
     w_storage := no_profile; w_now := 1000000; w_uuid := 7%nat;
     w_Providers := {[ "hydra" := SalteAuthHydraProvider ]} |}.

(** The instance [new SalteAuth(demo_config)] leaves on [demo_window]. *)
Definition demo_instance : state :=
  match @constructor demo_collaborators demo_window (Some demo_config) with
  | (Ok this, _) => this
  | (Throw _, _) => fresh_instance demo_window demo_config
  end.

Example demo_instance_listeners :
  listeners demo_instance !! "login" = Some [RenewOnLogin]
  /\ listeners demo_instance !! "refresh" = Some [RenewOnRefresh]
  /\ listeners demo_instance !! "logout" = Some [StopOnLogout]
  /\ listeners demo_instance !! "expired" = None
  /\ dispatched demo_instance = [("salte-auth-create", null, VThis)]
  /\ watching demo_instance = true.
Proof. vm_compute. repeat split. Qed.

(** ** The listener registry *)

Lemma check_event_known (eventType : string) (l : listener) (s : state) :
  eventType ∈ event_types -> check_event eventType (Fn l) s = (Ok l, s).
Proof.
  intros Hin. unfold check_event.
  destruct (decide (indexOf eventType event_types = -1)) as [Heq|_]; [|done].
  by apply indexOf_known in Hin.
Qed.

(** C10: for an event kind with a non-empty listener list, [off(kind, f)]
    with a function [f] that is not registered for the kind removes the most
    recently registered listener: [indexOf] answers -1 and [splice(-1, 1)]
    cuts the last element. *)
Theorem off_unregistered_removes_last
    (eventType : string) (f : listener) (ls : list listener) (s : state) :
  eventType ∈ event_types ->
  listeners s !! eventType = Some ls ->
  ls ≠ [] ->
  f ∉ ls ->
  exists init last,
    ls = init ++ [last]
    /\ off eventType (Fn f) s = (Ok tt, upd_listeners (insert eventType init) s)
    /\ listeners (snd (off eventType (Fn f) s)) !! eventType = Some init.
Proof.
  intros Hkind Hls Hne Hf.
  destruct (exists_last Hne) as (ls0 & l0 & ->).
  exists ls0, l0. split; [done|].
  assert (off eventType (Fn f) s
          = (Ok tt, upd_listeners (insert eventType ls0) s)) as Hoff.
  { unfold off. unfold_M. rewrite check_event_known by done.
    rewrite Hls. unfold indexOf. rewrite indexOf_from_absent by done.
    rewrite splice_minus_one. by destruct ls0. }
  split; [done|]. rewrite Hoff. simpl. apply lookup_insert_eq.
Qed.

Lemma off_unregistered_removes_last_witness :
  exists init last,
    [RenewOnLogin; AppFn 1 None] = init ++ [last]
    /\ off "login" (Fn (AppFn 2 None))
         (snd (on "login" (Fn (AppFn 1 None)) demo_instance))
       = (Ok tt,
          upd_listeners (insert "login" init)
            (snd (on "login" (Fn (AppFn 1 None)) demo_instance)))
    /\ listeners
         (snd (off "login" (Fn (AppFn 2 None))
                 (snd (on "login" (Fn (AppFn 1 None)) demo_instance))))
       !! "login" = Some init.
Proof.
  apply (off_unregistered_removes_last "login" (AppFn 2 None)
           [RenewOnLogin; AppFn 1 None]).
  - apply (bool_decide_unpack _). vm_compute. exact I.
  - vm_compute. reflexivity.
  - discriminate.
  - apply (bool_decide_unpack _). vm_compute. exact I.
Defined.

(** ** Firing events *)

(** What a listener called with [error] throws, if anything: an application
    callback as it is written, a renewal closure when [$$refreshToken] finds
    no [userInfo]. *)
Definition listener_throws (error : value) (p : Profile) (l : listener) : option value :=
  match l with
  | RenewOnLogin | RenewOnRefresh =>
      if truthy error then None
      else match userinfo p with
           | Some _ => None
           | None => Some (TypeError "this.profile.userInfo is null")
           end
  | StopOnLogout => None
  | AppFn _ throws => throws
  end.

(** The listeners [forEach] reaches: all up to the first that throws. *)
Fixpoint reached (error : value) (p : Profile) (ls : list listener) : list listener :=
  match ls with
  | [] => []
  | l :: ls' =>
      l :: match listener_throws error p l with
           | None => reached error p ls'
           | Some _ => []
           end
  end.

(** The exception [forEach] ends with, if any. *)
Fixpoint first_throw (error : value) (p : Profile) (ls : list listener) : option value :=
  match ls with
  | [] => None
  | l :: ls' =>
      match listener_throws error p l with
      | None => first_throw error p ls'
      | Some e => Some e
      end
  end.

Definition completion (t : option value) : result unit :=
  match t with None => Ok tt | Some e => Throw e end.

Lemma clearTimeout_frame (x : slot) (s : state) :
  fst (clearTimeout x s) = Ok tt
  /\ profile (snd (clearTimeout x s)) = profile s
  /\ invoked (snd (clearTimeout x s)) = invoked s
  /\ promises (snd (clearTimeout x s)) = promises s
  /\ heap (snd (clearTimeout x s)) = heap s
  /\ next_pid (snd (clearTimeout x s)) = next_pid s
  /\ queue (snd (clearTimeout x s)) = queue s
  /\ opened (snd (clearTimeout x s)) = opened s
  /\ listeners (snd (clearTimeout x s)) = listeners s
  /\ config (snd (clearTimeout x s)) = config s
  /\ timeouts (snd (clearTimeout x s)) = timeouts s.
Proof. destruct x; cbn; repeat split. Qed.

(** [$$refreshToken] touches the timers and nothing else. *)
Lemma dd_refreshToken_frame (s : state) :
  let s' := snd (dd_refreshToken s) in
  fst (dd_refreshToken s)
    = match userinfo (profile s) with
      | Some _ => Ok tt
      | None => Throw (TypeError "this.profile.userInfo is null")
      end
  /\ profile s' = profile s /\ invoked s' = invoked s
  /\ promises s' = promises s /\ heap s' = heap s
  /\ next_pid s' = next_pid s /\ queue s' = queue s
  /\ opened s' = opened s /\ listeners s' = listeners s
  /\ config s' = config s /\ dispatched s' = dispatched s
  /\ console s' = console s.
Proof.
  unfold dd_refreshToken. unfold_M.
  cbn. destruct (t_refresh (timeouts s)); cbn;
    destruct (t_expired (timeouts s)); cbn;
    destruct (userinfo (profile s)); cbn; repeat split.
Qed.

Lemma call_listener_spec (error data : value) (l : listener) (s : state) :
  let s' := snd (call_listener error data l s) in
  fst (call_listener error data l s)
    = completion (listener_throws error (profile s) l)
  /\ invoked s' = invoked s ++ [(l, error, data)]
  /\ profile s' = profile s
  /\ promises s' = promises s /\ heap s' = heap s
  /\ next_pid s' = next_pid s /\ queue s' = queue s
  /\ opened s' = opened s /\ listeners s' = listeners s
  /\ config s' = config s /\ dispatched s' = dispatched s
  /\ console s' = console s.
Proof.
  unfold call_listener. unfold_M. cbn.
  destruct l as [| | |id [e|]]; cbn; try (repeat split; fail).
  - destruct (truthy error); [cbn; repeat split|].
    pose proof (dd_refreshToken_frame
      (upd_invoked (fun log => log ++ [(RenewOnLogin, error, data)]) s)) as Hf.
    cbn in Hf. destruct (dd_refreshToken _) as [r s']. cbn in *.
    destruct Hf as (-> & -> & -> & -> & -> & -> & -> & -> & -> & -> & -> & ->).
    destruct (userinfo (profile s)); repeat split.
  - destruct (truthy error); [cbn; repeat split|].
    pose proof (dd_refreshToken_frame
      (upd_invoked (fun log => log ++ [(RenewOnRefresh, error, data)]) s)) as Hf.
    cbn in Hf. destruct (dd_refreshToken _) as [r s']. cbn in *.
    destruct Hf as (-> & -> & -> & -> & -> & -> & -> & -> & -> & -> & -> & ->).
    destruct (userinfo (profile s)); repeat split.
  - destruct (t_refresh (timeouts s)); cbn; repeat split.
Qed.

Lemma forEach_listeners_spec (error data : value) (ls : list listener) (s : state) :
  let s' := snd (forEach (call_listener error data) ls s) in
  fst (forEach (call_listener error data) ls s)
    = completion (first_throw error (profile s) ls)
  /\ invoked s'
     = invoked s ++ ((fun l => (l, error, data)) <$> reached error (profile s) ls)
  /\ profile s' = profile s
  /\ promises s' = promises s /\ heap s' = heap s
  /\ next_pid s' = next_pid s /\ queue s' = queue s
  /\ opened s' = opened s /\ listeners s' = listeners s
  /\ config s' = config s /\ dispatched s' = dispatched s
  /\ console s' = console s.
Proof.
  revert s. induction ls as [|l ls IH]; intros s.
  { cbn. rewrite app_nil_r. repeat split. }
  cbn [forEach reached first_throw]. unfold mbind, M_bind.
  pose proof (call_listener_spec error data l s) as Hc.
  destruct (call_listener error data l s) as [r s1]. cbn in Hc.
  destruct Hc as (-> & Hi & Hp & Hpr & Hh & Hn & Hq & Ho & Hl & Hc & Hd & Hco).
  destruct (listener_throws error (profile s) l) as [e|]; cbn.
  { rewrite Hi. repeat split; done. }
  specialize (IH s1). cbn in IH.
  destruct IH as (-> & -> & -> & -> & -> & -> & -> & -> & -> & -> & -> & ->).
  rewrite Hp, Hi, <- app_assoc. repeat split; done.
Qed.

Lemma d_fire_spec (eventType : string) (error data : value) (s : state) :
  let ls := default [] (listeners s !! eventType) in
  let s' := snd (d_fire eventType error data s) in
  fst (d_fire eventType error data s)
    = completion (first_throw error (profile s) ls)
  /\ invoked s'
     = invoked s ++ ((fun l => (l, error, data)) <$> reached error (profile s) ls)
  /\ profile s' = profile s
  /\ promises s' = promises s /\ heap s' = heap s
  /\ next_pid s' = next_pid s /\ queue s' = queue s
  /\ opened s' = opened s /\ listeners s' = listeners s
  /\ config s' = config s
  /\ dispatched s' = dispatched s ++ [("salte-auth-" +:+ eventType, error, data)]
  /\ console s' = console s.
Proof.
  unfold d_fire. unfold_M. cbn.
  destruct (listeners s !! eventType) as [[|l ls]|]; cbn;
    try (rewrite app_nil_r; repeat split; fail).
  apply (forEach_listeners_spec error data (l :: ls)
           (upd_dispatched
              (fun log => log ++ [("salte-auth-" +:+ eventType, error, data)]) s)).
Qed.

Lemma reached_all (error : value) (p : Profile) (ls : list listener) :
  first_throw error p ls = None -> reached error p ls = ls.
Proof.
  induction ls as [|l ls IH]; [done|]. cbn.
  destruct (listener_throws error p l); [done|]. intros Hn. by rewrite IH.
Qed.

Lemma reached_until (error : value) (p : Profile)
    (before after : list listener) (l : listener) (e : value) :
  first_throw error p before = None ->
  listener_throws error p l = Some e ->
  reached error p (before ++ l :: after) = before ++ [l]
  /\ first_throw error p (before ++ l :: after) = Some e.
Proof.
  intros Hb Hl. induction before as [|b before IH]; cbn.
  { by rewrite Hl. }
  cbn in Hb. destruct (listener_throws error p b); [done|].
  destruct (IH Hb) as [-> ->]. done.
Qed.


Definition boom : value := VErr "Error" "boom".

(** A page with three listeners for 'login': the constructor's, one that
    throws, one that returns. *)
Definition three_listeners : state :=
  snd (on "login" (Fn (AppFn 2 None))
         (snd (on "login" (Fn (AppFn 1 (Some boom))) demo_instance))).



(** ** Configuration errors *)

Definition disabled_login_error : value :=
  ReferenceError "Automatic login is disabled, please login before making any requests!".

Lemma check_event_unknown (eventType : string) (callback : callable) (s : state) :
  eventType ∉ event_types ->
  check_event eventType callback s
  = (Throw (ReferenceError ("Unknown Event Type (" +:+ eventType +:+ ")")), s).
Proof.
  intros Hout. unfold check_event.
  destruct (decide (indexOf eventType event_types = -1)) as [_|Hne]; [done|].
  by apply indexOf_unknown in Hout.
Qed.

Lemma check_event_not_function (eventType : string) (v : value) (s : state) :
  eventType ∈ event_types ->
  check_event eventType (NotFn v) s
  = (Throw (ReferenceError "Invalid callback provided!"), s).
Proof.
  intros Hin. unfold check_event.
  destruct (decide (indexOf eventType event_types = -1)) as [Heq|_]; [|done].
  by apply indexOf_known in Hin.
Qed.

Lemma d_provider_unknown (name : string) (s : state) :
  c_provider (config s) = Named name ->
  name ≠ "" ->
  providers s !! name = None ->
  d_provider s = (Throw (ReferenceError ("Unknown Provider (" +:+ name +:+ ")")), s).
Proof.
  intros Hc Hne Hp. unfold d_provider. rewrite Hc, Hp.
  destruct (String.eqb_spec name ""); done.
Qed.

(** [retrieveAccessToken] with automatic login disabled and no login in
    flight: a rejected promise is returned, nothing is thrown. *)
Lemma retrieveAccessToken_disabled (s : state) :
  loginType (config s) = Some (VBool false) ->
  token (promises s) = None ->
  login (promises s) = None ->
  must_login s = true ->
  retrieveAccessToken s
  = (Ok (VPromise (S (next_pid s))),
     upd_next_pid S
       (upd_heap (insert (S (next_pid s))
                    {| p_origin := Immediate;
                       status := Some (Rejected disabled_login_error);
                       reactions := [] |})
          (upd_promises (set_token None)
             (upd_promises (set_token (Some (next_pid s)))
                (upd_next_pid S
                   (upd_heap (insert (next_pid s)
                                {| p_origin := Immediate;
                                   status := Some (Fulfilled undefined);
                                   reactions := [] |}) s)))))).
Proof.
  intros Hlt Htok Hlog Hmust.
  unfold retrieveAccessToken, token_login, Promise_resolve, Promise_reject,
    new_promise.
  unfold_M. rewrite Htok. cbn.
  change (must_login _) with (must_login s). rewrite Hmust. cbn.
  rewrite Hlt. rewrite !decide_False by done. rewrite decide_True by done.
  cbn. rewrite Hlog. reflexivity.
Qed.

Section ConfigurationErrors.
Context `{Collaborators}.

(** C9: the constructor hands back the instance the page already has,
    whatever config it is given, and the page stays as it is; without an
    instance a missing config is a ReferenceError. *)
Theorem constructor_returns_existing_instance (w : window) (config : option Config) :
  match salte_auth w with
  | Some instance => constructor w config = (Ok instance, w)
  | None =>
      constructor w None
      = (Throw (ReferenceError "A config must be provided."), w)
  end.
Proof. unfold constructor. by destruct (salte_auth w). Qed.

Lemma constructor_unknown_provider (w : window) (c : Config) (name : string) :
  salte_auth w = None ->
  c_provider c = Named name ->
  name ≠ "" ->
  w_Providers w !! name = None ->
  constructor w (Some c)
  = (Throw (ReferenceError ("Unknown Provider (" +:+ name +:+ ")")), w).
Proof.
  intros Hw Hc Hne Hp. unfold constructor. rewrite Hw.
  unfold construct. unfold_M.
  by rewrite (d_provider_unknown name (fresh_instance w c)).
Qed.

(** C8, as the code has it: an unknown provider, an unknown event kind and a
    callback that is not a function are thrown at the call ([new SalteAuth],
    [on], [off]); automatic login disabled is not thrown:
    [retrieveAccessToken] returns a promise that is already rejected with the
    ReferenceError, clears the token handle and opens no transport. *)
Theorem configuration_errors
    (w : window) (c : Config) (name : string)
    (s : state) (unknown known : string) (callback : callable) (v : value)
    (sd : state) :
  salte_auth w = None ->
  c_provider c = Named name ->
  name ≠ "" ->
  w_Providers w !! name = None ->
  unknown ∉ event_types ->
  known ∈ event_types ->
  loginType (config sd) = Some (VBool false) ->
  token (promises sd) = None ->
  login (promises sd) = None ->
  must_login sd = true ->
  constructor w (Some c)
  = (Throw (ReferenceError ("Unknown Provider (" +:+ name +:+ ")")), w)
  /\ on unknown callback s
     = (Throw (ReferenceError ("Unknown Event Type (" +:+ unknown +:+ ")")), s)
  /\ off unknown callback s
     = (Throw (ReferenceError ("Unknown Event Type (" +:+ unknown +:+ ")")), s)
  /\ on known (NotFn v) s = (Throw (ReferenceError "Invalid callback provided!"), s)
  /\ off known (NotFn v) s = (Throw (ReferenceError "Invalid callback provided!"), s)
  /\ exists q,
       fst (retrieveAccessToken sd) = Ok (VPromise q)
       /\ heap (snd (retrieveAccessToken sd)) !! q
          = Some {| p_origin := Immediate;
                    status := Some (Rejected disabled_login_error);
                    reactions := [] |}
       /\ token (promises (snd (retrieveAccessToken sd))) = None
       /\ opened (snd (retrieveAccessToken sd)) = opened sd.
Proof.
  intros Hw Hc Hne Hp Hunknown Hknown Hlt Htok Hlog Hmust.
  split; [by apply constructor_unknown_provider|].
  unfold on, off. unfold_M.
  rewrite !check_event_unknown, !check_event_not_function by done.
  repeat (split; [done|]).
  exists (S (next_pid sd)). rewrite retrieveAccessToken_disabled by done.
  cbn. rewrite lookup_insert_eq. done.
Qed.

End ConfigurationErrors.

(** A page whose config disables automatic login. *)
Definition disabled_config : Config :=
  {| providerUrl := "https://idp.example"; responseType := "id_token";
     c_provider := Named "hydra"; loginType := Some (VBool false);
     autoRefresh := None; autoRefreshBuffer := None;
     redirectLoginCallback := None |}.

Definition disabled_instance : state :=
  match @constructor demo_collaborators demo_window (Some disabled_config) with
  | (Ok this, _) => this
  | (Throw _, _) => fresh_instance demo_window disabled_config
  end.

Definition unknown_provider_config : Config :=
  {| providerUrl := "https://idp.example"; responseType := "id_token";
     c_provider := Named "nope"; loginType := None;
     autoRefresh := None; autoRefreshBuffer := None;
     redirectLoginCallback := None |}.

Lemma configuration_errors_witness :
  @constructor demo_collaborators demo_window (Some unknown_provider_config)
  = (Throw (ReferenceError "Unknown Provider (nope)"), demo_window)
  /\ on "created" (Fn (AppFn 1 None)) demo_instance
     = (Throw (ReferenceError "Unknown Event Type (created)"), demo_instance)
  /\ off "created" (Fn (AppFn 1 None)) demo_instance
     = (Throw (ReferenceError "Unknown Event Type (created)"), demo_instance)
  /\ on "login" (NotFn (VStr "f")) demo_instance
     = (Throw (ReferenceError "Invalid callback provided!"), demo_instance)
  /\ off "login" (NotFn (VStr "f")) demo_instance
     = (Throw (ReferenceError "Invalid callback provided!"), demo_instance)
  /\ exists q,
       fst (retrieveAccessToken disabled_instance) = Ok (VPromise q)
       /\ heap (snd (retrieveAccessToken disabled_instance)) !! q
          = Some {| p_origin := Immediate;
                    status := Some (Rejected disabled_login_error);
                    reactions := [] |}
       /\ token (promises (snd (retrieveAccessToken disabled_instance))) = None
       /\ opened (snd (retrieveAccessToken disabled_instance))
          = opened disabled_instance.
Proof.
  apply (@configuration_errors demo_collaborators demo_window
           unknown_provider_config "nope" demo_instance "created" "login"
           (Fn (AppFn 1 None)) (VStr "f") disabled_instance).
  - reflexivity.
  - reflexivity.
  - discriminate.
  - vm_compute. reflexivity.
  - apply (bool_decide_unpack _). vm_compute. exact I.
  - apply (bool_decide_unpack _). vm_compute. exact I.
  - vm_compute. reflexivity.
  - vm_compute. reflexivity.
  - vm_compute. reflexivity.
  - vm_compute. reflexivity.
Defined.

(** C8 at a concrete page: with automatic login disabled and no login in
    flight, [retrieveAccessToken] throws nothing; it returns promise 1, which
    is rejected. *)
Lemma disabled_login_is_not_thrown :
  loginType (config disabled_instance) = Some (VBool false)
  /\ login (promises disabled_instance) = None
  /\ fst (retrieveAccessToken disabled_instance) = Ok (VPromise 1%nat)
  /\ (forall e, fst (retrieveAccessToken disabled_instance) ≠ Throw e)
  /\ status <$> heap (snd (retrieveAccessToken disabled_instance)) !! 1%nat
     = Some (Some (Rejected disabled_login_error)).
Proof.
  assert (fst (retrieveAccessToken disabled_instance) = Ok (VPromise 1%nat)) as Hr
    by (vm_compute; reflexivity).
  split; [vm_compute; reflexivity|]. split; [vm_compute; reflexivity|].
  split; [done|]. split; [by rewrite Hr|]. vm_compute. reflexivity.
Qed.

(** ** The renewal scheduler *)

(** [clearTimeout] on the table of armed timers. *)
Definition cancel (x : slot) (m : gmap nat (timer_callback * Z)) :
    gmap nat (timer_callback * Z) :=
  match x with
  | TimerId id => delete id m
  | _ => m
  end.

Definition is_app (l : listener) : bool :=
  match l with AppFn _ _ => true | _ => false end.

(** The delay of the refresh timer. *)
Definition refresh_delay (s : state) (u : userInfo) : Z :=
  match autoRefreshBuffer (config s) with
  | Some b => Z.max (exp u * 1000 - now s - b) 0
  | None => 0
  end.

Lemma dd_refreshToken_timers (s : state) (u : userInfo) :
  userinfo (profile s) = Some u ->
  let s' := snd (dd_refreshToken s) in
  fst (dd_refreshToken s) = Ok tt
  /\ timeouts s'
     = {| t_refresh := TimerId (next_timer s);
          t_expired := TimerId (S (next_timer s)) |}
  /\ armed s'
     = <[S (next_timer s) := (ExpiredTick, Z.max (exp u * 1000 - now s) 0)]>
         (<[next_timer s := (RefreshTick, refresh_delay s u)]>
            (cancel (t_expired (timeouts s))
               (cancel (t_refresh (timeouts s)) (armed s))))
  /\ next_timer s' = S (S (next_timer s)).
Proof.
  intros Hu. unfold dd_refreshToken, refresh_delay. unfold_M.
  cbn. destruct (t_refresh (timeouts s)); cbn;
    destruct (t_expired (timeouts s)); cbn; rewrite Hu; cbn; repeat split.
Qed.

Lemma forEach_apps_timers (error data : value) (apps : list listener) (s : state) :
  Forall (fun l => is_app l = true) apps ->
  let s' := snd (forEach (call_listener error data) apps s) in
  timeouts s' = timeouts s /\ armed s' = armed s /\ next_timer s' = next_timer s.
Proof.
  intros Happs. revert s. induction Happs as [|l apps Hl _ IH]; intros s; [done|].
  cbn [forEach]. unfold mbind, M_bind.
  destruct l as [| | |id [e|]]; cbn in Hl; try discriminate; cbn.
  - done.
  - apply (IH (upd_invoked _ s)).
Qed.

Global Instance slot_eq_dec : EqDecision slot.
Proof. solve_decision. Defined.

Lemma cancel_lookup (x : slot) (m : gmap nat (timer_callback * Z)) (id : nat) :
  cancel x m !! id = if decide (x = TimerId id) then None else m !! id.
Proof.
  destruct x as [|id'|]; cbn; try by rewrite decide_False.
  destruct (decide (TimerId id' = TimerId id)) as [[= ->]|Hne].
  - apply lookup_delete_eq.
  - apply lookup_delete_ne. congruence.
Qed.

(** The timers of [s'] are those [$$refreshToken] arms in [s]: the two old
    timers are gone, a refresh timer and an expired timer are armed with the
    delays computed from the expiry, and no other timer has changed. *)
Definition scheduled (s : state) (u : userInfo) (b : Z) (s' : state) : Prop :=
  let timeToExpiration := exp u * 1000 - now s in
  exists r e : nat,
    r ≠ e
    /\ timeouts s' = {| t_refresh := TimerId r; t_expired := TimerId e |}
    /\ armed s' !! r = Some (RefreshTick, Z.max (timeToExpiration - b) 0)
    /\ armed s' !! e = Some (ExpiredTick, Z.max timeToExpiration 0)
    /\ (forall id,
          t_refresh (timeouts s) = TimerId id \/ t_expired (timeouts s) = TimerId id ->
          armed s' !! id = None)
    /\ (forall id,
          id ≠ r -> id ≠ e ->
          t_refresh (timeouts s) ≠ TimerId id ->
          t_expired (timeouts s) ≠ TimerId id ->
          armed s' !! id = armed s !! id).

(** The timer ids held by [$timeouts] were handed out by [setTimeout]. *)
Definition slots_allocated (s : state) : Prop :=
  forall id,
    t_refresh (timeouts s) = TimerId id \/ t_expired (timeouts s) = TimerId id ->
    (id < next_timer s)%nat.

Lemma scheduled_intro (s s' : state) (u : userInfo) (b : Z) :
  autoRefreshBuffer (config s) = Some b ->
  slots_allocated s ->
  timeouts s'
  = {| t_refresh := TimerId (next_timer s);
       t_expired := TimerId (S (next_timer s)) |} ->
  armed s'
  = <[S (next_timer s) := (ExpiredTick, Z.max (exp u * 1000 - now s) 0)]>
      (<[next_timer s := (RefreshTick, refresh_delay s u)]>
         (cancel (t_expired (timeouts s))
            (cancel (t_refresh (timeouts s)) (armed s)))) ->
  scheduled s u b s'.
Proof.
  intros Hb Hfresh Ht Ha. unfold refresh_delay in Ha. rewrite Hb in Ha.
  exists (next_timer s), (S (next_timer s)).
  split; [lia|]. split; [done|]. rewrite Ha.
  split; [by rewrite lookup_insert_ne, lookup_insert_eq by lia|].
  split; [by rewrite lookup_insert_eq|]. split.
  - intros id Hold. specialize (Hfresh id Hold).
    rewrite !lookup_insert_ne, !cancel_lookup by lia.
    destruct Hold as [Hr|He].
    + rewrite Hr. rewrite (decide_True (P := TimerId id = TimerId id)) by done.
      by destruct (decide _).
    + rewrite He. by rewrite decide_True.
  - intros id Hr He Hnr Hne.
    rewrite !lookup_insert_ne, !cancel_lookup by done.
    by rewrite !decide_False.
Qed.


(** The scenario of the spec: [autoRefreshBuffer] is 60000 and the id token
    expires 120000 ms from now. *)
Definition logged_in : state :=
  upd_profile (@parseParams demo_collaborators []) demo_instance.

Definition logged_in_armed : state := snd (dd_refreshToken logged_in).

Example renewal_scenario :
  now logged_in = 1000000
  /\ (exp <$> userinfo (profile logged_in)) = Some 1120
  /\ autoRefreshBuffer (config logged_in) = Some 60000
  /\ timeouts logged_in_armed = {| t_refresh := TimerId 1; t_expired := TimerId 2 |}
  /\ armed logged_in_armed !! 1%nat = Some (RefreshTick, 60000)
  /\ armed logged_in_armed !! 2%nat = Some (ExpiredTick, 120000).
Proof. vm_compute. repeat split. Qed.


(** ** Promise chains *)

Definition blank (o : origin) : promise :=
  {| p_origin := o; status := None; reactions := [] |}.

Definition with_reaction (r : reaction) (P : promise) : promise :=
  {| p_origin := p_origin P; status := None; reactions := reactions P ++ [r] |}.

Definition settled (o : outcome) (P : promise) : promise :=
  {| p_origin := p_origin P; status := Some o; reactions := [] |}.

Lemma react_pending (p : pid) (r : reaction) (P : promise) (s : state) :
  heap s !! p = Some P -> status P = None ->
  react p r s = upd_heap (insert p (with_reaction r P)) s.
Proof. intros Hp Hs. unfold react. by rewrite Hp, Hs. Qed.

Lemma react_settled (p : pid) (r : reaction) (P : promise) (o : outcome) (s : state) :
  heap s !! p = Some P -> status P = Some o ->
  react p r s = upd_queue (fun q => q ++ [Job r o]) s.
Proof. intros Hp Hs. unfold react. by rewrite Hp, Hs. Qed.

Lemma settle_pending (p : pid) (o : outcome) (P : promise) (s : state) :
  heap s !! p = Some P -> status P = None ->
  settle p o s
  = upd_queue (fun q => q ++ ((fun r => Job r o) <$> reactions P))
      (upd_heap (insert p (settled o P)) s).
Proof. intros Hp Hs. unfold settle. by rewrite Hp, Hs. Qed.

Lemma p_then_pending (t : pid) (f : callback) (T : promise) (s : state) :
  heap s !! t = Some T -> status T = None -> t ≠ next_pid s ->
  p_then t f s
  = (Ok (next_pid s),
     upd_heap (insert t (with_reaction (Then f (next_pid s)) T))
       (upd_next_pid S (upd_heap (insert (next_pid s) (blank Chained)) s))).
Proof.
  intros Ht Hs Hne. unfold p_then, new_promise. unfold_M. cbn.
  erewrite react_pending; [done| |done].
  cbn. by rewrite lookup_insert_ne.
Qed.

Lemma p_catch_pending (t : pid) (g : callback) (T : promise) (s : state) :
  heap s !! t = Some T -> status T = None -> t ≠ next_pid s ->
  p_catch t g s
  = (Ok (next_pid s),
     upd_heap (insert t (with_reaction (Catch g (next_pid s)) T))
       (upd_next_pid S (upd_heap (insert (next_pid s) (blank Chained)) s))).
Proof.
  intros Ht Hs Hne. unfold p_catch, new_promise. unfold_M. cbn.
  erewrite react_pending; [done| |done].
  cbn. by rewrite lookup_insert_ne.
Qed.

(** The pattern of every flow: open a transport, chain [then(f).catch(g)] on
    its promise and keep the last promise as the handle of the category. *)
Definition start_flow (k : transport) (u : url) (f g : callback)
    (set : option pid -> Promises -> Promises) : M pid :=
  t ← open_transport k u;
  d ← p_then t f;
  h ← p_catch d g;
  modify (upd_promises (set (Some h)));;
  mret h.

(** [s1] differs from [s] at most in the promises, the heap and the list of
    opened transports. *)
Definition flow_frame (s s1 : state) : Prop :=
  upd_promises (fun _ => promises s)
    (upd_opened (fun _ => opened s)
       (upd_heap (fun _ => heap s) (upd_next_pid (fun _ => next_pid s) s1))) = s.

Lemma start_flow_spec (k : transport) (u : url) (f g : callback)
    (set : option pid -> Promises -> Promises) (s : state) :
  let t := next_pid s in
  exists s1,
    start_flow k u f g set s = (Ok (S (S t)), s1)
    /\ heap s1 !! t
       = Some {| p_origin := FromTransport k; status := None;
                 reactions := [Then f (S t)] |}
    /\ heap s1 !! S t
       = Some {| p_origin := Chained; status := None;
                 reactions := [Catch g (S (S t))] |}
    /\ heap s1 !! S (S t) = Some (blank Chained)
    /\ (forall p, (p < t)%nat -> heap s1 !! p = heap s !! p)
    /\ next_pid s1 = S (S (S t))
    /\ promises s1 = set (Some (S (S t))) (promises s)
    /\ opened s1 = opened s ++ [(k, u)]
    /\ flow_frame s s1.
Proof.
  intros t. unfold start_flow, open_transport, new_promise. unfold_M. cbn.
  erewrite (p_then_pending t f (blank (FromTransport k)));
    [|by cbn; rewrite lookup_insert_eq|done|cbn; lia].
  cbn.
  erewrite (p_catch_pending (S t) g (blank Chained));
    [|by cbn; rewrite lookup_insert_ne, lookup_insert_eq by lia|done|cbn; lia].
  eexists. split; [reflexivity|]. cbn.
  split; [by rewrite !lookup_insert_ne, lookup_insert_eq by lia|].
  split; [by rewrite lookup_insert_eq|].
  split; [by rewrite lookup_insert_ne, lookup_insert_eq by lia|].
  split; [intros p Hp; by rewrite !lookup_insert_ne by lia|].
  repeat (split; [done|]). unfold flow_frame. by destruct s.
Qed.

(** ** Frames: what the engine primitives leave alone *)

Create Rewrite HintDb frame.

(** [react] and [settle] change the heap and the queue only. *)
Lemma react_frame (p : pid) (r : reaction) (s : state) :
  exists H Q, react p r s = upd_queue (fun _ => Q) (upd_heap (fun _ => H) s).
Proof.
  unfold react. destruct (heap s !! p) as [P|].
  - destruct (status P).
    + exists (heap s), (queue s ++ [Job r o]). by destruct s.
    + exists (<[p := {| p_origin := p_origin P; status := None;
                        reactions := reactions P ++ [r] |}]> (heap s)), (queue s).
      by destruct s.
  - exists (heap s), (queue s). by destruct s.
Qed.

Lemma settle_frame (p : pid) (o : outcome) (s : state) :
  exists H Q, settle p o s = upd_queue (fun _ => Q) (upd_heap (fun _ => H) s).
Proof.
  unfold settle. destruct (heap s !! p) as [P|].
  - destruct (status P).
    + exists (heap s), (queue s). by destruct s.
    + exists (<[p := {| p_origin := p_origin P; status := Some o;
                        reactions := [] |}]> (heap s)),
        (queue s ++ ((fun r => Job r o) <$> reactions P)).
      by destruct s.
  - exists (heap s), (queue s). by destruct s.
Qed.

Lemma resolve_frame (d : pid) (v : value) (s : state) :
  exists H Q, resolve d v s = upd_queue (fun _ => Q) (upd_heap (fun _ => H) s).
Proof. destruct v; first [apply settle_frame | apply react_frame]. Qed.

Lemma react_promises (p : pid) (r : reaction) (s : state) :
  promises (react p r s) = promises s.
Proof. by destruct (react_frame p r s) as (Hp & Q & ->). Qed.

Lemma react_timeouts (p : pid) (r : reaction) (s : state) :
  timeouts (react p r s) = timeouts s.
Proof. by destruct (react_frame p r s) as (Hp & Q & ->). Qed.

Lemma react_listeners (p : pid) (r : reaction) (s : state) :
  listeners (react p r s) = listeners s.
Proof. by destruct (react_frame p r s) as (Hp & Q & ->). Qed.

Lemma react_config (p : pid) (r : reaction) (s : state) :
  config (react p r s) = config s.
Proof. by destruct (react_frame p r s) as (Hp & Q & ->). Qed.

Lemma react_providers (p : pid) (r : reaction) (s : state) :
  providers (react p r s) = providers s.
Proof. by destruct (react_frame p r s) as (Hp & Q & ->). Qed.

Lemma react_profile (p : pid) (r : reaction) (s : state) :
  profile (react p r s) = profile s.
Proof. by destruct (react_frame p r s) as (Hp & Q & ->). Qed.

Lemma react_next_pid (p : pid) (r : reaction) (s : state) :
  next_pid (react p r s) = next_pid s.
Proof. by destruct (react_frame p r s) as (Hp & Q & ->). Qed.

Lemma react_armed (p : pid) (r : reaction) (s : state) :
  armed (react p r s) = armed s.
Proof. by destruct (react_frame p r s) as (Hp & Q & ->). Qed.

Lemma react_next_timer (p : pid) (r : reaction) (s : state) :
  next_timer (react p r s) = next_timer s.
Proof. by destruct (react_frame p r s) as (Hp & Q & ->). Qed.

Lemma react_now (p : pid) (r : reaction) (s : state) :
  now (react p r s) = now s.
Proof. by destruct (react_frame p r s) as (Hp & Q & ->). Qed.

Lemma react_uuid (p : pid) (r : reaction) (s : state) :
  uuid (react p r s) = uuid s.
Proof. by destruct (react_frame p r s) as (Hp & Q & ->). Qed.

Lemma react_href (p : pid) (r : reaction) (s : state) :
  href (react p r s) = href s.
Proof. by destruct (react_frame p r s) as (Hp & Q & ->). Qed.

Lemma react_captured (p : pid) (r : reaction) (s : state) :
  captured (react p r s) = captured s.
Proof. by destruct (react_frame p r s) as (Hp & Q & ->). Qed.

Lemma react_opened (p : pid) (r : reaction) (s : state) :
  opened (react p r s) = opened s.
Proof. by destruct (react_frame p r s) as (Hp & Q & ->). Qed.

Lemma react_dispatched (p : pid) (r : reaction) (s : state) :
  dispatched (react p r s) = dispatched s.
Proof. by destruct (react_frame p r s) as (Hp & Q & ->). Qed.

Lemma react_invoked (p : pid) (r : reaction) (s : state) :
  invoked (react p r s) = invoked s.
Proof. by destruct (react_frame p r s) as (Hp & Q & ->). Qed.

Lemma react_console (p : pid) (r : reaction) (s : state) :
  console (react p r s) = console s.
Proof. by destruct (react_frame p r s) as (Hp & Q & ->). Qed.

Lemma react_watching (p : pid) (r : reaction) (s : state) :
  watching (react p r s) = watching s.
Proof. by destruct (react_frame p r s) as (Hp & Q & ->). Qed.

#[global] Hint Rewrite react_promises react_timeouts react_listeners react_config react_providers react_profile react_next_pid react_armed react_next_timer react_now react_uuid react_href react_captured react_opened react_dispatched react_invoked react_console react_watching : frame.

Lemma settle_promises (p : pid) (o : outcome) (s : state) :
  promises (settle p o s) = promises s.
Proof. by destruct (settle_frame p o s) as (Hp & Q & ->). Qed.

Lemma settle_timeouts (p : pid) (o : outcome) (s : state) :
  timeouts (settle p o s) = timeouts s.
Proof. by destruct (settle_frame p o s) as (Hp & Q & ->). Qed.

Lemma settle_listeners (p : pid) (o : outcome) (s : state) :
  listeners (settle p o s) = listeners s.
Proof. by destruct (settle_frame p o s) as (Hp & Q & ->). Qed.

Lemma settle_config (p : pid) (o : outcome) (s : state) :
  config (settle p o s) = config s.
Proof. by destruct (settle_frame p o s) as (Hp & Q & ->). Qed.

Lemma settle_providers (p : pid) (o : outcome) (s : state) :
  providers (settle p o s) = providers s.
Proof. by destruct (settle_frame p o s) as (Hp & Q & ->). Qed.

Lemma settle_profile (p : pid) (o : outcome) (s : state) :
  profile (settle p o s) = profile s.
Proof. by destruct (settle_frame p o s) as (Hp & Q & ->). Qed.

Lemma settle_next_pid (p : pid) (o : outcome) (s : state) :
  next_pid (settle p o s) = next_pid s.
Proof. by destruct (settle_frame p o s) as (Hp & Q & ->). Qed.

Lemma settle_armed (p : pid) (o : outcome) (s : state) :
  armed (settle p o s) = armed s.
Proof. by destruct (settle_frame p o s) as (Hp & Q & ->). Qed.

Lemma settle_next_timer (p : pid) (o : outcome) (s : state) :
  next_timer (settle p o s) = next_timer s.
Proof. by destruct (settle_frame p o s) as (Hp & Q & ->). Qed.

Lemma settle_now (p : pid) (o : outcome) (s : state) :
  now (settle p o s) = now s.
Proof. by destruct (settle_frame p o s) as (Hp & Q & ->). Qed.

Lemma settle_uuid (p : pid) (o : outcome) (s : state) :
  uuid (settle p o s) = uuid s.
Proof. by destruct (settle_frame p o s) as (Hp & Q & ->). Qed.

Lemma settle_href (p : pid) (o : outcome) (s : state) :
  href (settle p o s) = href s.
Proof. by destruct (settle_frame p o s) as (Hp & Q & ->). Qed.

Lemma settle_captured (p : pid) (o : outcome) (s : state) :
  captured (settle p o s) = captured s.
Proof. by destruct (settle_frame p o s) as (Hp & Q & ->). Qed.

Lemma settle_opened (p : pid) (o : outcome) (s : state) :
  opened (settle p o s) = opened s.
Proof. by destruct (settle_frame p o s) as (Hp & Q & ->). Qed.

Lemma settle_dispatched (p : pid) (o : outcome) (s : state) :
  dispatched (settle p o s) = dispatched s.
Proof. by destruct (settle_frame p o s) as (Hp & Q & ->). Qed.

Lemma settle_invoked (p : pid) (o : outcome) (s : state) :
  invoked (settle p o s) = invoked s.
Proof. by destruct (settle_frame p o s) as (Hp & Q & ->). Qed.

Lemma settle_console (p : pid) (o : outcome) (s : state) :
  console (settle p o s) = console s.
Proof. by destruct (settle_frame p o s) as (Hp & Q & ->). Qed.

Lemma settle_watching (p : pid) (o : outcome) (s : state) :
  watching (settle p o s) = watching s.
Proof. by destruct (settle_frame p o s) as (Hp & Q & ->). Qed.

#[global] Hint Rewrite settle_promises settle_timeouts settle_listeners settle_config settle_providers settle_profile settle_next_pid settle_armed settle_next_timer settle_now settle_uuid settle_href settle_captured settle_opened settle_dispatched settle_invoked settle_console settle_watching : frame.

Lemma resolve_promises (d : pid) (v : value) (s : state) :
  promises (resolve d v s) = promises s.
Proof. by destruct (resolve_frame d v s) as (Hp & Q & ->). Qed.

Lemma resolve_timeouts (d : pid) (v : value) (s : state) :
  timeouts (resolve d v s) = timeouts s.
Proof. by destruct (resolve_frame d v s) as (Hp & Q & ->). Qed.

Lemma resolve_listeners (d : pid) (v : value) (s : state) :
  listeners (resolve d v s) = listeners s.
Proof. by destruct (resolve_frame d v s) as (Hp & Q & ->). Qed.

Lemma resolve_config (d : pid) (v : value) (s : state) :
  config (resolve d v s) = config s.
Proof. by destruct (resolve_frame d v s) as (Hp & Q & ->). Qed.

Lemma resolve_providers (d : pid) (v : value) (s : state) :
  providers (resolve d v s) = providers s.
Proof. by destruct (resolve_frame d v s) as (Hp & Q & ->). Qed.

Lemma resolve_profile (d : pid) (v : value) (s : state) :
  profile (resolve d v s) = profile s.
Proof. by destruct (resolve_frame d v s) as (Hp & Q & ->). Qed.

Lemma resolve_next_pid (d : pid) (v : value) (s : state) :
  next_pid (resolve d v s) = next_pid s.
Proof. by destruct (resolve_frame d v s) as (Hp & Q & ->). Qed.

Lemma resolve_armed (d : pid) (v : value) (s : state) :
  armed (resolve d v s) = armed s.
Proof. by destruct (resolve_frame d v s) as (Hp & Q & ->). Qed.

Lemma resolve_next_timer (d : pid) (v : value) (s : state) :
  next_timer (resolve d v s) = next_timer s.
Proof. by destruct (resolve_frame d v s) as (Hp & Q & ->). Qed.

Lemma resolve_now (d : pid) (v : value) (s : state) :
  now (resolve d v s) = now s.
Proof. by destruct (resolve_frame d v s) as (Hp & Q & ->). Qed.

Lemma resolve_uuid (d : pid) (v : value) (s : state) :
  uuid (resolve d v s) = uuid s.
Proof. by destruct (resolve_frame d v s) as (Hp & Q & ->). Qed.

Lemma resolve_href (d : pid) (v : value) (s : state) :
  href (resolve d v s) = href s.
Proof. by destruct (resolve_frame d v s) as (Hp & Q & ->). Qed.

Lemma resolve_captured (d : pid) (v : value) (s : state) :
  captured (resolve d v s) = captured s.
Proof. by destruct (resolve_frame d v s) as (Hp & Q & ->). Qed.

Lemma resolve_opened (d : pid) (v : value) (s : state) :
  opened (resolve d v s) = opened s.
Proof. by destruct (resolve_frame d v s) as (Hp & Q & ->). Qed.

Lemma resolve_dispatched (d : pid) (v : value) (s : state) :
  dispatched (resolve d v s) = dispatched s.
Proof. by destruct (resolve_frame d v s) as (Hp & Q & ->). Qed.

Lemma resolve_invoked (d : pid) (v : value) (s : state) :
  invoked (resolve d v s) = invoked s.
Proof. by destruct (resolve_frame d v s) as (Hp & Q & ->). Qed.

Lemma resolve_console (d : pid) (v : value) (s : state) :
  console (resolve d v s) = console s.
Proof. by destruct (resolve_frame d v s) as (Hp & Q & ->). Qed.

Lemma resolve_watching (d : pid) (v : value) (s : state) :
  watching (resolve d v s) = watching s.
Proof. by destruct (resolve_frame d v s) as (Hp & Q & ->). Qed.

#[global] Hint Rewrite resolve_promises resolve_timeouts resolve_listeners resolve_config resolve_providers resolve_profile resolve_next_pid resolve_armed resolve_next_timer resolve_now resolve_uuid resolve_href resolve_captured resolve_opened resolve_dispatched resolve_invoked resolve_console resolve_watching : frame.

(** ** Invariants along a method *)

Definition preserves {A} (I : state -> Prop) (m : M A) : Prop :=
  forall s, I s -> I (snd (m s)).

Lemma preserves_ret {A} (I : state -> Prop) (a : A) : preserves I (mret a).
Proof. by intros s. Qed.

Lemma preserves_throw {A} (I : state -> Prop) (e : value) : preserves I (@throw A e).
Proof. by intros s. Qed.

Lemma preserves_get {A} (I : state -> Prop) (f : state -> A) : preserves I (get f).
Proof. by intros s. Qed.

Lemma preserves_modify (I : state -> Prop) (f : state -> state) :
  (forall s, I s -> I (f s)) -> preserves I (modify f).
Proof. intros Hf s. apply Hf. Qed.

Lemma preserves_bind {A B} (I : state -> Prop) (m : M A) (k : A -> M B) :
  preserves I m -> (forall a, preserves I (k a)) -> preserves I (m ≫= k).
Proof.
  intros Hm Hk s Hs. unfold mbind, M_bind.
  specialize (Hm s Hs). destruct (m s) as [[a|e] s1]; cbn in *; [|done].
  by apply Hk.
Qed.

Lemma preserves_forEach {A} (I : state -> Prop) (f : A -> M unit) (l : list A) :
  (forall a, preserves I (f a)) -> preserves I (forEach f l).
Proof.
  intros Hf. induction l as [|a l IH]; cbn [forEach].
  - apply preserves_ret.
  - apply preserves_bind; [apply Hf|by intros _].
Qed.

Create HintDb pres.

#[global] Hint Resolve preserves_ret preserves_throw preserves_get : pres.

(** Walk down a method: the hints of [pres], then binds and branches; an
    update the invariant does not see is closed by conversion. *)
Ltac pres :=
  repeat first
    [ apply preserves_ret | apply preserves_throw | apply preserves_get
    | solve [eauto with pres]
    | apply preserves_bind; [|intros ?]
    | apply preserves_forEach; intros ?
    | match goal with
      | |- preserves _ (match ?x with _ => _ end) => destruct x
      | |- preserves _ (let '(_, _) := ?x in _) => destruct x
      | |- preserves _ (if ?x then _ else _) => destruct x
      end
    | apply preserves_modify; intros ? Hs; exact Hs
    | (intros ? Hs; exact Hs) ].

(** The engine leaves [I] alone when no change of the heap, of the next
    promise id or of the queue can break it. *)
Definition engine_blind (I : state -> Prop) : Prop :=
  forall s H n Q, I s ->
    I (upd_queue (fun _ => Q) (upd_next_pid (fun _ => n) (upd_heap (fun _ => H) s))).

Lemma engine_blind_react (I : state -> Prop) (p : pid) (r : reaction) :
  engine_blind I -> forall s, I s -> I (react p r s).
Proof.
  intros HI s Hs. destruct (react_frame p r s) as (Hh & Q & ->).
  specialize (HI s Hh (next_pid s) Q Hs). by destruct s.
Qed.

Lemma engine_blind_settle (I : state -> Prop) (p : pid) (o : outcome) :
  engine_blind I -> forall s, I s -> I (settle p o s).
Proof.
  intros HI s Hs. destruct (settle_frame p o s) as (Hh & Q & ->).
  specialize (HI s Hh (next_pid s) Q Hs). by destruct s.
Qed.

Lemma engine_blind_resolve (I : state -> Prop) (d : pid) (v : value) :
  engine_blind I -> forall s, I s -> I (resolve d v s).
Proof.
  intros HI s Hs. destruct (resolve_frame d v s) as (Hh & Q & ->).
  specialize (HI s Hh (next_pid s) Q Hs). by destruct s.
Qed.

Lemma engine_blind_new_promise (I : state -> Prop) (o : origin) (st : option outcome) :
  engine_blind I -> preserves I (new_promise o st).
Proof.
  intros HI s Hs. unfold new_promise. cbn.
  specialize (HI s (<[next_pid s := {| p_origin := o; status := st; reactions := [] |}]> (heap s))
                (S (next_pid s)) (queue s) Hs).
  by destruct s.
Qed.

Lemma engine_blind_p_then (I : state -> Prop) (p : pid) (f : callback) :
  engine_blind I -> preserves I (p_then p f).
Proof.
  intros HI. unfold p_then. apply preserves_bind.
  - by apply engine_blind_new_promise.
  - intros d. apply preserves_bind; [|intros; apply preserves_ret].
    apply preserves_modify. by apply engine_blind_react.
Qed.

Lemma engine_blind_p_catch (I : state -> Prop) (p : pid) (g : callback) :
  engine_blind I -> preserves I (p_catch p g).
Proof.
  intros HI. unfold p_catch. apply preserves_bind.
  - by apply engine_blind_new_promise.
  - intros d. apply preserves_bind; [|intros; apply preserves_ret].
    apply preserves_modify. by apply engine_blind_react.
Qed.

Lemma preserves_d_provider (I : state -> Prop) : preserves I d_provider.
Proof.
  intros s Hs. unfold d_provider.
  destruct (c_provider (config s)) as [|name|p]; try done.
  destruct (String.eqb name ""); [done|]. by destruct (providers s !! name).
Qed.

#[global] Hint Resolve engine_blind_new_promise engine_blind_p_then
  engine_blind_p_catch preserves_d_provider : pres.

(** A flow (login, logout, refresh, token retrieval) leaves [I] alone when,
    beside the engine, no change of the handles, the profile, the uuid
    source, the opened transports or the console can break it. *)
Definition flow_blind (I : state -> Prop) : Prop :=
  forall s H n Q pr pf u o c, I s ->
    I (upd_console (fun _ => c) (upd_opened (fun _ => o) (upd_uuid (fun _ => u)
        (upd_profile (fun _ => pf) (upd_promises (fun _ => pr)
           (upd_queue (fun _ => Q) (upd_next_pid (fun _ => n)
              (upd_heap (fun _ => H) s)))))))).

Lemma flow_blind_engine (I : state -> Prop) : flow_blind I -> engine_blind I.
Proof.
  intros HI s Hh n Q Hs.
  specialize (HI s Hh n Q (promises s) (profile s) (uuid s) (opened s) (console s) Hs).
  by destruct s.
Qed.

Lemma flow_blind_promises (I : state -> Prop) (f : Promises -> Promises) :
  flow_blind I -> preserves I (modify (upd_promises f)).
Proof.
  intros HI s Hs. cbn.
  specialize (HI s (heap s) (next_pid s) (queue s) (f (promises s)) (profile s)
                (uuid s) (opened s) (console s) Hs).
  by destruct s.
Qed.

Lemma flow_blind_profile (I : state -> Prop) (f : Profile -> Profile) :
  flow_blind I -> preserves I (modify (upd_profile f)).
Proof.
  intros HI s Hs. cbn.
  specialize (HI s (heap s) (next_pid s) (queue s) (promises s) (f (profile s))
                (uuid s) (opened s) (console s) Hs).
  by destruct s.
Qed.

Lemma flow_blind_opened (I : state -> Prop)
    (f : list (transport * url) -> list (transport * url)) :
  flow_blind I -> preserves I (modify (upd_opened f)).
Proof.
  intros HI s Hs. cbn.
  specialize (HI s (heap s) (next_pid s) (queue s) (promises s) (profile s)
                (uuid s) (f (opened s)) (console s) Hs).
  by destruct s.
Qed.

Lemma flow_blind_console (I : state -> Prop) (f : list value -> list value) :
  flow_blind I -> preserves I (modify (upd_console f)).
Proof.
  intros HI s Hs. cbn.
  specialize (HI s (heap s) (next_pid s) (queue s) (promises s) (profile s)
                (uuid s) (opened s) (f (console s)) Hs).
  by destruct s.
Qed.

Lemma flow_blind_correlation (I : state -> Prop) :
  flow_blind I -> preserves I fresh_correlation.
Proof.
  intros HI s Hs. cbn.
  specialize (HI s (heap s) (next_pid s) (queue s) (promises s)
                (with_correlation (uuid s) (S (uuid s)) (profile s))
                (S (S (uuid s))) (opened s) (console s) Hs).
  by destruct s.
Qed.

#[global] Hint Resolve flow_blind_engine flow_blind_promises flow_blind_profile
  flow_blind_opened flow_blind_console flow_blind_correlation : pres.

Section FlowFrames.
Variable I : state -> Prop.
Hypothesis blind : flow_blind I.

Lemma flow_blind_loginUrl (r : bool) : preserves I (d_loginUrl r).
Proof. unfold d_loginUrl, d_authorizeEndpoint. pres. Qed.

Lemma flow_blind_accessTokenUrl : preserves I d_accessTokenUrl.
Proof. unfold d_accessTokenUrl, d_authorizeEndpoint. pres. Qed.

Lemma flow_blind_deauthorizeUrl : preserves I d_deauthorizeUrl.
Proof. unfold d_deauthorizeUrl. pres. Qed.

Lemma flow_blind_open_transport (k : transport) (u : url) :
  preserves I (open_transport k u).
Proof. unfold open_transport. pres. Qed.

Hint Resolve flow_blind_loginUrl flow_blind_accessTokenUrl
  flow_blind_deauthorizeUrl flow_blind_open_transport : pres.

Lemma flow_blind_loginWithIframe (a : iframe_arg) : preserves I (loginWithIframe a).
Proof. unfold loginWithIframe, createIframe. pres. Qed.

Lemma flow_blind_loginWithPopup : preserves I loginWithPopup.
Proof. unfold loginWithPopup, login_with_window, openPopup. pres. Qed.

Lemma flow_blind_loginWithNewTab : preserves I loginWithNewTab.
Proof. unfold loginWithNewTab, login_with_window, openNewTab. pres. Qed.

Lemma flow_blind_loginWithRedirect (r : option string) :
  preserves I (loginWithRedirect r).
Proof. unfold loginWithRedirect, d_navigate. pres. Qed.

Lemma flow_blind_logout_with (k : transport) :
  preserves I (logout_with (open_transport k)).
Proof. unfold logout_with. pres. Qed.

Lemma flow_blind_logoutWithRedirect : preserves I logoutWithRedirect.
Proof. unfold logoutWithRedirect, d_navigate. pres. Qed.

Hint Resolve flow_blind_loginWithIframe flow_blind_loginWithRedirect : pres.

Lemma flow_blind_refreshToken : preserves I refreshToken.
Proof. unfold refreshToken. pres. Qed.

Lemma flow_blind_token_login : preserves I token_login.
Proof. unfold token_login, Promise_reject. pres. Qed.

Hint Resolve flow_blind_token_login : pres.

Lemma flow_blind_token_chain : preserves I token_chain.
Proof. unfold token_chain. pres. Qed.

Hint Resolve flow_blind_token_chain : pres.

Lemma flow_blind_retrieveAccessToken : preserves I retrieveAccessToken.
Proof. unfold retrieveAccessToken, Promise_resolve. pres. Qed.

End FlowFrames.

#[global] Hint Resolve flow_blind_loginUrl flow_blind_accessTokenUrl
  flow_blind_deauthorizeUrl flow_blind_open_transport
  flow_blind_loginWithIframe flow_blind_loginWithPopup
  flow_blind_loginWithNewTab flow_blind_loginWithRedirect
  flow_blind_logout_with flow_blind_logoutWithRedirect
  flow_blind_refreshToken flow_blind_token_login flow_blind_token_chain
  flow_blind_retrieveAccessToken : pres.

(** ** The refresh and expired timers *)

Definition timers_of (s : state) : Timeouts * gmap nat (timer_callback * Z) * nat :=
  (timeouts s, armed s, next_timer s).

Lemma timers_flow_blind (s0 : state) :
  flow_blind (fun s => timers_of s = timers_of s0).
Proof. intros s Hh n Q pr pf u o c Hs. exact Hs. Qed.

Lemma p_then_eq (p : pid) (f : callback) (s : state) :
  p_then p f s
  = (Ok (next_pid s),
     react p (Then f (next_pid s)) (snd (new_promise Chained None s))).
Proof. reflexivity. Qed.

Lemma p_catch_eq (p : pid) (g : callback) (s : state) :
  p_catch p g s
  = (Ok (next_pid s),
     react p (Catch g (next_pid s)) (snd (new_promise Chained None s))).
Proof. reflexivity. Qed.

(** The promise [refreshToken] returns is the refresh handle. *)
Lemma refreshToken_handle (s s1 : state) (p : pid) :
  refreshToken s = (Ok p, s1) -> refresh (promises s1) = Some p.
Proof.
  unfold refreshToken. unfold_M.
  destruct (refresh (promises s)) as [p0|] eqn:Hr.
  { intros [= <- <-]. done. }
  destruct (loginWithIframe (BoolArg true) s) as [[l|e] s']; [|done].
  rewrite p_then_eq, p_catch_eq. intros [= <- <-]. cbn.
  by autorewrite with frame.
Qed.


Arguments react : simpl never.
Arguments settle : simpl never.

Section RefreshTimer.
Context `{Collaborators}.

(** What the two timers do when they fire.  With automatic refresh enabled
    ([s_on], where [refreshToken] returns [p] and leaves [s1]): nothing is
    thrown, the refresh handle is [p], the timers are untouched, and [p] has
    a new reaction [catch(console.error)] that settles a fresh promise.  That
    reaction, run on a rejection [e] in any state [sj] where its promise [d]
    is pending, prints [e] and fulfils [d].  With automatic refresh disabled
    ([s_off]) the tick is [$fire('refresh')]: one event without error or
    data, no promise, no transport.  The expired tick is [$fire('expired')]
    in any state [s]. *)
Definition timer_ticks (s_on s1 s_off s sj : state) (p d : pid) (e : value) : Prop :=
  (let s2 := snd (run_timer RefreshTick s_on) in
   fst (run_timer RefreshTick s_on) = Ok tt
   /\ refresh (promises s2) = Some p
   /\ opened s2 = opened s1
   /\ timers_of s2 = timers_of s_on
   /\ heap s2 !! next_pid s1 = Some (blank Chained)
   /\ forall P, heap s1 !! p = Some P -> status P = None ->
        heap s2 !! p
        = Some (with_reaction (Catch ConsoleErrorCatch (next_pid s1)) P))
  /\ (let sj' := run_job (Job (Catch ConsoleErrorCatch d) (Rejected e)) sj in
      console sj' = console sj ++ [e]
      /\ heap sj' !! d = Some (settled (Fulfilled undefined) (blank Chained))
      /\ timers_of sj' = timers_of sj
      /\ promises sj' = promises sj)
  /\ (let s2 := snd (run_timer RefreshTick s_off) in
      run_timer RefreshTick s_off = d_fire "refresh" undefined undefined s_off
      /\ dispatched s2
         = dispatched s_off ++ [("salte-auth-refresh", undefined, undefined)]
      /\ opened s2 = opened s_off
      /\ promises s2 = promises s_off
      /\ heap s2 = heap s_off
      /\ next_pid s2 = next_pid s_off
      /\ queue s2 = queue s_off)
  /\ (let s2 := snd (run_timer ExpiredTick s) in
      run_timer ExpiredTick s = d_fire "expired" undefined undefined s
      /\ dispatched s2
         = dispatched s ++ [("salte-auth-expired", undefined, undefined)]).

(** C6: when the refresh timer fires with automatic refresh enabled,
    [refreshToken] is called and a handler is chained on its promise that
    reports a rejection on the console and fulfils, so nothing is thrown and
    the timers stay as they are; with automatic refresh disabled only the
    'refresh' event is fired, without error or data, and neither a promise
    nor a transport is created.  The expired timer fires 'expired' whatever
    the configuration. *)
Theorem refresh_timer_fires
    (s_on s1 s_off s sj : state) (p d : pid) (e : value) :
  autoRefresh (config s_on) = Some true ->
  refreshToken s_on = (Ok p, s1) ->
  (p < next_pid s1)%nat ->
  autoRefresh (config s_off) = Some false ->
  heap sj !! d = Some (blank Chained) ->
  timer_ticks s_on s1 s_off s sj p d e.
Proof.
  intros Hon Hrt Hp Hoff Hd. unfold timer_ticks. split; [|split; [|split]].
  - cbn [run_timer]. unfold_M. rewrite Hon. cbn. rewrite Hrt.
    rewrite p_catch_eq. cbn.
    split; [done|]. autorewrite with frame. cbn.
    split; [by apply refreshToken_handle in Hrt|]. split; [done|]. split.
    { pose proof (flow_blind_refreshToken _ (timers_flow_blind s_on) s_on eq_refl) as Ht.
      rewrite Hrt in Ht. cbn in Ht.
      unfold timers_of. autorewrite with frame. exact Ht. }
    split.
    { unfold react. cbn. rewrite lookup_insert_ne by lia.
      destruct (heap s1 !! p) as [P|]; cbn; [destruct (status P); cbn|];
        rewrite ?lookup_insert_ne by lia; by rewrite lookup_insert_eq. }
    intros P HP Hst.
    erewrite react_pending; [|by cbn; rewrite lookup_insert_ne by lia|done].
    cbn. by rewrite lookup_insert_eq.
  - cbn. unfold run_reaction. cbn [apply_callback]. unfold_M. cbn [resolve].
    erewrite settle_pending; [|by cbn|done]. cbn.
    by rewrite lookup_insert_eq.
  - cbn [run_timer]. unfold_M. rewrite Hoff. cbn.
    pose proof (d_fire_spec "refresh" undefined undefined s_off) as Hf.
    cbn in Hf. destruct Hf as (_ & _ & _ & Hpr & Hh & Hn & Hq & Ho & _ & _ & Hdi & _).
    done.
  - cbn [run_timer].
    pose proof (d_fire_spec "expired" undefined undefined s) as Hf.
    cbn in Hf. destruct Hf as (_ & _ & _ & _ & _ & _ & _ & _ & _ & _ & Hdi & _).
    done.
Qed.

End RefreshTimer.

(** A page whose config turns automatic refresh off. *)
Definition manual_config : Config :=
  {| providerUrl := "https://idp.example"; responseType := "id_token";
     c_provider := Named "hydra"; loginType := None;
     autoRefresh := Some false; autoRefreshBuffer := None;
     redirectLoginCallback := None |}.

Definition manual_instance : state :=
  match @constructor demo_collaborators demo_window (Some manual_config) with
  | (Ok this, _) => this
  | (Throw _, _) => fresh_instance demo_window manual_config
  end.

Lemma refresh_timer_fires_witness :
  @timer_ticks demo_collaborators
    logged_in_armed (snd (refreshToken logged_in_armed))
    manual_instance demo_instance
    (snd (@run_timer demo_collaborators RefreshTick logged_in_armed))
    4%nat 5%nat boom.
Proof.
  apply (@refresh_timer_fires demo_collaborators).
  - vm_compute. reflexivity.
  - assert (fst (refreshToken logged_in_armed) = Ok 4%nat) as Hr
      by (vm_compute; reflexivity).
    destruct (refreshToken logged_in_armed); cbn in *. by rewrite Hr.
  - vm_compute. lia.
  - vm_compute. reflexivity.
  - vm_compute. reflexivity.
Defined.

(** ** De-duplication of requests *)

(** The handle a request looks at before it starts a flow;
    [logoutWithRedirect], [on] and [off] look at none. *)
Definition category (a : api) : option (Promises -> option pid) :=
  match a with
  | LoginWithIframe _ | LoginWithPopup | LoginWithNewTab | LoginWithRedirect _ =>
      Some login
  | LogoutWithIframe | LogoutWithPopup | LogoutWithNewTab => Some logout
  | RefreshToken => Some refresh
  | RetrieveAccessToken => Some token
  | _ => None
  end.

(** While the category of a request is pending, the request returns the
    pending handle and touches neither the handles, the engine nor the
    transports. *)
Lemma pending_request_returns_handle
    (a : api) (c : Promises -> option pid) (h : pid) (s : state) :
  category a = Some c ->
  c (promises s) = Some h ->
  fst (call a s) = Ok (VPromise h)
  /\ opened (snd (call a s)) = opened s
  /\ promises (snd (call a s)) = promises s
  /\ heap (snd (call a s)) = heap s
  /\ next_pid (snd (call a s)) = next_pid s
  /\ queue (snd (call a s)) = queue s.
Proof.
  intros Hc Hh.
  destruct a; cbn in Hc; try discriminate; injection Hc as <-;
    cbn [call]; unfold returning, loginWithIframe, loginWithPopup,
      loginWithNewTab, login_with_window, loginWithRedirect,
      logoutWithIframe, logoutWithPopup, logoutWithNewTab, logout_with,
      refreshToken, retrieveAccessToken;
    unfold_M; cbn; try (rewrite Hh; cbn; done).
  destruct (redirectLoginCallback (config s)); cbn; rewrite Hh; cbn; done.
Qed.

(** Without a change of the console a pending request changes nothing. *)
Lemma pending_retrieveAccessToken (h : pid) (s : state) :
  token (promises s) = Some h -> retrieveAccessToken s = (Ok (VPromise h), s).
Proof. intros Hh. unfold retrieveAccessToken. unfold_M. by rewrite Hh. Qed.

Lemma pending_loginWithIframe (a : iframe_arg) (h : pid) (s : state) :
  login (promises s) = Some h -> loginWithIframe a s = (Ok h, s).
Proof. intros Hh. unfold loginWithIframe. unfold_M. by rewrite Hh. Qed.

(** ** Starting a flow *)

Lemma d_provider_state (s : state) : snd (d_provider s) = s.
Proof.
  unfold d_provider. destruct (c_provider (config s)) as [|name|p]; try done.
  destruct (String.eqb name ""); [done|]. by destruct (providers s !! name).
Qed.

(** What holds of the state [s1] a flow leaves when it starts in [s] with
    the handle [h]: the transport promise [t], the promise of [then(f)] and
    the handle, which is the promise of [catch(g)], are the next three
    promises; the rest of the heap, the queue and the other handles are as
    before; one transport was opened. *)
Record started (k : transport) (f g : callback)
    (set : option pid -> Promises -> Promises)
    (s : state) (h : pid) (s1 : state) : Prop := {
  st_handle : h = S (S (next_pid s));
  st_transport :
    heap s1 !! next_pid s
    = Some {| p_origin := FromTransport k; status := None;
              reactions := [Then f (S (next_pid s))] |};
  st_then :
    heap s1 !! S (next_pid s)
    = Some {| p_origin := Chained; status := None; reactions := [Catch g h] |};
  st_catch : heap s1 !! h = Some (blank Chained);
  st_old : forall p, (p < next_pid s)%nat -> heap s1 !! p = heap s !! p;
  st_next : next_pid s1 = S h;
  st_promises : promises s1 = set (Some h) (promises s);
  st_opened : exists u, opened s1 = opened s ++ [(k, u)];
  st_queue : queue s1 = queue s
}.

Lemma start_flow_started (k : transport) (u : url) (f g : callback)
    (set : option pid -> Promises -> Promises) (s0 s : state) (r : result pid) (s1 : state) :
  next_pid s = next_pid s0 -> heap s = heap s0 -> promises s = promises s0 ->
  opened s = opened s0 -> queue s = queue s0 ->
  start_flow k u f g set s = (r, s1) ->
  exists h, r = Ok h /\ started k f g set s0 h s1.
Proof.
  intros Hn Hh Hp Ho Hq Hs.
  destruct (start_flow_spec k u f g set s)
    as (s1' & Heq & Ht & Hd & Hc & Hold & Hnext & Hpr & Hop & Hfr).
  rewrite Heq in Hs. injection Hs as <- <-.
  exists (S (S (next_pid s))). split; [done|].
  rewrite Hn in *. split; try done.
  - intros p Hlt. rewrite <- Hh. apply Hold. lia.
  - by rewrite Hpr, Hp.
  - exists u. by rewrite Hop, Ho.
  - pose proof (f_equal queue Hfr) as Hq'. cbn in Hq'. congruence.
Qed.

(** The state [$loginUrl] and [$accessTokenUrl] leave: two fresh
    correlation values in the profile. *)
Definition correlated (s : state) : state := snd (fresh_correlation s).

Lemma d_loginUrl_state (b : bool) (s : state) :
  snd (d_loginUrl b s) = correlated s.
Proof.
  unfold d_loginUrl, d_authorizeEndpoint, correlated. unfold_M. cbn.
  match goal with |- context [d_provider ?y] =>
    pose proof (d_provider_state y) as Hpv; destruct (d_provider y) as [[pv|e] sp]
  end; cbn in *; by subst.
Qed.

Lemma d_accessTokenUrl_state (s : state) :
  snd (d_accessTokenUrl s) = correlated s.
Proof.
  unfold d_accessTokenUrl, d_authorizeEndpoint, correlated. unfold_M. cbn.
  match goal with |- context [d_provider ?y] =>
    pose proof (d_provider_state y) as Hpv; destruct (d_provider y) as [[pv|e] sp]
  end; cbn in *; by subst.
Qed.

(** The tail of the proofs below: a flow that starts after [$loginUrl]. *)
Ltac after_loginUrl Hs :=
  match type of Hs with
  | context [d_loginUrl ?b ?x] =>
      let Hu := fresh "Hu" in
      let Hsu := fresh "Hsu" in
      pose proof (d_loginUrl_state b x) as Hsu;
      destruct (d_loginUrl b x) as [[?u|?e] ?su] eqn:Hu; [|done];
      cbn [snd] in Hsu; subst
  end.

(** The three promise-returning login flows, when no login is pending. *)
Lemma login_with_window_started (k : transport) (s : state) (h : pid) (s1 : state) :
  login (promises s) = None ->
  login_with_window (open_transport k) s = (Ok h, s1) ->
  started k LoginWindowThen LoginWindowCatch set_login s h s1.
Proof.
  intros Hidle. unfold login_with_window. unfold_M. rewrite Hidle. cbn.
  intros Hs. after_loginUrl Hs;
    match type of Hs with
    | context [open_transport k ?u ?x] =>
        change (start_flow k u LoginWindowThen LoginWindowCatch set_login x
                = (Ok h, s1)) in Hs
    end;
    (eapply start_flow_started in Hs as (h' & [= <-] & Hst); [exact Hst|done..]).
Qed.

Lemma loginWithIframe_started (a : iframe_arg) (s : state) (h : pid) (s1 : state) :
  login (promises s) = None ->
  loginWithIframe a s = (Ok h, s1) ->
  started Iframe
    (LoginIframeThen (default true (events (iframe_config a))))
    (LoginIframeCatch (default true (events (iframe_config a))))
    set_login s h s1.
Proof.
  intros Hidle. unfold loginWithIframe, createIframe. unfold_M. rewrite Hidle.
  generalize (iframe_config a). intros c.
  destruct (clear c) as [[]|]; cbn; intros Hs; after_loginUrl Hs;
    match type of Hs with
    | context [open_transport Iframe ?u ?x] =>
        change (start_flow Iframe u (LoginIframeThen (default true (events c)))
                  (LoginIframeCatch (default true (events c))) set_login x
                = (Ok h, s1)) in Hs
    end;
    (eapply start_flow_started in Hs as (h' & [= <-] & Hst); [exact Hst|done..]).
Qed.

Lemma logout_with_started (k : transport) (s : state) (h : pid) (s1 : state) :
  logout (promises s) = None ->
  logout_with (open_transport k) s = (Ok h, s1) ->
  started k LogoutThen LogoutCatch set_logout s h s1
  /\ profile s1 = p_clear (profile s).
Proof.
  intros Hidle. unfold logout_with. unfold_M. rewrite Hidle.
  unfold d_deauthorizeUrl. unfold_M.
  pose proof (d_provider_state s) as Hpv.
  destruct (d_provider s) as [[pv|e] sp]; cbn in Hpv; subst sp; [|done].
  destruct (deauthorizeUrl pv) as [path|]; [|done]. cbn.
  intros Hs.
  match type of Hs with context [open_transport k ?u ?x] =>
    change (start_flow k u LogoutThen LogoutCatch set_logout x = (Ok h, s1)) in Hs;
    pose proof (start_flow_spec k u LogoutThen LogoutCatch set_logout x)
      as (s1' & Heq & _ & _ & _ & _ & _ & _ & _ & Hfr)
  end.
  split.
  - eapply start_flow_started in Hs as (h' & [= <-] & Hst); [exact Hst|done..].
  - rewrite Heq in Hs. injection Hs as _ <-.
    pose proof (f_equal profile Hfr) as Hp'. cbn in Hp'. done.
Qed.


(** [loginWithRedirect] when no login is pending: the handle is a promise
    nobody can settle, and the page navigates. *)
Lemma loginWithRedirect_started (r : option string) (s : state) (h : pid) (s1 : state) :
  login (promises s) = None ->
  loginWithRedirect r s = (Ok h, s1) ->
  h = next_pid s
  /\ heap s1 = <[h := blank NoExecutor]> (heap s)
  /\ next_pid s1 = S h
  /\ promises s1 = set_login (Some h) (promises s)
  /\ (exists u, opened s1 = opened s ++ [(Navigate, u)])
  /\ queue s1 = queue s.
Proof.
  intros Hidle. unfold loginWithRedirect, d_navigate, new_promise. unfold_M.
  destruct (redirectLoginCallback (config s)); cbn; rewrite Hidle; cbn;
    intros Hs; after_loginUrl Hs; injection Hs as <- <-;
    (split; [reflexivity|]); (split; [reflexivity|]); (split; [reflexivity|]);
    (split; [reflexivity|]); (split; [by eexists|reflexivity]).
Qed.


(** Chaining reactions and moving handles leaves [I] alone when, beside the
    engine, no change of the handles can break it. *)
Definition chain_blind (I : state -> Prop) : Prop :=
  forall s H n Q pr, I s ->
    I (upd_promises (fun _ => pr)
         (upd_queue (fun _ => Q) (upd_next_pid (fun _ => n)
            (upd_heap (fun _ => H) s)))).

Lemma chain_blind_engine (I : state -> Prop) : chain_blind I -> engine_blind I.
Proof.
  intros HI s Hh n Q Hs. specialize (HI s Hh n Q (promises s) Hs). by destruct s.
Qed.

Lemma chain_blind_promises (I : state -> Prop) (f : Promises -> Promises) :
  chain_blind I -> preserves I (modify (upd_promises f)).
Proof.
  intros HI s Hs. cbn.
  specialize (HI s (heap s) (next_pid s) (queue s) (f (promises s)) Hs).
  by destruct s.
Qed.

#[global] Hint Resolve chain_blind_engine chain_blind_promises : pres.

Lemma chain_blind_token_chain (I : state -> Prop) :
  chain_blind I -> preserves I token_chain.
Proof. intros HI. unfold token_chain. pres. Qed.

(** With a promise in the token handle, [token_chain] returns the promise it
    leaves in the handle. *)
Lemma token_chain_handle (t : pid) (s : state) :
  token (promises s) = Some t ->
  exists h,
    fst (token_chain s) = Ok (VPromise h)
    /\ token (promises (snd (token_chain s))) = Some h.
Proof.
  intros Ht. unfold token_chain. unfold_M. cbn.
  destruct (String.eqb (responseType (config s)) "code"); cbn.
  - rewrite Ht. rewrite p_then_eq. cbn. rewrite p_catch_eq. cbn. by eexists.
  - rewrite Ht. rewrite p_then_eq. cbn. autorewrite with frame. cbn.
    rewrite p_then_eq. cbn. rewrite p_catch_eq. cbn. by eexists.
Qed.

(** The login step of the first [retrieveAccessToken], when the login type
    is 'iframe' or 'redirect' and no login is pending: one transport is
    opened and the login handle becomes the token handle. *)
Lemma token_login_first (s : state) (r : result (option pid)) (s1 : state) :
  login (promises s) = None ->
  loginType (config s) = Some (VStr "iframe")
    \/ loginType (config s) = Some (VStr "redirect") ->
  token_login s = (r, s1) ->
  (exists e, r = Throw e)
  \/ exists hl k u sB,
       r = Ok None
       /\ s1 = upd_promises (set_token (Some hl)) sB
       /\ opened sB = opened s ++ [(k, u)].
Proof.
  intros Hlog Hlt. unfold token_login. unfold_M. cbn.
  destruct Hlt as [Hlt|Hlt]; rewrite Hlt.
  - rewrite decide_True by done.
    destruct (loginWithIframe NoArg s) as [[hl|e] sB] eqn:HB;
      intros [= <- <-]; [|by left; eexists].
    apply loginWithIframe_started in HB as [_ _ _ _ _ _ _ [u Hop] _]; [|done].
    right. by exists hl, Iframe, u, sB.
  - rewrite decide_False by done. rewrite decide_True by done.
    destruct (loginWithRedirect None s) as [[hl|e] sB] eqn:HB;
      intros [= <- <-]; [|by left; eexists].
    apply loginWithRedirect_started in HB as (_ & _ & _ & _ & [u Hop] & _); [|done].
    right. by exists hl, Navigate, u, sB.
Qed.

(** The first [retrieveAccessToken] when a login is needed and the login
    type is 'iframe' or 'redirect': one transport is opened and the promise
    returned is the token handle. *)
Lemma retrieveAccessToken_first (s : state) (v : value) (s1 : state) :
  token (promises s) = None ->
  login (promises s) = None ->
  must_login s = true ->
  loginType (config s) = Some (VStr "iframe")
    \/ loginType (config s) = Some (VStr "redirect") ->
  retrieveAccessToken s = (Ok v, s1) ->
  exists h k u,
    v = VPromise h
    /\ token (promises s1) = Some h
    /\ opened s1 = opened s ++ [(k, u)].
Proof.
  intros Htok Hlog Hmust Hlt.
  unfold retrieveAccessToken, Promise_resolve, new_promise. unfold_M.
  rewrite Htok. cbn. change (must_login _) with (must_login s). rewrite Hmust.
  set (sA := upd_promises (set_token (Some (next_pid s))) _).
  assert (login (promises sA) = None) as HlogA by done.
  assert (opened sA = opened s) as HoA by done.
  assert (loginType (config sA) = Some (VStr "iframe")
          \/ loginType (config sA) = Some (VStr "redirect")) as HltA by done.
  clearbody sA.
  destruct (token_login sA) as [r sT] eqn:HT.
  destruct (token_login_first sA r sT HlogA HltA HT)
    as [[e ->]|(hl & k & u & sB & -> & -> & Hop)]; [done|].
  set (sC := upd_promises (set_token (Some hl)) sB).
  destruct (token_chain_handle hl sC eq_refl) as (h & Hv & Hh).
  pose proof (chain_blind_token_chain (fun s' => opened s' = opened s ++ [(k, u)])
                (fun _ _ _ _ _ Hs => Hs) sC) as Ho.
  unfold preserves in Ho. cbn [snd] in Ho.
  destruct (token_chain sC) as [r s2]. cbn in Hv, Hh. subst r.
  intros [= <- <-]. exists h, k, u. split; [done|]. split; [done|].
  apply Ho. cbn. by rewrite Hop, HoA.
Qed.

Lemma d_deauthorizeUrl_state (s : state) : snd (d_deauthorizeUrl s) = s.
Proof.
  unfold d_deauthorizeUrl. unfold_M.
  pose proof (d_provider_state s) as Hpv.
  destruct (d_provider s) as [[pv|e] sp]; cbn in *; subst; [|done].
  by destruct (deauthorizeUrl pv).
Qed.

(** [logoutWithRedirect] looks at no handle: it navigates whenever the
    deauthorize URL can be built. *)
Lemma logoutWithRedirect_navigates (s : state) (u : url) :
  fst (d_deauthorizeUrl s) = Ok u ->
  opened (snd (logoutWithRedirect s)) = opened s ++ [(Navigate, u)].
Proof.
  intros Hu. unfold logoutWithRedirect, d_navigate. unfold_M.
  pose proof (d_deauthorizeUrl_state s) as Hs.
  destruct (d_deauthorizeUrl s) as [r s']. cbn in *. by subst.
Qed.

Section Coalescing.
Context `{Collaborators}.

Lemma repeated_retrieveAccessToken (h : pid) (n : nat) (s : state) :
  token (promises s) = Some h ->
  run (replicate n (Call RetrieveAccessToken)) s = s.
Proof.
  intros Hh. induction n as [|n IH]; [done|].
  cbn [replicate run foldl]. cbn [step call].
  rewrite (pending_retrieveAccessToken h) by done. exact IH.
Qed.

(** What coalescing amounts to.  A request [a] whose category is pending
    with handle [h] in [s] returns [h] and leaves handles, engine and
    transports alone.  The first [retrieveAccessToken] in [s0], which returns
    [v] and leaves [s1], has opened one transport, and [n] more calls change
    nothing and return the same promise.  [logoutWithRedirect] in [sr]
    navigates to [u]. *)
Definition coalesced (a : api) (h : pid) (s s0 s1 : state) (v : value)
    (n : nat) (sr : state) (u : url) : Prop :=
  (fst (call a s) = Ok (VPromise h)
   /\ opened (snd (call a s)) = opened s
   /\ promises (snd (call a s)) = promises s
   /\ heap (snd (call a s)) = heap s
   /\ next_pid (snd (call a s)) = next_pid s
   /\ queue (snd (call a s)) = queue s)
  /\ (exists h0 k u0,
        v = VPromise h0
        /\ token (promises s1) = Some h0
        /\ opened s1 = opened s0 ++ [(k, u0)]
        /\ run (replicate n (Call RetrieveAccessToken)) s1 = s1
        /\ retrieveAccessToken s1 = (Ok (VPromise h0), s1))
  /\ opened (snd (logoutWithRedirect sr)) = opened sr ++ [(Navigate, u)].

(** C1, as the code has it: a request of a category that keeps a handle
    (the four logins, logout by iframe, popup or new tab, refresh, token
    retrieval) returns the pending handle while the category is pending and
    starts nothing; concurrent calls of [retrieveAccessToken], when a login
    is needed, none is in flight and the login type is 'iframe' or
    'redirect', open one transport in all and return one promise.
    [logoutWithRedirect] keeps no handle and navigates on every call. *)
Theorem pending_requests_coalesce
    (a : api) (c : Promises -> option pid) (h : pid) (s s0 s1 : state)
    (v : value) (n : nat) (sr : state) (u : url) :
  category a = Some c ->
  c (promises s) = Some h ->
  token (promises s0) = None ->
  login (promises s0) = None ->
  must_login s0 = true ->
  loginType (config s0) = Some (VStr "iframe")
    \/ loginType (config s0) = Some (VStr "redirect") ->
  retrieveAccessToken s0 = (Ok v, s1) ->
  fst (d_deauthorizeUrl sr) = Ok u ->
  coalesced a h s s0 s1 v n sr u.
Proof.
  intros Hc Hh Htok Hlog Hmust Hlt Hfirst Hu. split; [|split].
  - by apply (pending_request_returns_handle a c).
  - destruct (retrieveAccessToken_first s0 v s1 Htok Hlog Hmust Hlt Hfirst)
      as (h0 & k & u0 & -> & Hh0 & Hop).
    exists h0, k, u0. split; [done|]. split; [done|]. split; [done|].
    split; [by apply (repeated_retrieveAccessToken h0)|].
    by apply pending_retrieveAccessToken.
  - by apply logoutWithRedirect_navigates.
Qed.

End Coalescing.

(** The demo page while a redirect login is in flight, and while a logout
    by iframe is in flight. *)
Definition redirecting : state := snd (loginWithRedirect None demo_instance).
Definition logging_out : state := snd (logoutWithIframe logged_in).

Lemma pending_requests_coalesce_witness :
  @coalesced demo_collaborators LoginWithPopup 0%nat redirecting
    demo_instance (snd (retrieveAccessToken demo_instance)) (VPromise 6%nat)
    3%nat logging_out (DeauthorizeUrl "https://idp.example/oauth2/sessions/logout").
Proof.
  apply (@pending_requests_coalesce demo_collaborators LoginWithPopup login).
  - reflexivity.
  - vm_compute. reflexivity.
  - vm_compute. reflexivity.
  - vm_compute. reflexivity.
  - vm_compute. reflexivity.
  - left. vm_compute. reflexivity.
  - assert (fst (retrieveAccessToken demo_instance) = Ok (VPromise 6%nat)) as Hr
      by (vm_compute; reflexivity).
    destruct (retrieveAccessToken demo_instance); cbn in *. by rewrite Hr.
  - vm_compute. reflexivity.
Defined.

(** C1 at concrete pages.  While a logout by iframe is pending,
    [logoutWithRedirect] is a second logout request that navigates.  With
    automatic login disabled, two calls of [retrieveAccessToken] that need a
    login open no transport at all and return two different promises. *)
Lemma requests_not_always_coalesced :
  (logout (promises logging_out) = Some 2%nat
   /\ opened logging_out
      = [(Iframe, DeauthorizeUrl "https://idp.example/oauth2/sessions/logout")]
   /\ opened (snd (logoutWithRedirect logging_out))
      = [(Iframe, DeauthorizeUrl "https://idp.example/oauth2/sessions/logout");
         (Navigate, DeauthorizeUrl "https://idp.example/oauth2/sessions/logout")])
  /\ (must_login disabled_instance = true
      /\ token (promises disabled_instance) = None
      /\ fst (retrieveAccessToken disabled_instance) = Ok (VPromise 1%nat)
      /\ fst (retrieveAccessToken (snd (retrieveAccessToken disabled_instance)))
         = Ok (VPromise 3%nat)
      /\ opened (snd (retrieveAccessToken (snd (retrieveAccessToken disabled_instance))))
         = []).
Proof. vm_compute. repeat split. Qed.

(** ** Running a chain of reactions *)

Definition not_promise (v : value) : Prop :=
  match v with VPromise _ => False | _ => True end.

Definition outcome_value (o : outcome) : value :=
  match o with Fulfilled v => v | Rejected e => e end.

Definition jobs (R : list reaction) (o : outcome) : list job :=
  (fun r => Job r o) <$> R.

(** [s'] is [s] up to the engine: heap, next promise id and queue. *)
Definition engine_eq (s s' : state) : Prop :=
  exists H n Q,
    s' = upd_queue (fun _ => Q) (upd_next_pid (fun _ => n) (upd_heap (fun _ => H) s)).

Lemma engine_eq_refl (s : state) : engine_eq s s.
Proof. exists (heap s), (next_pid s), (queue s). by destruct s. Qed.

Lemma engine_eq_trans (s1 s2 s3 : state) :
  engine_eq s1 s2 -> engine_eq s2 s3 -> engine_eq s1 s3.
Proof.
  intros (H1 & n1 & Q1 & ->) (H2 & n2 & Q2 & ->). by exists H2, n2, Q2.
Qed.

Lemma engine_eq_upd (s : state) H n Q :
  engine_eq s (upd_queue (fun _ => Q) (upd_next_pid (fun _ => n) (upd_heap (fun _ => H) s))).
Proof. by exists H, n, Q. Qed.

Lemma engine_eq_queue (s : state) (f : list job -> list job) :
  engine_eq s (upd_queue f s).
Proof. exists (heap s), (next_pid s), (f (queue s)). by destruct s. Qed.

Lemma engine_eq_settle (p : pid) (o : outcome) (s : state) : engine_eq s (settle p o s).
Proof.
  destruct (settle_frame p o s) as (Hh & Q & ->).
  exists Hh, (next_pid s), Q. by destruct s.
Qed.

Lemma engine_eq_react (p : pid) (r : reaction) (s : state) : engine_eq s (react p r s).
Proof.
  destruct (react_frame p r s) as (Hh & Q & ->).
  exists Hh, (next_pid s), Q. by destruct s.
Qed.

Lemma engine_eq_resolve (d : pid) (v : value) (s : state) : engine_eq s (resolve d v s).
Proof. destruct v; first [apply engine_eq_settle | apply engine_eq_react]. Qed.

(** Properties that do not look at the engine carry over. *)
Lemma engine_eq_blind (I : state -> Prop) (s s' : state) :
  engine_blind I -> engine_eq s s' -> I s -> I s'.
Proof. intros HI (Hh & n & Q & ->) Hs. by apply HI. Qed.

Lemma drain_step (n : nat) (j : job) (q : list job) (s : state) `{Collaborators} :
  queue s = j :: q ->
  drain (S n) s = drain n (run_job j (upd_queue (fun _ => q) s)).
Proof. intros Hq. cbn. unfold microtask. by rewrite Hq. Qed.

Lemma drain_done (n : nat) (s : state) `{Collaborators} :
  queue s = [] -> drain n s = s.
Proof. intros Hq. destruct n; cbn; by rewrite ?Hq. Qed.

Definition rejected_now (e : value) : promise :=
  {| p_origin := Immediate; status := Some (Rejected e); reactions := [] |}.

(** How a closure that starts no flow ends, from [s] to [s']: it returns a
    value that is no promise, or a promise it has just rejected, or it
    throws; in between it has left the engine alone. *)
Definition cb_result (s : state) (r : result value) (s' : state) : Prop :=
  queue s' = queue s
  /\ ((exists v, r = Ok v /\ not_promise v
               /\ heap s' = heap s /\ next_pid s' = next_pid s)
      \/ (exists e, r = Ok (VPromise (next_pid s))
               /\ heap s' = <[next_pid s := rejected_now e]> (heap s)
               /\ next_pid s' = S (next_pid s))
      \/ (exists e, r = Throw e /\ heap s' = heap s /\ next_pid s' = next_pid s)).

Lemma login_response_not_promise (p : Profile) :
  not_promise (js_or (p_code p) (p_userInfo p)).
Proof.
  unfold js_or, p_code, p_userInfo.
  destruct (code p), (userinfo p); cbn; by repeat case_match.
Qed.

Lemma p_accessToken_not_promise (p : Profile) : not_promise (p_accessToken p).
Proof. unfold p_accessToken. by destruct (accessToken p). Qed.

Lemma engine_eq_heap (s : state) (f : gmap nat promise -> gmap nat promise) :
  engine_eq s (upd_heap f s).
Proof. exists (f (heap s)), (next_pid s), (queue s). by destruct s. Qed.

Ltac engine_eq_solve :=
  repeat first
    [ apply engine_eq_refl
    | eapply engine_eq_trans; [|apply engine_eq_queue]
    | eapply engine_eq_trans; [|apply engine_eq_heap] ].

Section Chains.
Context `{Collaborators}.

(** After engine-neutral steps from [s] to [s0], firing an event and then
    returning [v]. *)
Lemma fire_then_return (s s0 : state) (kind : string) (error data v : value) :
  heap s0 = heap s -> next_pid s0 = next_pid s -> queue s0 = queue s ->
  not_promise v ->
  cb_result s
    (fst (let (r, s') := d_fire kind error data s0 in
          match r with Ok _ => (Ok v, s') | Throw e => (Throw e, s') end))
    (snd (let (r, s') := d_fire kind error data s0 in
          match r with Ok _ => (Ok v, s') | Throw e => (Throw e, s') end)).
Proof.
  intros Hh Hn Hq Hv.
  pose proof (d_fire_spec kind error data s0) as Hf. cbn in Hf.
  destruct (d_fire kind error data s0) as [r s']. cbn in Hf.
  destruct Hf as (-> & _ & _ & _ & Hh' & Hn' & Hq' & _).
  split; [by destruct (first_throw _ _ _); cbn; rewrite Hq', Hq|].
  destruct (first_throw _ _ _) as [e|]; cbn.
  - right; right. exists e. by rewrite Hh', Hn', Hh, Hn.
  - left. exists v. by rewrite Hh', Hn', Hh, Hn.
Qed.

Lemma reject_now (s s0 : state) (e : value) :
  heap s0 = heap s -> next_pid s0 = next_pid s -> queue s0 = queue s ->
  cb_result s (Ok (VPromise (next_pid s)))
    (upd_next_pid S (upd_heap (insert (next_pid s) (rejected_now e)) s0)).
Proof.
  intros Hh Hn Hq. split; [done|]. right; left. exists e. cbn. by rewrite Hh, Hn.
Qed.

Lemma fire_then_reject (s s0 : state) (kind : string) (error data e : value) :
  heap s0 = heap s -> next_pid s0 = next_pid s -> queue s0 = queue s ->
  cb_result s
    (fst (let (r, s') := d_fire kind error data s0 in
          match r with
          | Ok _ =>
              (Ok (VPromise (next_pid s')),
               upd_next_pid S (upd_heap (insert (next_pid s') (rejected_now e)) s'))
          | Throw e => (Throw e, s')
          end))
    (snd (let (r, s') := d_fire kind error data s0 in
          match r with
          | Ok _ =>
              (Ok (VPromise (next_pid s')),
               upd_next_pid S (upd_heap (insert (next_pid s') (rejected_now e)) s'))
          | Throw e => (Throw e, s')
          end)).
Proof.
  intros Hh Hn Hq.
  pose proof (d_fire_spec kind error data s0) as Hf. cbn in Hf.
  destruct (d_fire kind error data s0) as [r s']. cbn in Hf.
  destruct Hf as (-> & _ & _ & _ & Hh' & Hn' & Hq' & _).
  destruct (first_throw _ _ _) as [e'|]; cbn.
  - split; [by rewrite Hq', Hq|]. right; right. exists e'. by rewrite Hh', Hn', Hh, Hn.
  - rewrite Hn', Hn. apply reject_now; congruence.
Qed.

Lemma return_now (s s0 : state) (v : value) :
  heap s0 = heap s -> next_pid s0 = next_pid s -> queue s0 = queue s ->
  not_promise v ->
  cb_result s (Ok v) s0.
Proof. intros Hh Hn Hq Hv. split; [done|]. left. by exists v. Qed.

(** Unfold a closure down to the four endings above. *)
Ltac callback_ends :=
  unfold d_validate, d_parseParams, login_response, Promise_reject, new_promise;
  unfold_M; cbn;
  repeat match goal with
         | |- context [validate ?a ?b ?c] => destruct (validate a b c) as [[?e|] ?p']; cbn
         | |- context [if ?b then _ else _] => destruct b; cbn
         end;
  first [ apply reject_now; done
        | apply fire_then_reject; done
        | apply fire_then_return; first [done | apply login_response_not_promise]
        | apply return_now;
          first [done | apply login_response_not_promise
                | apply p_accessToken_not_promise] ].

(** The closures that hand the value they receive on. *)
Definition passes_value (cb : callback) : bool :=
  match cb with TokenDoneThen | RefreshThen => true | _ => false end.

(** A fulfilment value is never a promise. *)
Definition clean (o : outcome) : Prop :=
  match o with Fulfilled v => not_promise v | Rejected _ => True end.

Lemma apply_callback_result (cb : callback) (v : value) (s : state) :
  cb ≠ TokenRenewThen ->
  (passes_value cb = true -> not_promise v) ->
  cb_result s (fst (apply_callback cb v s)) (snd (apply_callback cb v s)).
Proof.
  intros Hcb Hv. destruct cb; try done; cbn [apply_callback];
    try specialize (Hv eq_refl).
  all: try callback_ends.
  unfold_M. cbn. destruct (t_refresh (timeouts s)); cbn; by apply return_now.
Qed.

Lemma resolve_value (d : pid) (v : value) (s : state) :
  not_promise v -> resolve d v s = settle d (Fulfilled v) s.
Proof. by destruct v. Qed.

(** One reaction, run alone: after at most one more microtask its promise
    [d] is settled and the reactions of [d] are the queue. *)
Lemma run_reaction_link (cb : callback) (d : pid) (v : value) (D : promise) (s : state) :
  queue s = [] ->
  heap s !! d = Some D -> status D = None -> (d < next_pid s)%nat ->
  cb ≠ TokenRenewThen -> (passes_value cb = true -> not_promise v) ->
  exists (k : nat) (o' : outcome) (s' : state),
    (forall n, drain (k + n) (run_reaction cb d v s) = drain n s')
    /\ (k <= 1)%nat
    /\ queue s' = jobs (reactions D) o'
    /\ heap s' !! d = Some (settled o' D)
    /\ (forall p, (p < next_pid s)%nat -> p ≠ d -> heap s' !! p = heap s !! p)
    /\ (next_pid s <= next_pid s')%nat
    /\ clean o'
    /\ engine_eq (snd (apply_callback cb v s)) s'.
Proof.
  intros Hq Hd HD Hlt Hcb Hv. unfold run_reaction.
  destruct (apply_callback_result cb v s Hcb Hv) as [Hqa Hres].
  destruct (apply_callback cb v s) as [r sa]. cbn [fst snd] in *.
  destruct Hres as [(v' & -> & Hv' & Hh & Hn)|[(e & -> & Hh & Hn)|(e & -> & Hh & Hn)]].
  - exists 0%nat, (Fulfilled v'). eexists. split; [intros n; reflexivity|].
    rewrite resolve_value by done.
    erewrite settle_pending; [|by rewrite Hh|done]. cbn.
    split; [lia|]. split; [by rewrite Hqa, Hq|].
    split; [by rewrite lookup_insert_eq|].
    split; [intros p Hp Hne; by rewrite lookup_insert_ne, Hh by done|].
    split; [lia|]. split; [done|].
    engine_eq_solve.
  - cbn [resolve].
    erewrite react_settled;
      [|by rewrite Hh, lookup_insert_eq|done].
    exists 1%nat, (Rejected e). eexists. split.
    { intros n. cbn [Nat.add].
      erewrite drain_step; [|by cbn; rewrite Hqa, Hq]. cbn [run_job].
      erewrite settle_pending;
        [|by cbn; rewrite Hh, lookup_insert_ne by lia|done].
      reflexivity. }
    cbn. split; [lia|]. split; [done|].
    split; [by rewrite lookup_insert_eq|].
    split; [intros p Hp Hne; by rewrite lookup_insert_ne, Hh, lookup_insert_ne by lia|].
    split; [lia|]. split; [done|].
    engine_eq_solve.
  - exists 0%nat, (Rejected e). eexists. split; [intros n; reflexivity|].
    erewrite settle_pending; [|by rewrite Hh|done]. cbn.
    split; [lia|]. split; [by rewrite Hqa, Hq|].
    split; [by rewrite lookup_insert_eq|].
    split; [intros p Hp Hne; by rewrite lookup_insert_ne, Hh by done|].
    split; [lia|]. split; [done|].
    engine_eq_solve.
Qed.

Definition target (r : reaction) : pid :=
  match r with Then _ d | Catch _ d | Adopt d => d end.

(** The closure a job runs; none when the job only passes the outcome on. *)
Definition runs (r : reaction) (o : outcome) : option callback :=
  match r, o with
  | Then f _, Fulfilled _ => Some f
  | Catch g _, Rejected _ => Some g
  | _, _ => None
  end.

(** One job, alone in the queue: after at most two microtasks the promise
    it settles is settled and the reactions of that promise are the queue;
    beside the engine the state is the one its closure leaves, if it runs
    one, and the state before otherwise. *)
Lemma job_link (r : reaction) (o : outcome) (D : promise) (s : state) :
  queue s = [Job r o] ->
  heap s !! target r = Some D -> status D = None ->
  (target r < next_pid s)%nat ->
  (forall cb, runs r o = Some cb ->
     cb ≠ TokenRenewThen
     /\ (passes_value cb = true -> not_promise (outcome_value o))) ->
  clean o ->
  exists (k : nat) (o' : outcome) (s' sa : state),
    (forall n, drain (S k + n) s = drain n s')
    /\ (k <= 1)%nat
    /\ queue s' = jobs (reactions D) o'
    /\ heap s' !! target r = Some (settled o' D)
    /\ (forall p, (p < next_pid s)%nat -> p ≠ target r -> heap s' !! p = heap s !! p)
    /\ (next_pid s <= next_pid s')%nat
    /\ clean o'
    /\ engine_eq sa s'
    /\ match runs r o with
       | Some cb =>
           sa = snd (apply_callback cb (outcome_value o) (upd_queue (fun _ => []) s))
       | None => sa = s /\ o' = o
       end.
Proof.
  intros Hq Hd HD Hlt Hruns Hclean.
  set (s0 := upd_queue (fun _ => []) s).
  assert (forall n, drain (S n) s = drain n (run_job (Job r o) s0)) as Hstep
    by (intros n; by apply drain_step).
  assert (forall o0,
            exists s',
              settle (target r) o0 s0 = s'
              /\ queue s' = jobs (reactions D) o0
              /\ heap s' !! target r = Some (settled o0 D)
              /\ (forall p, (p < next_pid s)%nat -> p ≠ target r ->
                    heap s' !! p = heap s !! p)
              /\ (next_pid s <= next_pid s')%nat
              /\ engine_eq s s') as Hpass.
  { intros o0. eexists. split; [reflexivity|].
    erewrite settle_pending; [|exact Hd|done]. cbn.
    split; [done|]. split; [by rewrite lookup_insert_eq|].
    split; [intros p Hp Hne; by rewrite lookup_insert_ne|].
    split; [lia|]. unfold s0. engine_eq_solve. }
  assert (forall cb v, runs r o = Some cb -> v = outcome_value o ->
            exists (k : nat) (o' : outcome) (s' : state),
              (forall n, drain (k + n) (run_reaction cb (target r) v s0) = drain n s')
              /\ (k <= 1)%nat
              /\ queue s' = jobs (reactions D) o'
              /\ heap s' !! target r = Some (settled o' D)
              /\ (forall p, (p < next_pid s)%nat -> p ≠ target r ->
                    heap s' !! p = heap s !! p)
              /\ (next_pid s <= next_pid s')%nat
              /\ clean o'
              /\ engine_eq (snd (apply_callback cb v s0)) s') as Hrun.
  { intros cb v Hcb ->. destruct (Hruns cb Hcb) as [Hne Hpv].
    apply (run_reaction_link cb (target r) (outcome_value o) D s0); done. }
  destruct r as [f d|g d|d], o as [v|e]; cbn [target runs outcome_value] in *.
  - destruct (Hrun f v eq_refl eq_refl) as (k & o' & s' & Hdr & Hk & Hrest).
    exists k, o', s', (snd (apply_callback f v s0)).
    split; [intros n; cbn [Nat.add]; rewrite Hstep; apply Hdr|]. split; [done|].
    destruct Hrest as (? & ? & ? & ? & ? & ?). done.
  - destruct (Hpass (Rejected e)) as (s' & Hs' & ? & ? & ? & ? & ?).
    exists 0%nat, (Rejected e), s', s.
    split; [intros n; cbn [Nat.add]; rewrite Hstep; cbn [run_job]; by rewrite Hs'|].
    split; [lia|]. done.
  - destruct (Hpass (Fulfilled v)) as (s' & Hs' & ? & ? & ? & ? & ?).
    exists 0%nat, (Fulfilled v), s', s.
    split; [intros n; cbn [Nat.add]; rewrite Hstep; cbn [run_job]; by rewrite Hs'|].
    split; [lia|]. done.
  - destruct (Hrun g e eq_refl eq_refl) as (k & o' & s' & Hdr & Hk & Hrest).
    exists k, o', s', (snd (apply_callback g e s0)).
    split; [intros n; cbn [Nat.add]; rewrite Hstep; apply Hdr|]. split; [done|].
    destruct Hrest as (? & ? & ? & ? & ? & ?). done.
  - destruct (Hpass (Fulfilled v)) as (s' & Hs' & ? & ? & ? & ? & ?).
    exists 0%nat, (Fulfilled v), s', s.
    split; [intros n; cbn [Nat.add]; rewrite Hstep; cbn [run_job]; by rewrite Hs'|].
    split; [lia|]. done.
  - destruct (Hpass (Rejected e)) as (s' & Hs' & ? & ? & ? & ? & ?).
    exists 0%nat, (Rejected e), s', s.
    split; [intros n; cbn [Nat.add]; rewrite Hstep; cbn [run_job]; by rewrite Hs'|].
    split; [lia|]. done.
Qed.
End Chains.

Section Walk.
Context `{Collaborators}.

(** A pair [then(f).catch(g)] run alone: the job of [f] is the queue, the
    promise [d] of [then] carries the reaction of [g], whose promise is [h].
    After at most four microtasks [h] is settled and its reactions are the
    queue.  One of the two closures ran last, [cb] on [x] in [sb]; beside the
    engine the state is the one it left, and [sb] is the state before or,
    when [g] ran after [f], the state [f] left. *)
Lemma pair_walk (f g : callback) (d h : pid) (o : outcome) (Hc : promise) (s : state) :
  queue s = [Job (Then f d) o] ->
  heap s !! d = Some {| p_origin := Chained; status := None;
                        reactions := [Catch g h] |} ->
  heap s !! h = Some Hc -> status Hc = None ->
  d ≠ h -> (d < next_pid s)%nat -> (h < next_pid s)%nat ->
  f ≠ TokenRenewThen -> g ≠ TokenRenewThen -> passes_value g = false ->
  clean o ->
  exists (k : nat) (o' : outcome) (s' sb : state) (x : value) (cb : callback),
    (forall n, drain (k + n) s = drain n s')
    /\ (k <= 4)%nat
    /\ queue s' = jobs (reactions Hc) o'
    /\ heap s' !! h = Some (settled o' Hc)
    /\ (forall p, (p < next_pid s)%nat -> p ≠ d -> p ≠ h -> heap s' !! p = heap s !! p)
    /\ (next_pid s <= next_pid s')%nat
    /\ clean o'
    /\ (cb = f \/ cb = g)
    /\ engine_eq (snd (apply_callback cb x sb)) s'
    /\ (engine_eq s sb
        \/ exists v sb0,
             cb = g /\ engine_eq s sb0
             /\ engine_eq (snd (apply_callback f v sb0)) sb).
Proof.
  intros Hq Hd Hh Hst Hne Hdlt Hhlt Hf Hg Hpg Hclean.
  destruct (job_link (Then f d) o _ s Hq Hd eq_refl Hdlt)
    as (k1 & o1 & s1 & sa1 & Hdr1 & Hk1 & Hq1 & Hd1 & Hold1 & Hn1 & Hc1 & He1 & Hran1).
  { intros cb Hcb. destruct o as [v|e]; cbn in Hcb; [|done].
    injection Hcb as <-. split; [done|]. by intros _. }
  { done. }
  cbn [target reactions jobs fmap list_fmap] in *.
  assert (heap s1 !! h = Some Hc) as Hh1 by (rewrite Hold1; [done|lia|done]).
  destruct (job_link (Catch g h) o1 Hc s1 Hq1 Hh1 Hst)
    as (k2 & o2 & s2 & sa2 & Hdr2 & Hk2 & Hq2 & Hd2 & Hold2 & Hn2 & Hc2 & He2 & Hran2).
  { cbn. lia. }
  { intros cb Hcb. destruct o1 as [v|e]; cbn in Hcb; [done|].
    injection Hcb as <-. split; [done|]. by rewrite Hpg. }
  { done. }
  cbn [target] in *.
  assert (forall n, drain (S k1 + S k2 + n) s = drain n s2) as Hdr.
  { intros n. rewrite <- Nat.add_assoc, Hdr1. apply Hdr2. }
  assert (forall p, (p < next_pid s)%nat -> p ≠ d -> p ≠ h ->
            heap s2 !! p = heap s !! p) as Hold.
  { intros p Hp Hpd Hph. rewrite Hold2, Hold1; [done..|lia|done]. }
  destruct o as [v|e]; cbn [runs outcome_value] in Hran1.
  - (* [f] runs *)
    destruct o1 as [v1|e1]; cbn [runs outcome_value] in Hran2.
    + destruct Hran2 as [-> ->].
      exists (S k1 + S k2)%nat, (Fulfilled v1), s2, (upd_queue (fun _ => []) s), v, f.
      split; [done|]. split; [lia|]. split; [done|]. split; [done|].
      split; [done|]. split; [lia|]. split; [done|]. split; [by left|].
      split; [subst sa1; by eapply engine_eq_trans|].
      left. apply engine_eq_queue.
    + exists (S k1 + S k2)%nat, o2, s2, (upd_queue (fun _ => []) s1), e1, g.
      split; [done|]. split; [lia|]. split; [done|]. split; [done|].
      split; [done|]. split; [lia|]. split; [done|]. split; [by right|].
      split; [by subst sa2|].
      right. exists v, (upd_queue (fun _ => []) s).
      split; [done|]. split; [apply engine_eq_queue|].
      subst sa1. eapply engine_eq_trans; [exact He1|apply engine_eq_queue].
  - (* [f] is passed over, [g] runs *)
    destruct Hran1 as [-> ->]. cbn [runs outcome_value] in Hran2.
    exists (S k1 + S k2)%nat, o2, s2, (upd_queue (fun _ => []) s1), e, g.
    split; [done|]. split; [lia|]. split; [done|]. split; [done|].
    split; [done|]. split; [lia|]. split; [done|]. split; [by right|].
    split; [by subst sa2|].
    left. eapply engine_eq_trans; [exact He1|apply engine_eq_queue].
Qed.

End Walk.

(** ** Handles are cleared when the flow settles *)

Inductive kind := Login | Logout | Refresh | Token.

Definition handle (c : kind) (p : Promises) : option pid :=
  match c with
  | Login => login p
  | Logout => logout p
  | Refresh => refresh p
  | Token => token p
  end.

(** The handle a closure sets to [null]. *)
Definition clears (cb : callback) : option kind :=
  match cb with
  | LoginIframeThen _ | LoginIframeCatch _ | LoginWindowThen | LoginWindowCatch =>
      Some Login
  | LogoutThen | LogoutCatch => Some Logout
  | RefreshThen | RefreshCatch => Some Refresh
  | TokenDoneThen | TokenDoneCatch => Some Token
  | _ => None
  end.

(** No handle becomes pending: each one is idle or as it was in [s0]. *)
Definition no_new_handle (s0 s : state) : Prop :=
  forall c, handle c (promises s) = None
            \/ handle c (promises s) = handle c (promises s0).

Lemma no_new_handle_engine (s0 : state) : engine_blind (no_new_handle s0).
Proof. intros s Hh n Q Hs. exact Hs. Qed.

Lemma no_new_handle_refl (s : state) : no_new_handle s s.
Proof. intros c. by right. Qed.

Lemma no_new_handle_trans (s0 s1 s2 : state) :
  no_new_handle s0 s1 -> no_new_handle s1 s2 -> no_new_handle s0 s2.
Proof.
  intros H01 H12 c. destruct (H12 c) as [?|Heq]; [by left|].
  rewrite Heq. apply H01.
Qed.

Lemma establishes_bind {A B} (I : state -> Prop) (m : M A) (k : A -> M B) :
  (forall s, I (snd (m s))) -> (forall a, preserves I (k a)) ->
  forall s, I (snd ((m ≫= k) s)).
Proof.
  intros Hm Hk s. unfold mbind, M_bind. specialize (Hm s).
  destruct (m s) as [[a|e] s1]; cbn in *; [|done]. by apply Hk.
Qed.

(** [I] looks at the handles only. *)
Definition handles_only (I : state -> Prop) : Prop :=
  forall s s', promises s' = promises s -> I s -> I s'.

Lemma handles_only_engine (I : state -> Prop) : handles_only I -> engine_blind I.
Proof. intros HI s Hh n Q. by apply HI. Qed.

Lemma handles_only_fire (I : state -> Prop) (kind : string) (error data : value) :
  handles_only I -> preserves I (d_fire kind error data).
Proof.
  intros HI s. apply HI.
  pose proof (d_fire_spec kind error data s) as Hf. cbn in Hf. tauto.
Qed.

Lemma handles_only_clearTimeout (I : state -> Prop) (x : slot) :
  handles_only I -> preserves I (clearTimeout x).
Proof. intros HI s. apply HI. by destruct x. Qed.

Lemma handles_only_modify (I : state -> Prop) (f : state -> state) :
  handles_only I -> (forall s, promises (f s) = promises s) ->
  preserves I (modify f).
Proof. intros HI Hf s. apply HI. apply Hf. Qed.

Lemma handles_only_correlation (I : state -> Prop) :
  handles_only I -> preserves I fresh_correlation.
Proof. intros HI s. by apply HI. Qed.

#[global] Hint Resolve handles_only_engine handles_only_fire
  handles_only_clearTimeout handles_only_correlation : pres.

Section Cleared.
Context `{Collaborators}.

Lemma handles_only_validate (I : state -> Prop) (refresh : bool) :
  handles_only I -> preserves I (d_validate refresh).
Proof.
  intros HI s. apply HI. unfold d_validate. by destruct (validate _ _ _).
Qed.

Lemma handles_only_parseParams (I : state -> Prop) :
  handles_only I -> preserves I d_parseParams.
Proof. intros HI s. by apply HI. Qed.

Hint Resolve handles_only_validate handles_only_parseParams : pres.

(** A closure keeps what holds of the handles, when clearing a handle keeps
    it. *)
Lemma handles_only_callback (I : state -> Prop) (cb : callback) (v : value) :
  handles_only I ->
  (forall s c, I s -> I (upd_promises (match c with
                                       | Login => set_login None
                                       | Logout => set_logout None
                                       | Refresh => set_refresh None
                                       | Token => set_token None
                                       end) s)) ->
  preserves I (apply_callback cb v).
Proof.
  intros HI Hset.
  assert (forall f : state -> state,
            (forall s, promises (f s) = promises s) -> preserves I (modify f)) as Hmod
    by (intros; by apply handles_only_modify).
  destruct cb; cbn [apply_callback];
    unfold login_response, Promise_reject, d_accessTokenUrl, d_authorizeEndpoint,
      createIframe, open_transport.
  all: repeat first
    [ apply preserves_ret | apply preserves_throw | apply preserves_get
    | solve [eauto with pres]
    | apply preserves_bind; [|intros ?]
    | match goal with
      | |- preserves _ (match ?x with _ => _ end) => destruct x
      | |- preserves _ (if ?x then _ else _) => destruct x
      | |- preserves _ (modify (upd_promises (set_login None))) =>
          intros ? ?; by apply (Hset _ Login)
      | |- preserves _ (modify (upd_promises (set_logout None))) =>
          intros ? ?; by apply (Hset _ Logout)
      | |- preserves _ (modify (upd_promises (set_refresh None))) =>
          intros ? ?; by apply (Hset _ Refresh)
      | |- preserves _ (modify (upd_promises (set_token None))) =>
          intros ? ?; by apply (Hset _ Token)
      | |- preserves _ (modify _) => apply Hmod; intros; reflexivity
      end ].
Qed.

(** What a closure does to the handles: the one it clears is idle after it,
    and it makes none pending. *)
Lemma apply_callback_handles (cb : callback) (v : value) (s : state) :
  (forall c, clears cb = Some c ->
     handle c (promises (snd (apply_callback cb v s))) = None)
  /\ no_new_handle s (snd (apply_callback cb v s)).
Proof.
  split.
  - intros c Hc.
    assert (handles_only (fun s' => handle c (promises s') = None)) as HI
      by (intros s1 s2 Hp; by rewrite Hp).
    assert (forall s1 c', handle c (promises s1) = None ->
              handle c (promises (upd_promises
                (match c' with
                 | Login => set_login None | Logout => set_logout None
                 | Refresh => set_refresh None | Token => set_token None
                 end) s1)) = None) as Hset
      by (intros s1 c' Hs1; destruct c, c'; done).
    assert (forall f : state -> state,
              (forall s, promises (f s) = promises s) ->
              preserves (fun s' => handle c (promises s') = None) (modify f)) as Hmod
      by (intros; by apply handles_only_modify).
    destruct cb; cbn in Hc; try discriminate; injection Hc as <-;
      cbn [apply_callback]; apply establishes_bind; try (intros; reflexivity);
      intros _; unfold login_response, Promise_reject.
    all: repeat first
      [ apply preserves_ret | apply preserves_throw | apply preserves_get
      | solve [eauto with pres]
      | apply preserves_bind; [|intros ?]
      | match goal with
        | |- preserves _ (match ?x with _ => _ end) => destruct x
        | |- preserves _ (if ?x then _ else _) => destruct x
        | |- preserves _ (modify (upd_promises (set_refresh None))) =>
            intros ? ?; reflexivity
        | |- preserves _ (modify _) => apply Hmod; intros; reflexivity
        end ].
  - apply (handles_only_callback (no_new_handle s) cb v).
    + intros s1 s2 Hp Hs1 c. rewrite Hp. apply Hs1.
    + intros s1 c Hs1 c'. specialize (Hs1 c').
      destruct c, c'; cbn in *; tauto.
    + intros c. by right.
Qed.

End Cleared.

(** ** Flows that settle *)

#[global] Instance kind_eq_dec : EqDecision kind.
Proof. solve_decision. Defined.

(** Look a promise up in a heap that was extended. *)
Ltac heap_lookup :=
  repeat first [rewrite lookup_insert_eq | rewrite lookup_insert_ne by lia].

Section Settling.
Context `{Collaborators}.

(** A transport that lands on a pending transport promise. *)
Lemma transport_settles (t : pid) (k : transport) (R : list reaction)
    (o : outcome) (params : list (string * string)) (s : state) :
  heap s !! t = Some {| p_origin := FromTransport k; status := None; reactions := R |} ->
  let s' := task (TransportSettles t o params) s in
  queue s' = queue s ++ jobs R o
  /\ (forall p, p ≠ t -> heap s' !! p = heap s !! p)
  /\ next_pid s' = next_pid s
  /\ engine_eq (land k o params s) s'.
Proof.
  intros Ht. cbn [task]. rewrite Ht.
  split; [|split; [|split]]; [..|apply engine_eq_settle].
  all: erewrite settle_pending; [|by destruct k, o|done].
  all: destruct k, o; cbn; try done; intros p Hp; by rewrite lookup_insert_ne.
Qed.

(** What holds through the closures and through a transport that lands,
    and does not look at the engine. *)
Definition kept (I : state -> Prop) : Prop :=
  engine_blind I
  /\ (forall cb v, preserves I (apply_callback cb v))
  /\ (forall k o params s, I s -> I (land k o params s)).

Lemma kept_idle (c : kind) : kept (fun s => handle c (promises s) = None).
Proof.
  split; [by intros s Hh n Q|]. split.
  - intros cb v. apply handles_only_callback.
    + intros s s' Hp. by rewrite Hp.
    + intros s c' Hs. by destruct c, c'.
  - intros k o params s Hs. by destruct k, o.
Qed.

(** A pair [then(f).catch(g)] of closures that clear the handle of [c], run
    alone: after at most four microtasks the promise [h] of [catch] is
    settled, its reactions are the queue and the handle of [c] is idle. *)
Lemma pair_clears (f g : callback) (c : kind) (d h : pid) (o : outcome)
    (Hc : promise) (s : state) :
  queue s = [Job (Then f d) o] ->
  heap s !! d = Some {| p_origin := Chained; status := None;
                        reactions := [Catch g h] |} ->
  heap s !! h = Some Hc -> status Hc = None ->
  d ≠ h -> (d < next_pid s)%nat -> (h < next_pid s)%nat ->
  clears f = Some c -> clears g = Some c -> passes_value g = false ->
  clean o ->
  exists (k : nat) (o' : outcome) (s' : state),
    (forall n, drain (k + n) s = drain n s')
    /\ queue s' = jobs (reactions Hc) o'
    /\ heap s' !! h = Some (settled o' Hc)
    /\ (forall p, (p < next_pid s)%nat -> p ≠ d -> p ≠ h -> heap s' !! p = heap s !! p)
    /\ (next_pid s <= next_pid s')%nat
    /\ clean o'
    /\ handle c (promises s') = None
    /\ (forall I, kept I -> I s -> I s').
Proof.
  intros Hq Hd Hh Hst Hne Hdlt Hhlt Hf Hg Hpg Hclean.
  assert (f ≠ TokenRenewThen) as Hfs by (by destruct f).
  assert (g ≠ TokenRenewThen) as Hgs by (by destruct g).
  destruct (pair_walk f g d h o Hc s Hq Hd Hh Hst Hne Hdlt Hhlt Hfs Hgs Hpg Hclean)
    as (k' & o' & s' & sb & x & cb & Hdr & Hk & Hqs & Hhs & Hold & Hns & Hcl & Hcb & He & Hsb).
  exists k', o', s'. do 6 (split; [done|]).
  assert (handle c (promises (snd (apply_callback cb x sb))) = None) as Hclear.
  { destruct Hcb as [-> | ->]; by apply apply_callback_handles. }
  split.
  - eapply (engine_eq_blind (fun s0 => handle c (promises s0) = None));
      [by intros ? ? ? ? ?|exact He|exact Hclear].
  - intros I (HI & Hcbs & _) Hs.
    eapply engine_eq_blind; [exact HI|exact He|]. apply Hcbs.
    destruct Hsb as [Hsb|(v & sb0 & -> & Hsb0 & Hsb)].
    + eapply engine_eq_blind; [exact HI|exact Hsb|exact Hs].
    + eapply engine_eq_blind; [exact HI|exact Hsb|]. apply Hcbs.
      eapply engine_eq_blind; [exact HI|exact Hsb0|exact Hs].
Qed.

(** The flow of a request settles into [P]: once the microtasks have run
    and each transport the flow has opened, a promise from [b] on, has
    landed, with whatever outcome, [P] holds and no microtask is left. *)
Inductive settles_into (b : pid) (P : state -> Prop) : state -> Prop :=
| settled_now (s : state) :
    queue s = [] -> P s -> settles_into b P s
| settles_microtask (s : state) :
    queue s ≠ [] -> settles_into b P (microtask s) -> settles_into b P s
| settles_transport (s : state) (t : pid) (k : transport) (R : list reaction) :
    queue s = [] -> (b <= t)%nat ->
    heap s !! t = Some {| p_origin := FromTransport k; status := None;
                          reactions := R |} ->
    (forall o params, clean o ->
       settles_into b P (task (TransportSettles t o params) s)) ->
    settles_into b P s.

Lemma settles_into_drain (b : pid) (P : state -> Prop) (n : nat) (s : state) :
  settles_into b P (drain n s) -> settles_into b P s.
Proof.
  revert s. induction n as [|n IH]; intros s; cbn [drain]; [done|].
  destruct (queue s) as [|j q] eqn:Hq; [done|].
  intros Hs. apply settles_microtask; [by rewrite Hq|]. by apply IH.
Qed.

Lemma pair_settles_into (f g : callback) (c : kind) (d h : pid) (o : outcome)
    (Hc : promise) (s : state) (b : pid) (P : state -> Prop) :
  queue s = [Job (Then f d) o] ->
  heap s !! d = Some {| p_origin := Chained; status := None;
                        reactions := [Catch g h] |} ->
  heap s !! h = Some Hc -> status Hc = None ->
  d ≠ h -> (d < next_pid s)%nat -> (h < next_pid s)%nat ->
  clears f = Some c -> clears g = Some c -> passes_value g = false ->
  clean o ->
  (forall o' s',
     queue s' = jobs (reactions Hc) o' ->
     heap s' !! h = Some (settled o' Hc) ->
     (forall p, (p < next_pid s)%nat -> p ≠ d -> p ≠ h -> heap s' !! p = heap s !! p) ->
     (next_pid s <= next_pid s')%nat ->
     clean o' ->
     handle c (promises s') = None ->
     (forall I, kept I -> I s -> I s') ->
     settles_into b P s') ->
  settles_into b P s.
Proof.
  intros Hq Hd Hh Hst Hne Hdlt Hhlt Hf Hg Hpg Hclean Hk.
  destruct (pair_clears f g c d h o Hc s Hq Hd Hh Hst Hne Hdlt Hhlt Hf Hg Hpg Hclean)
    as (k' & o' & s' & Hdr & Hqs & Hhs & Hold & Hns & Hcl & Hclear & HI).
  apply (settles_into_drain b P k'). specialize (Hdr 0%nat).
  rewrite Nat.add_0_r in Hdr. cbn [drain] in Hdr. rewrite Hdr. by eapply Hk.
Qed.

(** A flow started alone settles: whatever the outcome of its transport,
    the handle of its category is idle in the end and the promise that was
    the handle is settled. *)
Lemma started_settles_into (k : transport) (f g : callback)
    (set : option pid -> Promises -> Promises) (c : kind)
    (s : state) (h : pid) (s1 : state) (P : state -> Prop) :
  started k f g set s h s1 ->
  queue s = [] ->
  clears f = Some c -> clears g = Some c -> passes_value g = false ->
  (forall o' s2,
     queue s2 = [] ->
     heap s2 !! h = Some (settled o' (blank Chained)) ->
     (next_pid s1 <= next_pid s2)%nat ->
     handle c (promises s2) = None ->
     (forall I, kept I -> I s1 -> I s2) ->
     P s2) ->
  settles_into (next_pid s) P s1.
Proof.
  intros [-> Ht Hd Hh Hold Hn Hpr Hop Hq1] Hq Hf Hg Hpg HP.
  eapply (settles_transport _ _ _ (next_pid s)); [by rewrite Hq1|lia|exact Ht|].
  intros o params Hclean.
  destruct (transport_settles _ _ _ o params s1 Ht) as (Hq' & Hold' & Hn' & He).
  set (sT := task (TransportSettles (next_pid s) o params) s1) in *.
  rewrite Hq1, Hq in Hq'. cbn in Hq'.
  eapply (pair_settles_into f g c (S (next_pid s)) (S (S (next_pid s))) o
            (blank Chained) sT); try done; try lia.
  - rewrite Hold' by lia. exact Hd.
  - rewrite Hold' by lia. exact Hh.
  - intros o' s2 Hq2 Hh2 _ Hn2 _ Hidle HI.
    apply settled_now; [done|]. apply (HP o'); try done; [lia|].
    intros I HIk Hs1. apply HI; [done|].
    eapply engine_eq_blind; [apply HIk|exact He|]. by apply HIk.
Qed.

(** [refreshToken] when neither a refresh nor a login is pending: a login in
    an iframe is started and the two handlers of the refresh are chained on
    its handle. *)
Lemma refreshToken_started (s : state) (h : pid) (s1 : state) :
  refresh (promises s) = None -> login (promises s) = None ->
  refreshToken s = (Ok h, s1) ->
  let t := next_pid s in
  h = (4 + t)%nat
  /\ heap s1 !! t
     = Some {| p_origin := FromTransport Iframe; status := None;
               reactions := [Then (LoginIframeThen false) (1 + t)%nat] |}
  /\ heap s1 !! (1 + t)%nat
     = Some {| p_origin := Chained; status := None;
               reactions := [Catch (LoginIframeCatch false) (2 + t)%nat] |}
  /\ heap s1 !! (2 + t)%nat
     = Some {| p_origin := Chained; status := None;
               reactions := [Then RefreshThen (3 + t)%nat] |}
  /\ heap s1 !! (3 + t)%nat
     = Some {| p_origin := Chained; status := None;
               reactions := [Catch RefreshCatch h] |}
  /\ heap s1 !! h = Some (blank Chained)
  /\ next_pid s1 = S h
  /\ promises s1 = set_refresh (Some h) (set_login (Some (2 + t)%nat) (promises s))
  /\ (exists u, opened s1 = opened s ++ [(Iframe, u)])
  /\ queue s1 = queue s.
Proof.
  intros Hr Hl. unfold refreshToken. unfold_M. rewrite Hr.
  destruct (loginWithIframe (BoolArg true) s) as [[l|e] sL] eqn:HL; [|done].
  apply loginWithIframe_started in HL as [-> Ht Hd Hh Hold Hn Hpr Hop Hq1]; [|done].
  cbn in Ht, Hd.
  erewrite (p_then_pending _ RefreshThen (blank Chained)); [|exact Hh|done|lia].
  cbn.
  erewrite (p_catch_pending _ RefreshCatch (blank Chained));
    [|by cbn; rewrite lookup_insert_ne, lookup_insert_eq by lia|done|cbn; lia].
  cbn. rewrite Hn. intros [= <- <-]. cbn. rewrite Hn.
  split; [done|].
  do 5 (split; [by heap_lookup|]).
  split; [done|]. split; [by rewrite Hpr|]. done.
Qed.

(** A refresh started alone settles: the login handle and the refresh
    handle are idle in the end. *)
Lemma refreshToken_settles_into (s : state) (h : pid) (s1 : state)
    (P : state -> Prop) :
  refresh (promises s) = None -> login (promises s) = None ->
  refreshToken s = (Ok h, s1) ->
  queue s = [] ->
  (forall o' s2,
     queue s2 = [] ->
     heap s2 !! h = Some (settled o' (blank Chained)) ->
     (next_pid s1 <= next_pid s2)%nat ->
     login (promises s2) = None -> refresh (promises s2) = None ->
     (forall I, kept I -> I s1 -> I s2) ->
     P s2) ->
  settles_into (next_pid s) P s1.
Proof.
  intros Hr Hl Hs Hq HP.
  apply refreshToken_started in Hs
    as (-> & Ht & Hd & Hl1 & Hd2 & Hh & Hn & Hpr & Hop & Hq1); [|done..].
  eapply (settles_transport _ _ _ (next_pid s)); [by rewrite Hq1|lia|exact Ht|].
  intros o params Hclean.
  destruct (transport_settles _ _ _ o params s1 Ht) as (Hq' & Hold' & Hn' & He).
  set (sT := task (TransportSettles (next_pid s) o params) s1) in *.
  rewrite Hq1, Hq in Hq'. cbn in Hq'.
  eapply (pair_settles_into (LoginIframeThen false) (LoginIframeCatch false) Login
            (1 + next_pid s) (2 + next_pid s) o _ sT);
    [exact Hq'|by rewrite Hold' by lia|by rewrite Hold' by lia
    |done|lia|lia|lia|done|done|done|done|].
  intros o1 sa Hqa Hha Holda Hna Hca Hidle HIa. cbn in Hqa.
  eapply (pair_settles_into RefreshThen RefreshCatch Refresh
            (3 + next_pid s) (4 + next_pid s) o1 (blank Chained) sa);
    [exact Hqa|by rewrite Holda, Hold' by lia|by rewrite Holda, Hold' by lia
    |done|lia|lia|lia|done|done|done|done|].
  intros o2 sb Hqb Hhb Holdb Hnb Hcb Hidleb HIb.
  apply settled_now; [done|]. apply (HP o2); try done; [lia| |].
  - by apply (HIb _ (kept_idle Login)).
  - intros I HIk Hs1. apply HIb, HIa; [done..|].
    eapply engine_eq_blind; [apply HIk|exact He|]. by apply HIk.
Qed.

(** One job run alone carries on with the reactions of the promise it
    settles. *)
Lemma job_settles_into (r : reaction) (o : outcome) (D : promise) (s : state)
    (b : pid) (P : state -> Prop) :
  queue s = [Job r o] ->
  heap s !! target r = Some D -> status D = None ->
  (target r < next_pid s)%nat ->
  (forall cb, runs r o = Some cb -> cb ≠ TokenRenewThen /\ passes_value cb = false) ->
  clean o ->
  (forall o' s',
     queue s' = jobs (reactions D) o' ->
     heap s' !! target r = Some (settled o' D) ->
     (forall p, (p < next_pid s)%nat -> p ≠ target r -> heap s' !! p = heap s !! p) ->
     (next_pid s <= next_pid s')%nat ->
     clean o' ->
     (forall I, kept I -> I s -> I s') ->
     settles_into b P s') ->
  settles_into b P s.
Proof.
  intros Hq Hd HD Hlt Hruns Hclean Hk.
  destruct (job_link r o D s Hq Hd HD Hlt)
    as (k & o' & s' & sa & Hdr & _ & Hq' & Hd' & Hold & Hn & Hc & He & Hran);
    [|done|].
  { intros cb Hcb. destruct (Hruns cb Hcb) as [? Hp]. split; [done|].
    by rewrite Hp. }
  apply (settles_into_drain b P (S k)). specialize (Hdr 0%nat).
  rewrite Nat.add_0_r in Hdr. rewrite Hdr. cbn [drain].
  apply (Hk o'); try done.
  intros I HIk Hs. eapply engine_eq_blind; [apply HIk|exact He|].
  destruct (runs r o) as [cb|].
  - subst sa. apply HIk.
    eapply engine_eq_blind; [apply HIk|apply engine_eq_queue|exact Hs].
  - by destruct Hran as [-> _].
Qed.

(** How the closure that renews the access token ends: with a value, with
    an exception, or with the promise of the validation it has chained on a
    new iframe. *)
Lemma renew_result (v : value) (s : state) :
  let n := next_pid s in
  let r := fst (apply_callback TokenRenewThen v s) in
  let s' := snd (apply_callback TokenRenewThen v s) in
  queue s' = queue s
  /\ ((exists v', r = Ok v' /\ not_promise v'
                 /\ heap s' = heap s /\ next_pid s' = n)
      \/ (exists e, r = Throw e /\ heap s' = heap s /\ next_pid s' = n)
      \/ (r = Ok (VPromise (S n))
          /\ heap s'
             = <[n := {| p_origin := FromTransport Iframe; status := None;
                         reactions := [Then TokenValidateThen (S n)] |}]>
                 (<[S n := blank Chained]>
                    (<[n := blank (FromTransport Iframe)]> (heap s)))
          /\ next_pid s' = S (S n))).
Proof.
  cbn [apply_callback]. unfold_M. cbn.
  destruct (accessTokenExpired _ _); cbn.
  - match goal with |- context [d_accessTokenUrl ?x] =>
      pose proof (d_accessTokenUrl_state x) as Hu;
      destruct (d_accessTokenUrl x) as [[u|e] su]; cbn in Hu; subst su
    end.
    + unfold createIframe, open_transport, new_promise. unfold_M. cbn.
      erewrite (p_then_pending _ TokenValidateThen (blank (FromTransport Iframe)));
        [|by cbn; rewrite lookup_insert_eq|done|cbn; lia].
      cbn. split; [done|]. right; right. done.
    + cbn. split; [done|]. right; left. by exists e.
  - split; [done|]. left. eexists. split; [done|].
    split; [apply p_accessToken_not_promise|done].
Qed.

(** The job that renews the access token, run alone: it carries on with
    the reactions of its promise [x], at once or after the iframe it has
    opened has landed. *)
Lemma renew_settles_into (x : pid) (D : promise) (o : outcome) (s : state)
    (b : pid) (P : state -> Prop) :
  queue s = [Job (Then TokenRenewThen x) o] ->
  heap s !! x = Some D -> status D = None ->
  (x < next_pid s)%nat -> (b <= next_pid s)%nat ->
  clean o ->
  (forall o' s',
     queue s' = jobs (reactions D) o' ->
     heap s' !! x = Some (settled o' D) ->
     (forall p, (p < next_pid s)%nat -> p ≠ x -> heap s' !! p = heap s !! p) ->
     (next_pid s <= next_pid s')%nat ->
     clean o' ->
     (forall I, kept I -> I s -> I s') ->
     settles_into b P s') ->
  settles_into b P s.
Proof.
  intros Hq Hx HD Hlt Hb Hclean Hk.
  apply settles_microtask; [by rewrite Hq|]. unfold microtask. rewrite Hq.
  set (s0 := upd_queue (fun _ => []) s).
  assert (forall I, kept I -> I s -> I s0) as H0.
  { intros I HIk Hs. eapply engine_eq_blind; [apply HIk|apply engine_eq_queue|done]. }
  destruct o as [v|e]; cbn [run_job].
  2:{ erewrite settle_pending; [|exact Hx|done].
      apply (Hk (Rejected e)); cbn; try done.
      - by rewrite lookup_insert_eq.
      - intros p Hp Hne. by rewrite lookup_insert_ne.
      - intros I HIk Hs. eapply engine_eq_blind; [apply HIk| |apply (H0 I HIk Hs)].
        engine_eq_solve. }
  unfold run_reaction.
  destruct (renew_result v s0) as [Hq0 Hres].
  assert (forall I, kept I -> I s -> I (snd (apply_callback TokenRenewThen v s0))) as Ha.
  { intros I HIk Hs. apply HIk. by apply H0. }
  destruct (apply_callback TokenRenewThen v s0) as [r sa]. cbn [fst snd] in *.
  change (next_pid s0) with (next_pid s) in Hres.
  change (heap s0) with (heap s) in Hres.
  destruct Hres as [(v' & -> & Hv' & Hh & Hn)|[(e & -> & Hh & Hn)|(-> & Hh & Hn)]].
  - rewrite resolve_value by done.
    erewrite settle_pending; [|by rewrite Hh|done].
    apply (Hk (Fulfilled v')); cbn; try done.
    + by rewrite Hq0.
    + by rewrite lookup_insert_eq.
    + intros p Hp Hne. by rewrite lookup_insert_ne, Hh.
    + lia.
    + intros I HIk Hs. eapply engine_eq_blind; [apply HIk| |apply (Ha I HIk Hs)].
      engine_eq_solve.
  - erewrite settle_pending; [|by rewrite Hh|done].
    apply (Hk (Rejected e)); cbn; try done.
    + by rewrite Hq0.
    + by rewrite lookup_insert_eq.
    + intros p Hp Hne. by rewrite lookup_insert_ne, Hh.
    + lia.
    + intros I HIk Hs. eapply engine_eq_blind; [apply HIk| |apply (Ha I HIk Hs)].
      engine_eq_solve.
  - cbn [resolve].
    erewrite (react_pending _ _ (blank Chained));
      [|by rewrite Hh; heap_lookup|done].
    set (sR := upd_heap _ sa).
    assert (heap sR !! next_pid s
            = Some {| p_origin := FromTransport Iframe; status := None;
                      reactions := [Then TokenValidateThen (S (next_pid s))] |}) as Ht
      by (unfold sR; cbn; rewrite Hh; by heap_lookup).
    assert (heap sR !! S (next_pid s)
            = Some {| p_origin := Chained; status := None;
                      reactions := [Adopt x] |}) as Hy
      by (unfold sR; cbn; by heap_lookup).
    assert (forall p, (p < next_pid s)%nat -> heap sR !! p = heap s !! p) as HoldR
      by (intros p Hp; unfold sR; cbn; rewrite Hh; by heap_lookup).
    assert (forall I, kept I -> I s -> I sR) as HR.
    { intros I HIk Hs. eapply engine_eq_blind; [apply HIk| |apply (Ha I HIk Hs)].
      engine_eq_solve. }
    assert (queue sR = []) as HqR by (unfold sR; cbn; by rewrite Hq0).
    assert (next_pid sR = S (S (next_pid s))) as HnR by done.
    clearbody sR. clear Hh Hn Ha Hq0 sa.
    eapply (settles_transport _ _ _ (next_pid s)); [done|lia|exact Ht|].
    intros o2 params Hc2.
    destruct (transport_settles _ _ _ o2 params sR Ht) as (Hq' & Hold' & Hn' & He).
    set (sT := task (TransportSettles (next_pid s) o2 params) sR) in *.
    rewrite HqR in Hq'. cbn in Hq'.
    eapply (job_settles_into (Then TokenValidateThen (S (next_pid s))) o2 _ sT);
      [exact Hq'|by cbn [target]; rewrite Hold' by lia|done|cbn [target]; lia| |done|].
    { intros cb Hcb. destruct o2; cbn in Hcb; [|done]. by injection Hcb as <-. }
    cbn [target reactions jobs fmap list_fmap].
    intros o1 s1 Hq1 _ Hold1 Hn1 Hc1 HI1.
    eapply (job_settles_into (Adopt x) o1 D s1);
      [exact Hq1|by cbn [target]; rewrite Hold1, Hold', HoldR by lia|done|cbn [target]; lia
      |by intros cb; destruct o1|done|].
    cbn [target]. intros o3 s3 Hq3 Hx3 Hold3 Hn3 Hc3 HI3.
    apply (Hk o3); try done.
    + intros p Hp Hne. rewrite Hold3, Hold1, Hold', HoldR by lia. done.
    + lia.
    + intros I HIk Hs. apply HI3, HI1; [done..|].
      eapply engine_eq_blind; [apply HIk|exact He|]. apply HIk. by apply HR.
Qed.

(** The reactions [token_chain] chains from promise [n] on: the renewal of
    the access token, unless the response type is 'code', and the two
    handlers that clear the token handle. *)
Definition first_link (code : bool) (n : pid) : reaction :=
  Then (if code then TokenDoneThen else TokenRenewThen) n.

Definition token_handle (code : bool) (n : pid) : pid :=
  if code then S n else S (S n).

Definition token_linked (code : bool) (n : pid) (s : state) : Prop :=
  (token_handle code n < next_pid s)%nat
  /\ if code then
       heap s !! n = Some {| p_origin := Chained; status := None;
                             reactions := [Catch TokenDoneCatch (S n)] |}
       /\ heap s !! S n = Some (blank Chained)
     else
       heap s !! n = Some {| p_origin := Chained; status := None;
                             reactions := [Then TokenDoneThen (S n)] |}
       /\ heap s !! S n = Some {| p_origin := Chained; status := None;
                                  reactions := [Catch TokenDoneCatch (S (S n))] |}
       /\ heap s !! S (S n) = Some (blank Chained).

Lemma token_handle_gt (code : bool) (n : pid) : (n < token_handle code n)%nat.
Proof. destruct code; cbn; lia. Qed.

Lemma token_linked_frame (code : bool) (n : pid) (s s' : state) :
  token_linked code n s ->
  (forall p, (n <= p)%nat -> (p < next_pid s)%nat -> heap s' !! p = heap s !! p) ->
  (next_pid s <= next_pid s')%nat ->
  token_linked code n s'.
Proof.
  intros [Hlt Hl] Hold Hn. split; [lia|].
  destruct code; cbn in Hlt; rewrite !Hold by lia; exact Hl.
Qed.

Local Ltac chain_done :=
  eexists; split; [reflexivity|];
  split; [unfold token_linked, token_handle; cbn;
          split; [lia|repeat split; by heap_lookup]|];
  cbn; split; [done|]; split; [done|];
  split; [intros p Hp Hne; by heap_lookup|];
  split; [by heap_lookup|done].

Lemma token_chain_spec (b : pid) (B : promise) (s : state) :
  token (promises s) = Some b -> heap s !! b = Some B -> (b < next_pid s)%nat ->
  let code := String.eqb (responseType (config s)) "code" in
  let n := next_pid s in
  let h := token_handle code n in
  exists s1,
    token_chain s = (Ok (VPromise h), s1)
    /\ token_linked code n s1
    /\ next_pid s1 = S h
    /\ promises s1 = set_token (Some h) (promises s)
    /\ (forall p, (p < n)%nat -> p ≠ b -> heap s1 !! p = heap s !! p)
    /\ match status B with
       | None => heap s1 !! b = Some (with_reaction (first_link code n) B)
                 /\ queue s1 = queue s
       | Some o => heap s1 !! b = Some B
                   /\ queue s1 = queue s ++ [Job (first_link code n) o]
       end.
Proof.
  intros Ht Hb Hlt. cbn zeta. unfold token_chain. unfold_M. cbn.
  destruct (String.eqb (responseType (config s)) "code"); cbn; rewrite Ht.
  - rewrite p_then_eq. cbn.
    destruct (status B) as [o|] eqn:HB.
    + erewrite react_settled; [|by cbn; rewrite lookup_insert_ne by lia|done].
      cbn.
      erewrite (p_catch_pending _ TokenDoneCatch (blank Chained));
        [|by cbn; rewrite lookup_insert_eq|done|cbn; lia].
      chain_done.
    + erewrite react_pending; [|by cbn; rewrite lookup_insert_ne by lia|done].
      cbn.
      erewrite (p_catch_pending _ TokenDoneCatch (blank Chained));
        [|by cbn; heap_lookup|done|cbn; lia].
      chain_done.
  - rewrite p_then_eq. cbn.
    destruct (status B) as [o|] eqn:HB.
    + erewrite react_settled; [|by cbn; rewrite lookup_insert_ne by lia|done].
      cbn.
      erewrite (p_then_pending _ TokenDoneThen (blank Chained));
        [|by cbn; rewrite lookup_insert_eq|done|cbn; lia].
      cbn.
      erewrite (p_catch_pending _ TokenDoneCatch (blank Chained));
        [|by cbn; heap_lookup|done|cbn; lia].
      chain_done.
    + erewrite react_pending; [|by cbn; rewrite lookup_insert_ne by lia|done].
      cbn.
      erewrite (p_then_pending _ TokenDoneThen (blank Chained));
        [|by cbn; heap_lookup|done|cbn; lia].
      cbn.
      erewrite (p_catch_pending _ TokenDoneCatch (blank Chained));
        [|by cbn; heap_lookup|done|cbn; lia].
      chain_done.
Qed.

(** The chain of [token_chain], its first job alone in the queue, settles:
    the token handle is idle in the end. *)
Lemma token_linked_settles_into (code : bool) (n : pid) (o : outcome) (s : state)
    (b : pid) (P : state -> Prop) :
  queue s = [Job (first_link code n) o] ->
  token_linked code n s -> (b <= next_pid s)%nat -> clean o ->
  (forall o' s2,
     queue s2 = [] ->
     heap s2 !! token_handle code n = Some (settled o' (blank Chained)) ->
     (next_pid s <= next_pid s2)%nat ->
     token (promises s2) = None ->
     (forall I, kept I -> I s -> I s2) ->
     P s2) ->
  settles_into b P s.
Proof.
  intros Hq [Hlt Hl] Hb Hclean HP. destruct code; cbn in Hlt, Hq.
  - destruct Hl as [Hd Hh].
    eapply (pair_settles_into TokenDoneThen TokenDoneCatch Token n (S n) o
              (blank Chained) s);
      [exact Hq|exact Hd|exact Hh|done|lia|lia|lia|done|done|done|done|].
    intros o' s2 Hq2 Hh2 _ Hn2 _ Hidle HI.
    apply settled_now; [done|]. by apply (HP o').
  - destruct Hl as (Hx & Hd & Hh).
    eapply (renew_settles_into n _ o s); [exact Hq|exact Hx|done|lia|done|done|].
    cbn [reactions jobs fmap list_fmap].
    intros o1 s1 Hq1 _ Hold1 Hn1 Hc1 HI1.
    eapply (pair_settles_into TokenDoneThen TokenDoneCatch Token (S n) (S (S n)) o1
              (blank Chained) s1);
      [exact Hq1|by rewrite Hold1 by lia|by rewrite Hold1 by lia
      |done|lia|lia|lia|done|done|done|done|].
    intros o' s2 Hq2 Hh2 _ Hn2 _ Hidle HI.
    apply settled_now; [done|]. apply (HP o'); try done; [lia|].
    intros I HIk Hs. by apply HI, HI1.
Qed.

(** The end of a flow: no microtask is left, the promise [h] the request
    returned is settled and every handle that was idle in [s] is idle. *)
Definition ended (s : state) (h : pid) (s2 : state) : Prop :=
  queue s2 = []
  /\ (exists D o, heap s2 !! h = Some D /\ status D = Some o)
  /\ (h < next_pid s2)%nat
  /\ (forall c, handle c (promises s) = None -> handle c (promises s2) = None).

(** [retrieveAccessToken] when no login is needed: the chain hangs on a
    promise that is already resolved. *)
Lemma token_direct_settles_into (s : state) (h : pid) (s1 : state) :
  token (promises s) = None -> queue s = [] ->
  must_login s = false ->
  retrieveAccessToken s = (Ok (VPromise h), s1) ->
  settles_into (next_pid s) (ended s h) s1.
Proof.
  intros Htok Hq Hmust.
  unfold retrieveAccessToken, Promise_resolve, new_promise. unfold_M.
  rewrite Htok. cbn. change (must_login _) with (must_login s). rewrite Hmust.
  set (sA := upd_promises (set_token (Some (next_pid s))) _).
  destruct (token_chain_spec (next_pid s)
              {| p_origin := Immediate; status := Some (Fulfilled undefined);
                 reactions := [] |} sA)
    as (s1' & -> & Hl & Hn & Hpr & _ & _ & Hq1);
    [done|by cbn; rewrite lookup_insert_eq|cbn; lia|].
  change (config sA) with (config s) in *.
  change (next_pid sA) with (S (next_pid s)) in *.
  change (queue sA) with (queue s) in Hq1. rewrite Hq in Hq1. cbn in Hq1.
  change (promises sA) with (set_token (Some (next_pid s)) (promises s)) in Hpr.
  clearbody sA. intros [= <- <-].
  match goal with |- context [token_handle ?c ?n] =>
    pose proof (token_handle_gt c n) as Hgt
  end.
  eapply token_linked_settles_into; [exact Hq1|exact Hl|lia|done|].
  intros o' s2 Hq2 Hh2 Hn2 Hidle HI.
  split; [done|]. split; [by eexists _, _|]. split; [lia|].
  intros c Hc. destruct c; [..|done];
    apply (HI _ (kept_idle _)); by rewrite Hpr.
Qed.

(** [retrieveAccessToken] when a login is needed and the login type is
    'iframe': the chain hangs on the handle of the login. *)
Lemma token_iframe_settles_into (s : state) (h : pid) (s1 : state) :
  token (promises s) = None -> login (promises s) = None -> queue s = [] ->
  must_login s = true -> loginType (config s) = Some (VStr "iframe") ->
  retrieveAccessToken s = (Ok (VPromise h), s1) ->
  settles_into (next_pid s) (ended s h) s1.
Proof.
  intros Htok Hlog Hq Hmust Hlt.
  unfold retrieveAccessToken, Promise_resolve, new_promise. unfold_M.
  rewrite Htok. cbn. change (must_login _) with (must_login s). rewrite Hmust.
  set (sA := upd_promises (set_token (Some (next_pid s))) _).
  unfold token_login. unfold_M. cbn. rewrite Hlt. rewrite decide_True by done.
  destruct (loginWithIframe NoArg sA) as [[l|e] sL] eqn:HL; [|done].
  apply loginWithIframe_started in HL as [-> Ht Hd Hh Hold Hn Hpr Hop Hq1]; [|done].
  cbn in Ht, Hd.
  change (next_pid sA) with (S (next_pid s)) in *.
  change (queue sA) with (queue s) in Hq1. rewrite Hq in Hq1.
  change (promises sA) with (set_token (Some (next_pid s)) (promises s)) in Hpr.
  clearbody sA. cbn.
  set (sB := upd_promises _ sL).
  destruct (token_chain_spec (3 + next_pid s) (blank Chained) sB)
    as (s1' & -> & Hl & Hn1 & Hpr1 & Hold1 & Hl1 & Hq1');
    [done|exact Hh|cbn; lia|].
  cbn [status] in Hl1, Hq1'.
  change (config sB) with (config sL) in *.
  change (next_pid sB) with (next_pid sL) in *.
  change (queue sB) with (queue sL) in Hq1'.
  change (heap sB) with (heap sL) in Hold1.
  change (promises sB)
    with (set_token (Some (3 + next_pid s)%nat) (promises sL)) in Hpr1.
  clearbody sB. rewrite Hn in *. rewrite Hq1 in Hq1'.
  set (code := String.eqb (responseType (config sL)) "code") in *.
  pose proof (token_handle_gt code (S (S (S (S (next_pid s)))))) as Hgt.
  intros [= <- <-].
  eapply (settles_transport _ _ _ (S (next_pid s)));
    [done|lia|by rewrite Hold1 by lia|].
  intros o params Hclean.
  edestruct (transport_settles (S (next_pid s)) Iframe
               [Then (LoginIframeThen true) (S (S (next_pid s)))] o params s1')
    as (HqT & HoldT & HnT & HeT); [by rewrite Hold1 by lia|].
  set (sT := task (TransportSettles (S (next_pid s)) o params) s1') in *.
  rewrite Hq1' in HqT. cbn in HqT.
  eapply (pair_settles_into (LoginIframeThen true) (LoginIframeCatch true) Login
            (2 + next_pid s) (3 + next_pid s) o _ sT);
    [exact HqT|by rewrite HoldT, Hold1 by lia|by rewrite HoldT by lia
    |done|lia|lia|lia|done|done|done|done|].
  cbn [with_reaction reactions blank jobs fmap list_fmap app].
  intros o1 sa Hqa _ Holda Hna Hca Hidlea HIa.
  eapply (token_linked_settles_into code (4 + next_pid s) o1 sa);
    [exact Hqa| |lia|done|].
  { apply (token_linked_frame code (4 + next_pid s) s1'); [done| |lia].
    intros p Hp1 Hp2. rewrite Holda, HoldT by lia. done. }
  intros o' s2 Hq2 Hh2 Hn2 Hidle HI.
  split; [done|]. split; [by eexists _, _|]. split; [lia|].
  assert (forall I, kept I -> I s1' -> I s2) as Hkept.
  { intros I HIk Hs. apply HI, HIa; [done..|].
    eapply engine_eq_blind; [apply HIk|exact HeT|]. by apply HIk. }
  intros c Hc. destruct c; [by apply (HI _ (kept_idle Login))| | |done];
    apply (Hkept _ (kept_idle _)); by rewrite Hpr1, Hpr.
Qed.

(** [retrieveAccessToken] when a login is needed and the login type is
    neither 'iframe' nor 'redirect': the promise returned is rejected and
    the token handle is idle at once. *)
Lemma token_rejected_settles_into (s : state) (h : pid) (s1 : state) :
  token (promises s) = None -> login (promises s) = None -> queue s = [] ->
  must_login s = true ->
  loginType (config s) ≠ Some (VStr "iframe") ->
  loginType (config s) ≠ Some (VStr "redirect") ->
  retrieveAccessToken s = (Ok (VPromise h), s1) ->
  settles_into (next_pid s) (ended s h) s1.
Proof.
  intros Htok Hlog Hq Hmust Hif Hre.
  unfold retrieveAccessToken, Promise_resolve, Promise_reject, new_promise.
  unfold_M.
  rewrite Htok. cbn. change (must_login _) with (must_login s). rewrite Hmust.
  unfold token_login, Promise_reject, new_promise. unfold_M. cbn.
  rewrite !decide_False by done.
  destruct (decide (loginType (config s) = Some (VBool false))); cbn;
    rewrite ?Hlog; cbn; intros [= <- <-]; (apply settled_now; [done|]);
    (split; [done|]); cbn;
    (split; [eexists _, _; split; [by rewrite lookup_insert_eq|done]|]);
    (split; [lia|]); by intros [].
Qed.

(** [retrieveAccessToken] from an idle controller, unless the login it needs
    is a redirect. *)
Lemma retrieveAccessToken_settles_into (s : state) (h : pid) (s1 : state) :
  token (promises s) = None -> login (promises s) = None -> queue s = [] ->
  (must_login s = true -> loginType (config s) ≠ Some (VStr "redirect")) ->
  retrieveAccessToken s = (Ok (VPromise h), s1) ->
  settles_into (next_pid s) (ended s h) s1.
Proof.
  intros Htok Hlog Hq Hre Hs. destruct (must_login s) eqn:Hmust.
  - destruct (decide (loginType (config s) = Some (VStr "iframe"))).
    + by apply token_iframe_settles_into.
    + apply token_rejected_settles_into; auto.
  - by apply token_direct_settles_into.
Qed.

Lemma settles_into_mono (b : pid) (P Q : state -> Prop) (s : state) :
  (forall s', P s' -> Q s') -> settles_into b P s -> settles_into b Q s.
Proof.
  intros HPQ Hs.
  induction Hs as [s Hq HP|s Hq _ IH|s t k R Hq Hb Ht _ IH].
  - apply settled_now; auto.
  - by apply settles_microtask.
  - by eapply settles_transport.
Qed.

(** The flows of login and logout, started alone. *)
Lemma started_ends (k : transport) (f g : callback)
    (set : option pid -> Promises -> Promises) (c : kind)
    (s : state) (h : pid) (s1 : state) :
  started k f g set s h s1 ->
  queue s = [] ->
  clears f = Some c -> clears g = Some c -> passes_value g = false ->
  (forall c', c' ≠ c -> handle c' (set (Some h) (promises s)) = handle c' (promises s)) ->
  settles_into (next_pid s) (ended s h) s1.
Proof.
  intros Hst Hq Hf Hg Hpg Hset.
  eapply started_settles_into; [exact Hst|done..|].
  destruct Hst as [-> _ _ _ _ Hn Hpr _ _].
  intros o' s2 Hq2 Hh2 Hn2 Hidle HI.
  split; [done|]. split; [by eexists _, _|]. split; [lia|].
  intros c' Hc'. destruct (decide (c' = c)) as [->|Hne]; [done|].
  apply (HI _ (kept_idle c')). rewrite Hpr, Hset; done.
Qed.

Lemma refreshToken_ends (s : state) (h : pid) (s1 : state) :
  refresh (promises s) = None -> login (promises s) = None ->
  queue s = [] ->
  refreshToken s = (Ok h, s1) ->
  settles_into (next_pid s) (ended s h) s1.
Proof.
  intros Hr Hl Hq Hs.
  eapply refreshToken_settles_into; [done..|].
  apply refreshToken_started in Hs
    as (-> & _ & _ & _ & _ & _ & Hn & Hpr & _); [|done..].
  intros o' s2 Hq2 Hh2 Hn2 Hidle Hidle' HI.
  split; [done|]. split; [by eexists _, _|]. split; [lia|].
  intros c Hc. destruct c; [done| |done|];
    apply (HI _ (kept_idle _)); by rewrite Hpr.
Qed.

End Settling.

(** ** A request in an idle category *)

Section Fresh.
Context `{Collaborators}.

(** The login step of [retrieveAccessToken] when no login is pending: it
    throws, or it returns a promise it has just made, or it leaves in the
    token handle a promise of the heap. *)
Lemma token_login_cases (s : state) (r : result (option pid)) (s1 : state) :
  login (promises s) = None ->
  token_login s = (r, s1) ->
  (exists e, r = Throw e)
  \/ (exists q, r = Ok (Some q) /\ (next_pid s <= q)%nat)
  \/ (r = Ok None
      /\ exists b B, token (promises s1) = Some b /\ heap s1 !! b = Some B
                     /\ (b < next_pid s1)%nat /\ (next_pid s <= next_pid s1)%nat).
Proof.
  intros Hlog. unfold token_login, Promise_reject, new_promise. unfold_M. cbn.
  destruct (decide (loginType (config s) = Some (VStr "iframe"))) as [Hif|Hif].
  { destruct (loginWithIframe NoArg s) as [[l|e] sL] eqn:HL;
      intros [= <- <-]; [|by left; eexists].
    apply loginWithIframe_started in HL as [-> _ _ Hh _ Hn _ _ _]; [|done].
    right; right. split; [done|]. eexists _, _. cbn.
    split; [done|]. split; [exact Hh|]. lia. }
  destruct (decide (loginType (config s) = Some (VStr "redirect"))) as [Hre|Hre].
  { destruct (loginWithRedirect None s) as [[l|e] sL] eqn:HL;
      intros [= <- <-]; [|by left; eexists].
    apply loginWithRedirect_started in HL as (-> & Hh & Hn & _); [|done].
    right; right. split; [done|]. eexists _, _. cbn.
    split; [done|]. split; [by rewrite Hh, lookup_insert_eq|]. lia. }
  destruct (decide (loginType (config s) = Some (VBool false))) as [Hno|Hno]; cbn;
    rewrite ?Hlog; cbn; intros [= <- <-]; right; left; by eexists.
Qed.

(** A token request that is not coalesced is answered with a promise that
    did not exist. *)
Lemma retrieveAccessToken_fresh (s : state) (r : value) (s1 : state) :
  token (promises s) = None -> login (promises s) = None ->
  retrieveAccessToken s = (Ok r, s1) ->
  exists h, r = VPromise h /\ (next_pid s <= h)%nat.
Proof.
  intros Htok Hlog.
  unfold retrieveAccessToken, Promise_resolve, new_promise. unfold_M.
  rewrite Htok. cbn. change (must_login _) with (must_login s).
  set (sA := upd_promises (set_token (Some (next_pid s))) _).
  assert (next_pid sA = S (next_pid s)) as HnA by done.
  assert (login (promises sA) = None) as HlogA by done.
  assert (token (promises sA) = Some (next_pid s)) as HtokA by done.
  assert (heap sA !! next_pid s
          = Some {| p_origin := Immediate; status := Some (Fulfilled undefined);
                    reactions := [] |}) as HhA
    by (cbn; by rewrite lookup_insert_eq).
  clearbody sA.
  destruct (must_login s).
  - destruct (token_login sA) as [r' sT] eqn:HT.
    destruct (token_login_cases sA r' sT HlogA HT)
      as [[e ->]|[(q & -> & Hq)|(-> & b & B & Hb & HB & Hlt & Hn)]]; [done|..].
    + intros [= <- <-]. exists q. split; [done|lia].
    + destruct (token_chain_spec b B sT Hb HB Hlt) as (s1' & -> & _).
      intros [= <- <-]. eexists. split; [done|].
      match goal with |- context [token_handle ?c ?n] =>
        pose proof (token_handle_gt c n)
      end. lia.
  - destruct (token_chain_spec _ _ sA HtokA HhA ltac:(lia)) as (s1' & -> & _).
    intros [= <- <-]. eexists. split; [done|].
    match goal with |- context [token_handle ?c ?n] =>
      pose proof (token_handle_gt c n)
    end. lia.
Qed.

(** The category of the requests that start a flow which settles on this
    page. *)
Definition flow (a : api) : option kind :=
  match a with
  | LoginWithIframe _ | LoginWithPopup | LoginWithNewTab => Some Login
  | LogoutWithIframe | LogoutWithPopup | LogoutWithNewTab => Some Logout
  | RefreshToken => Some Refresh
  | RetrieveAccessToken => Some Token
  | _ => None
  end.

Definition idle (s : state) : Prop := forall c, handle c (promises s) = None.

(** A request of [a] in [s] is not answered with an old promise and, unless
    it asks for a token, opens a transport. *)
Definition starts_anew (a : api) (s : state) : Prop :=
  forall r s1, call a s = (Ok r, s1) ->
    exists h, r = VPromise h /\ (next_pid s <= h)%nat
              /\ (a ≠ RetrieveAccessToken -> exists ku, opened s1 = opened s ++ [ku]).

Lemma idle_request_starts_anew (a : api) (s : state) :
  is_Some (flow a) -> idle s -> starts_anew a s.
Proof.
  intros [c Hc] Hidle r s1.
  pose proof (Hidle Login) as Hlogin. pose proof (Hidle Logout) as Hlogout.
  pose proof (Hidle Refresh) as Hrefresh. pose proof (Hidle Token) as Htoken.
  cbn in Hlogin, Hlogout, Hrefresh, Htoken.
  destruct a; try discriminate Hc; cbn [call]; unfold returning; unfold_M.
  - destruct (loginWithIframe a s) as [[h|e] s'] eqn:Hs; intros [= <- <-].
    apply loginWithIframe_started in Hs as [-> _ _ _ _ _ _ [u Hop] _]; [|done].
    eexists. split; [done|]. split; [lia|]. by eexists.
  - destruct (loginWithPopup s) as [[h|e] s'] eqn:Hs; intros [= <- <-].
    apply (login_with_window_started Popup) in Hs
      as [-> _ _ _ _ _ _ [u Hop] _]; [|done].
    eexists. split; [done|]. split; [lia|]. by eexists.
  - destruct (loginWithNewTab s) as [[h|e] s'] eqn:Hs; intros [= <- <-].
    apply (login_with_window_started NewTab) in Hs
      as [-> _ _ _ _ _ _ [u Hop] _]; [|done].
    eexists. split; [done|]. split; [lia|]. by eexists.
  - destruct (logoutWithIframe s) as [[h|e] s'] eqn:Hs; intros [= <- <-].
    apply (logout_with_started Iframe) in Hs
      as [[-> _ _ _ _ _ _ [u Hop] _] _]; [|done].
    eexists. split; [done|]. split; [lia|]. by eexists.
  - destruct (logoutWithPopup s) as [[h|e] s'] eqn:Hs; intros [= <- <-].
    apply (logout_with_started Popup) in Hs
      as [[-> _ _ _ _ _ _ [u Hop] _] _]; [|done].
    eexists. split; [done|]. split; [lia|]. by eexists.
  - destruct (logoutWithNewTab s) as [[h|e] s'] eqn:Hs; intros [= <- <-].
    apply (logout_with_started NewTab) in Hs
      as [[-> _ _ _ _ _ _ [u Hop] _] _]; [|done].
    eexists. split; [done|]. split; [lia|]. by eexists.
  - destruct (refreshToken s) as [[h|e] s'] eqn:Hs; intros [= <- <-].
    apply refreshToken_started in Hs
      as (-> & _ & _ & _ & _ & _ & _ & _ & [u Hop] & _); [|done..].
    eexists. split; [done|]. split; [lia|]. by eexists.
  - intros Hs. apply retrieveAccessToken_fresh in Hs as (h & -> & Hh); [|done..].
    exists h. done.
Qed.

(** The flow is over and its handle is destroyed: every handle is idle,
    the promise the request returned is settled and a request of the same
    kind is not coalesced any more. *)
Record freed (a : api) (h : pid) (s2 : state) : Prop := {
  fr_idle : idle s2;
  fr_settled : exists D o, heap s2 !! h = Some D /\ status D = Some o;
  fr_old : (h < next_pid s2)%nat;
  fr_next : starts_anew a s2
}.

Lemma ended_freed (a : api) (s : state) (h : pid) (s2 : state) :
  is_Some (flow a) -> idle s -> ended s h s2 -> freed a h s2.
Proof.
  intros Ha Hidle (Hq & Hset & Hlt & Hkeep).
  assert (idle s2) as Hidle2 by (intros c; by apply Hkeep).
  split; [done..|]. by apply idle_request_starts_anew.
Qed.

(** C5.  When the flow of a request settles, the handle of its category is
    destroyed.  A request that starts a flow in an idle controller with no
    microtask left returns the promise [h]; whatever the outcome of each
    transport the flow opens, success or failure, once the microtasks have
    run every handle is idle again, [h] is settled, and a further request
    of the same kind is answered with a new promise and, for a login, a
    logout or a refresh, opens a new transport.  Nothing has to observe
    [h] for this.  A token request whose login is a redirect is left out:
    its flow does not settle on this page. *)
Theorem handle_freed_when_flow_settles
    (a : api) (s : state) (h : pid) (s1 : state) :
  is_Some (flow a) ->
  queue s = [] -> idle s ->
  (a = RetrieveAccessToken -> must_login s = true ->
   loginType (config s) ≠ Some (VStr "redirect")) ->
  call a s = (Ok (VPromise h), s1) ->
  settles_into (next_pid s) (freed a h) s1.
Proof.
  intros Ha Hq Hidle Hre Hs.
  apply (settles_into_mono _ (ended s h)); [intros s2; by apply ended_freed|].
  pose proof (Hidle Login) as Hlogin. pose proof (Hidle Logout) as Hlogout.
  pose proof (Hidle Refresh) as Hrefresh. pose proof (Hidle Token) as Htoken.
  cbn in Hlogin, Hlogout, Hrefresh, Htoken.
  destruct Ha as [c Hc]. revert Hs.
  destruct a; try discriminate Hc; cbn [call]; unfold returning; unfold_M.
  - destruct (loginWithIframe a s) as [[h0|e] s'] eqn:Hs; intros [= <- <-].
    apply loginWithIframe_started in Hs; [|done].
    eapply (started_ends _ _ _ _ Login); [exact Hs|done..|by intros []].
  - destruct (loginWithPopup s) as [[h0|e] s'] eqn:Hs; intros [= <- <-].
    apply (login_with_window_started Popup) in Hs; [|done].
    eapply (started_ends _ _ _ _ Login); [exact Hs|done..|by intros []].
  - destruct (loginWithNewTab s) as [[h0|e] s'] eqn:Hs; intros [= <- <-].
    apply (login_with_window_started NewTab) in Hs; [|done].
    eapply (started_ends _ _ _ _ Login); [exact Hs|done..|by intros []].
  - destruct (logoutWithIframe s) as [[h0|e] s'] eqn:Hs; intros [= <- <-].
    apply (logout_with_started Iframe) in Hs as [Hs _]; [|done].
    eapply (started_ends _ _ _ _ Logout); [exact Hs|done..|by intros []].
  - destruct (logoutWithPopup s) as [[h0|e] s'] eqn:Hs; intros [= <- <-].
    apply (logout_with_started Popup) in Hs as [Hs _]; [|done].
    eapply (started_ends _ _ _ _ Logout); [exact Hs|done..|by intros []].
  - destruct (logoutWithNewTab s) as [[h0|e] s'] eqn:Hs; intros [= <- <-].
    apply (logout_with_started NewTab) in Hs as [Hs _]; [|done].
    eapply (started_ends _ _ _ _ Logout); [exact Hs|done..|by intros []].
  - destruct (refreshToken s) as [[h0|e] s'] eqn:Hs; intros [= <- <-].
    by apply refreshToken_ends.
  - intros Hs. apply retrieveAccessToken_settles_into; auto.
Qed.

End Fresh.

(** A refresh whose iframe fails, and one whose iframe succeeds, on the
    demo page: six microtasks after the iframe has failed, four after it has
    succeeded, both handles are idle. *)
Example refresh_scenario :
  let failing :=
    @run demo_collaborators
      [Call RefreshToken; TransportSettles 0 (Rejected boom) [];
       Microtask; Microtask; Microtask; Microtask; Microtask; Microtask]
      logged_in in
  let succeeding :=
    @run demo_collaborators
      [Call RefreshToken; TransportSettles 0 (Fulfilled undefined) [];
       Microtask; Microtask; Microtask; Microtask] logged_in in
  promises (snd (refreshToken logged_in))
    = {| login := Some 2%nat; logout := None; refresh := Some 4%nat; token := None |}
  /\ promises failing
     = {| login := None; logout := None; refresh := None; token := None |}
  /\ queue failing = []
  /\ promises succeeding
     = {| login := None; logout := None; refresh := None; token := None |}
  /\ queue succeeding = [].
Proof. vm_compute. repeat split. Qed.

Lemma handle_freed_when_flow_settles_witness :
  @settles_into demo_collaborators (next_pid logged_in)
    (freed RefreshToken 4%nat) (snd (call RefreshToken logged_in)).
Proof.
  apply (@handle_freed_when_flow_settles demo_collaborators RefreshToken logged_in).
  - by eexists.
  - vm_compute. reflexivity.
  - intros []; vm_compute; reflexivity.
  - intros [=].
  - assert (fst (call RefreshToken logged_in)
            = Ok (VPromise 4%nat)) as Hr by (vm_compute; reflexivity).
    destruct (call RefreshToken logged_in); cbn in *. by rewrite Hr.
Defined.

(** ** What a logout clears *)

(** The controller outside the engine, the profile and the handles: timers
    and listeners. *)
Definition timers_and_listeners (s : state) :=
  (timers_of s, listeners s).

Lemma timers_and_listeners_flow_blind (s0 : state) :
  flow_blind (fun s => timers_and_listeners s = timers_and_listeners s0).
Proof. intros s Hh n Q pr pf u o c Hs. exact Hs. Qed.

Lemma cancel_idemp (x : slot) (m : gmap nat (timer_callback * Z)) :
  cancel x (cancel x m) = cancel x m.
Proof. destruct x; cbn; [done| |done]. apply delete_delete_eq. Qed.

(** The listener the constructor registers for 'logout'. *)
Lemma stop_on_logout_timers (error data : value) (s : state) :
  exists s',
    call_listener error data StopOnLogout s = (Ok tt, s')
    /\ timeouts s' = timeouts s
    /\ armed s' = cancel (t_refresh (timeouts s)) (armed s)
    /\ next_timer s' = next_timer s.
Proof.
  unfold call_listener. unfold_M. cbn.
  destruct (t_refresh (timeouts s)); cbn; by eexists.
Qed.

(** The 'logout' event when the listener of the constructor is the first
    one and the others are the application's: the refresh timer is
    cancelled, and no other. *)
Lemma d_fire_logout_timers (error data : value) (apps : list listener) (s : state) :
  listeners s !! "logout" = Some (StopOnLogout :: apps) ->
  Forall (fun l => is_app l = true) apps ->
  let s' := snd (d_fire "logout" error data s) in
  timeouts s' = timeouts s
  /\ armed s' = cancel (t_refresh (timeouts s)) (armed s)
  /\ next_timer s' = next_timer s
  /\ listeners s' = listeners s.
Proof.
  intros Hl Happs.
  pose proof (d_fire_spec "logout" error data s) as Hf. cbn zeta in Hf.
  destruct Hf as (_ & _ & _ & _ & _ & _ & _ & _ & Hls & _).
  cbn zeta. rewrite Hls. clear Hls.
  unfold d_fire. unfold_M. cbn. rewrite Hl. cbn [forEach]. unfold_M.
  match goal with |- context [call_listener _ _ StopOnLogout ?x] =>
    destruct (stop_on_logout_timers error data x) as (sc & -> & Ht & Ha & Hn)
  end.
  pose proof (forEach_apps_timers error data apps sc Happs) as (Ht' & Ha' & Hn').
  destruct (forEach (call_listener error data) apps sc) as [[[]|e] sf];
    cbn in *; repeat split; congruence.
Qed.

(** The timers and the listeners of [s] after a 'logout' event in [s0]:
    the refresh timer of [s0] is cancelled, the rest is as in [s0]. *)
Definition after_logout_event (s0 s : state) : Prop :=
  timeouts s = timeouts s0
  /\ armed s = cancel (t_refresh (timeouts s0)) (armed s0)
  /\ next_timer s = next_timer s0
  /\ listeners s = listeners s0.

Lemma after_logout_event_engine (s0 : state) : engine_blind (after_logout_event s0).
Proof. intros s Hh n Q Hs. exact Hs. Qed.

Section Logout.
Context `{Collaborators}.

(** Each of the two closures of a logout fires the event; a second event
    changes nothing more. *)
Lemma logout_callback_timers (cb : callback) (v : value) (s0 s : state)
    (apps : list listener) :
  cb = LogoutThen \/ cb = LogoutCatch ->
  listeners s0 !! "logout" = Some (StopOnLogout :: apps) ->
  Forall (fun l => is_app l = true) apps ->
  timers_and_listeners s = timers_and_listeners s0 \/ after_logout_event s0 s ->
  after_logout_event s0 (snd (apply_callback cb v s)).
Proof.
  intros Hcb Hl Happs Hs.
  assert (timeouts s = timeouts s0 /\ next_timer s = next_timer s0
          /\ listeners s = listeners s0
          /\ cancel (t_refresh (timeouts s0)) (armed s)
             = cancel (t_refresh (timeouts s0)) (armed s0))
    as (Ht & Hn & Hls & Ha).
  { destruct Hs as [[= -> -> -> ->]|(-> & -> & -> & ->)]; [done|].
    by rewrite cancel_idemp. }
  set (s' := upd_promises (set_logout None) s).
  assert (forall e d, after_logout_event s0 (snd (d_fire "logout" e d s'))) as Hfire.
  { intros e d.
    destruct (d_fire_logout_timers e d apps s') as (Ht' & Ha' & Hn' & Hls');
      [by cbn; rewrite Hls|done|].
    cbn in Ht', Ha', Hn', Hls'. unfold after_logout_event.
    rewrite Ht', Ha', Hn', Hls', Ht. done. }
  destruct Hcb as [-> | ->]; cbn [apply_callback]; unfold_M; cbn; fold s'.
  - specialize (Hfire undefined undefined).
    by destruct (d_fire "logout" undefined undefined s') as [[[]|e] sf].
  - specialize (Hfire v undefined).
    by destruct (d_fire "logout" v undefined s') as [[[]|e] sf].
Qed.

(** A logout started alone settles: the event has cancelled the refresh
    timer, no other timer, and the handle is idle. *)
Lemma logout_settles_into (k : transport) (s : state) (h : pid) (s1 : state)
    (apps : list listener) :
  started k LogoutThen LogoutCatch set_logout s h s1 ->
  queue s = [] ->
  timers_and_listeners s1 = timers_and_listeners s ->
  listeners s !! "logout" = Some (StopOnLogout :: apps) ->
  Forall (fun l => is_app l = true) apps ->
  settles_into (next_pid s)
    (fun s2 => after_logout_event s s2 /\ logout (promises s2) = None) s1.
Proof.
  intros [-> Ht Hd Hh Hold Hn Hpr Hop Hq1] Hq Hsame Hl Happs.
  eapply (settles_transport _ _ _ (next_pid s)); [by rewrite Hq1|lia|exact Ht|].
  intros o params Hclean.
  destruct (transport_settles _ _ _ o params s1 Ht) as (Hq' & Hold' & Hn' & He).
  set (sT := task (TransportSettles (next_pid s) o params) s1) in *.
  rewrite Hq1, Hq in Hq'. cbn in Hq'.
  assert (timers_and_listeners sT = timers_and_listeners s) as HsameT.
  { eapply (engine_eq_blind (fun x => timers_and_listeners x = _));
      [by intros ? ? ? ? ?|exact He|]. by destruct k, o. }
  destruct (pair_walk LogoutThen LogoutCatch (S (next_pid s)) (S (S (next_pid s)))
              o (blank Chained) sT)
    as (k' & o' & s' & sb & x & cb & Hdr & Hk & Hqs & Hhs & _ & Hns & Hcl
        & Hcb & He' & Hsb); try done; try lia.
  { by rewrite Hold' by lia. }
  { by rewrite Hold' by lia. }
  apply (settles_into_drain _ _ k'). specialize (Hdr 0%nat).
  rewrite Nat.add_0_r in Hdr. cbn [drain] in Hdr. rewrite Hdr.
  apply settled_now; [done|]. split.
  - eapply engine_eq_blind; [apply after_logout_event_engine|exact He'|].
    apply (logout_callback_timers cb x s sb apps); [done..|].
    destruct Hsb as [Hsb|(v & sb0 & -> & Hsb0 & Hsb)].
    + left. eapply (engine_eq_blind (fun x => timers_and_listeners x = _));
        [by intros ? ? ? ? ?|exact Hsb|done].
    + right. eapply engine_eq_blind; [apply after_logout_event_engine|exact Hsb|].
      apply (logout_callback_timers LogoutThen v s sb0 apps); [by left|done..|].
      left. eapply (engine_eq_blind (fun x => timers_and_listeners x = _));
        [by intros ? ? ? ? ?|exact Hsb0|done].
  - eapply (engine_eq_blind (fun s0 => logout (promises s0) = None));
      [by intros ? ? ? ? ?|exact He'|].
    destruct Hcb as [-> | ->];
      by apply (proj1 (apply_callback_handles _ _ _) Logout).
Qed.

End Logout.

Section LogoutClaim.
Context `{Collaborators}.


End LogoutClaim.



(** ** The guard of [loginWithRedirect] *)

Definition callback_of (r : reaction) : option callback :=
  match r with Then f _ | Catch f _ => Some f | Adopt _ => None end.

(** A closure that leaves the login handle alone. *)
Definition keeps_login (cb : callback) : Prop := clears cb ≠ Some Login.

(** A reaction that cannot touch the promise [h] nor the login handle: it
    settles another promise and its closure, if it has one, does not clear
    the login handle. *)
Definition harmless (h : pid) (r : reaction) : Prop :=
  target r ≠ h /\ from_option keeps_login True (callback_of r).

(** The promise [h] guards the login category: it is the login handle, it
    is pending with no executor, and no reaction of the heap and no job of
    the queue can touch it or the handle. *)
Definition guarded (h : pid) (s : state) : Prop :=
  login (promises s) = Some h
  /\ (h < next_pid s)%nat
  /\ (exists P, heap s !! h = Some P /\ p_origin P = NoExecutor /\ status P = None)
  /\ (forall p P, heap s !! p = Some P -> Forall (harmless h) (reactions P))
  /\ Forall (fun j => harmless h (j_reaction j)) (queue s).

(** The guard looks at the engine and at the login handle only. *)
Lemma guarded_rest (h : pid) (s s' : state) :
  heap s' = heap s -> next_pid s' = next_pid s -> queue s' = queue s ->
  login (promises s') = login (promises s) ->
  guarded h s -> guarded h s'.
Proof. intros Hh Hn Hq Hl. unfold guarded. by rewrite Hh, Hn, Hq, Hl. Qed.

Lemma guarded_new_promise (h : pid) (o : origin) (st : option outcome) :
  preserves (guarded h) (new_promise o st).
Proof.
  intros s (Hl & Hlt & (P & HP & Ho & Hs) & Hheap & Hq).
  unfold new_promise, guarded. cbn.
  split; [done|]. split; [lia|]. split.
  { exists P. by rewrite lookup_insert_ne by lia. }
  split; [|done].
  intros p P'. destruct (decide (p = next_pid s)) as [->|Hne].
  - rewrite lookup_insert_eq. by intros [= <-].
  - rewrite lookup_insert_ne by done. apply Hheap.
Qed.

Lemma guarded_react (h p : pid) (r : reaction) (s : state) :
  harmless h r -> guarded h s -> guarded h (react p r s).
Proof.
  intros Hr Hg. pose proof Hg as (Hl & Hlt & (P & HP & Ho & Hs) & Hheap & Hq).
  unfold react.
  destruct (heap s !! p) as [Pp|] eqn:Hp; [|done].
  destruct (status Pp) as [o|] eqn:Hsp; unfold guarded; cbn.
  - split; [done|]. split; [done|]. split; [by exists P|]. split; [done|].
    apply Forall_app. split; [done|]. by constructor.
  - split; [done|]. split; [done|]. split.
    { destruct (decide (p = h)) as [->|Hne].
      - rewrite lookup_insert_eq. eexists. split; [done|]. cbn.
        rewrite HP in Hp. by injection Hp as <-.
      - exists P. by rewrite lookup_insert_ne. }
    split; [|done].
    intros p' P'. destruct (decide (p' = p)) as [->|Hne].
    + rewrite lookup_insert_eq. intros [= <-]. cbn.
      apply Forall_app. split; [by eapply Hheap|]. by constructor.
    + rewrite lookup_insert_ne by done. apply Hheap.
Qed.

Lemma guarded_settle (h p : pid) (o : outcome) (s : state) :
  p ≠ h -> guarded h s -> guarded h (settle p o s).
Proof.
  intros Hp Hg. pose proof Hg as (Hl & Hlt & (P & HP & Ho & Hs) & Hheap & Hq).
  unfold settle.
  destruct (heap s !! p) as [Pp|] eqn:Hpp; [|done].
  destruct (status Pp) as [o'|] eqn:Hsp; unfold guarded; cbn; [done|].
  split; [done|]. split; [done|]. split.
  { exists P. by rewrite lookup_insert_ne. }
  split.
  - intros p' P'. destruct (decide (p' = p)) as [->|Hne].
    + rewrite lookup_insert_eq. by intros [= <-].
    + rewrite lookup_insert_ne by done. apply Hheap.
  - apply Forall_app. split; [done|].
    apply Forall_fmap. specialize (Hheap p Pp Hpp).
    eapply Forall_impl; [exact Hheap|]. by intros r Hr.
Qed.

Lemma guarded_resolve (h d : pid) (v : value) (s : state) :
  d ≠ h -> guarded h s -> guarded h (resolve d v s).
Proof.
  intros Hd Hs. destruct v; try (by apply guarded_settle).
  cbn [resolve]. apply guarded_react; [|done]. by split.
Qed.

Lemma guarded_p_then (h p : pid) (f : callback) :
  keeps_login f -> preserves (guarded h) (p_then p f).
Proof.
  intros Hf s Hs. rewrite p_then_eq. cbn [snd].
  apply guarded_react; [|by apply guarded_new_promise].
  split; [|done]. cbn. destruct Hs as (_ & Hlt & _). lia.
Qed.

Lemma guarded_p_catch (h p : pid) (g : callback) :
  keeps_login g -> preserves (guarded h) (p_catch p g).
Proof.
  intros Hf s Hs. rewrite p_catch_eq. cbn [snd].
  apply guarded_react; [|by apply guarded_new_promise].
  split; [|done]. cbn. destruct Hs as (_ & Hlt & _). lia.
Qed.

Create HintDb guarding.
#[global] Hint Constants Opaque : guarding.
#[global] Hint Variables Opaque : guarding.

#[global] Hint Resolve preserves_ret preserves_throw preserves_get
  guarded_new_promise guarded_p_then guarded_p_catch preserves_d_provider : guarding.
#[global] Hint Extern 1 (keeps_login _) => done : guarding.

(** Walk down a method with the hints of [guarding]. *)
Ltac keep_guard :=
  repeat first
    [ apply preserves_ret | apply preserves_throw | apply preserves_get
    | solve [eauto with guarding]
    | apply preserves_bind; [|intros ?]
    | apply preserves_forEach; intros ?
    | match goal with
      | |- preserves _ (match ?x with _ => _ end) => destruct x
      | |- preserves _ (let '(_, _) := ?x in _) => destruct x
      | |- preserves _ (if ?x then _ else _) => destruct x
      end
    | apply preserves_modify; intros ? Hs; exact Hs
    | (intros ? Hs; exact Hs) ].

(** While the guard stands every login request returns it and changes
    nothing but the console. *)
Lemma guarded_loginWithIframe (h : pid) (a : iframe_arg) :
  preserves (guarded h) (loginWithIframe a).
Proof. intros s Hs. rewrite (pending_loginWithIframe a h s); [done|apply Hs]. Qed.

Lemma guarded_login_with_window (h : pid) (open : url -> M pid) :
  preserves (guarded h) (login_with_window open).
Proof.
  intros s Hs. unfold login_with_window. unfold_M.
  destruct Hs as [Hl Hs]. by rewrite Hl.
Qed.

Lemma guarded_loginWithRedirect (h : pid) (r : option string) :
  preserves (guarded h) (loginWithRedirect r).
Proof.
  intros s Hs. unfold loginWithRedirect. unfold_M.
  pose proof Hs as [Hl _].
  destruct (redirectLoginCallback (config s)); cbn; by rewrite Hl.
Qed.

#[global] Hint Resolve guarded_loginWithIframe guarded_login_with_window
  guarded_loginWithRedirect : guarding.

Lemma guarded_dd_refreshToken (h : pid) : preserves (guarded h) dd_refreshToken.
Proof. unfold dd_refreshToken, clearTimeout. keep_guard. Qed.

#[global] Hint Resolve guarded_dd_refreshToken : guarding.

Lemma guarded_call_listener (h : pid) (error data : value) (l : listener) :
  preserves (guarded h) (call_listener error data l).
Proof. unfold call_listener, clearTimeout. keep_guard. Qed.

#[global] Hint Resolve guarded_call_listener : guarding.

Lemma guarded_fire (h : pid) (kind : string) (error data : value) :
  preserves (guarded h) (d_fire kind error data).
Proof. unfold d_fire. keep_guard. Qed.

#[global] Hint Resolve guarded_fire : guarding.

Lemma guarded_urls (h : pid) :
  preserves (guarded h) d_accessTokenUrl
  /\ (forall b, preserves (guarded h) (d_loginUrl b))
  /\ preserves (guarded h) d_deauthorizeUrl.
Proof.
  unfold d_accessTokenUrl, d_loginUrl, d_deauthorizeUrl, d_authorizeEndpoint.
  split; [|split; [intros b|]]; keep_guard.
Qed.

Lemma guarded_open_transport (h : pid) (k : transport) (u : url) :
  preserves (guarded h) (open_transport k u).
Proof. unfold open_transport. keep_guard. Qed.

#[global] Hint Resolve guarded_open_transport : guarding.

Lemma guarded_logout_with (h : pid) (k : transport) :
  preserves (guarded h) (logout_with (open_transport k)).
Proof.
  destruct (guarded_urls h) as (_ & _ & Hd). unfold logout_with. keep_guard.
Qed.

Lemma guarded_logoutWithRedirect (h : pid) : preserves (guarded h) logoutWithRedirect.
Proof.
  destruct (guarded_urls h) as (_ & _ & Hd).
  unfold logoutWithRedirect, d_navigate. keep_guard.
Qed.

Lemma guarded_refreshToken (h : pid) : preserves (guarded h) refreshToken.
Proof. unfold refreshToken. keep_guard. Qed.

Lemma guarded_retrieveAccessToken (h : pid) :
  preserves (guarded h) retrieveAccessToken.
Proof.
  unfold retrieveAccessToken, token_login, token_chain, Promise_resolve,
    Promise_reject.
  keep_guard.
Qed.

#[global] Hint Resolve guarded_logout_with guarded_logoutWithRedirect
  guarded_refreshToken guarded_retrieveAccessToken : guarding.

Lemma guarded_call (h : pid) (a : api) : preserves (guarded h) (call a).
Proof.
  destruct a; cbn [call]; unfold returning, returning_nothing, on, off,
    check_event, loginWithPopup, loginWithNewTab, logoutWithIframe,
    logoutWithPopup, logoutWithNewTab, createIframe, openPopup, openNewTab;
    keep_guard.
Qed.

Section Guard.
Context `{Collaborators}.

Lemma guarded_validate (h : pid) (refresh : bool) :
  preserves (guarded h) (d_validate refresh).
Proof. intros s Hs. unfold d_validate. by destruct (validate _ _ _). Qed.

Hint Resolve guarded_validate : guarding.

(** A closure that does not clear the login handle keeps the guard. *)
Lemma guarded_callback (h : pid) (cb : callback) (v : value) :
  keeps_login cb -> preserves (guarded h) (apply_callback cb v).
Proof.
  destruct (guarded_urls h) as (Ha & _ & _).
  intros Hcb. destruct cb; try (by exfalso; apply Hcb);
    cbn [apply_callback];
    unfold login_response, Promise_reject, createIframe, clearTimeout;
    keep_guard.
Qed.

Lemma guarded_run_job (h : pid) (j : job) (s : state) :
  harmless h (j_reaction j) -> guarded h s -> guarded h (run_job j s).
Proof.
  intros [Ht Hcb] Hs. destruct j as [[f d|g d|d] [v|e]]; cbn in *;
    try (by apply guarded_settle).
  - unfold run_reaction.
    pose proof (guarded_callback h f v Hcb s Hs) as Hs'.
    destruct (apply_callback f v s) as [[v'|e] s']; cbn in Hs';
      [by apply guarded_resolve|by apply guarded_settle].
  - unfold run_reaction.
    pose proof (guarded_callback h g e Hcb s Hs) as Hs'.
    destruct (apply_callback g e s) as [[v'|e'] s']; cbn in Hs';
      [by apply guarded_resolve|by apply guarded_settle].
Qed.

Lemma guarded_microtask (h : pid) (s : state) :
  guarded h s -> guarded h (microtask s).
Proof.
  intros Hs. unfold microtask. destruct (queue s) as [|j q] eqn:Hq; [done|].
  pose proof Hs as (Hl & Hlt & HP & Hheap & Hjobs).
  rewrite Hq in Hjobs. apply Forall_cons in Hjobs as [Hj Hjobs].
  apply guarded_run_job; [done|].
  unfold guarded. cbn. done.
Qed.

Lemma guarded_uncaught {A} (h : pid) (m : M A) (s : state) :
  preserves (guarded h) m -> guarded h s -> guarded h (uncaught m s).
Proof.
  intros Hm Hs. unfold uncaught. specialize (Hm s Hs).
  by destruct (m s) as [[a|e] s'].
Qed.

Lemma guarded_onRouteChanged (h : pid) : preserves (guarded h) dd_onRouteChanged.
Proof. unfold dd_onRouteChanged. keep_guard. Qed.

Lemma guarded_onVisibilityChanged (h : pid) (hidden : bool) :
  preserves (guarded h) (dd_onVisibilityChanged hidden).
Proof. unfold dd_onVisibilityChanged. keep_guard. Qed.

Lemma guarded_run_timer (h : pid) (cb : timer_callback) :
  preserves (guarded h) (run_timer cb).
Proof.
  pose proof (guarded_onRouteChanged h).
  destruct cb; cbn [run_timer]; unfold login_response, d_navigate; keep_guard.
Qed.

(** Every event of the page keeps the guard. *)
Lemma guarded_step (h : pid) (e : event) (s : state) :
  guarded h s -> guarded h (step e s).
Proof.
  intros Hs. destruct e as [a| |time|id|p o params|location|hidden]; cbn [step].
  - by apply guarded_call.
  - by apply guarded_microtask.
  - by destruct (now s <=? time).
  - destruct (queue s); [|done]. cbn [task].
    destruct (armed s !! id) as [[cb delay]|]; [|done].
    apply guarded_uncaught; [apply guarded_run_timer|done].
  - destruct (queue s); [|done]. cbn [task].
    destruct (heap s !! p) as [[[k| | |] [o'|] R]|] eqn:Hp; try done.
    apply guarded_settle.
    + intros ->. destruct Hs as (_ & _ & (P & HP & Ho & _) & _).
      rewrite HP in Hp. injection Hp as ->. done.
    + by destruct k, o.
  - destruct (queue s); [|done]. cbn [task].
    destruct (watching s); [|done].
    apply guarded_uncaught; [apply guarded_onRouteChanged|done].
  - destruct (queue s); [|done]. cbn [task].
    destruct (watching s); [|done].
    apply guarded_uncaught; [apply guarded_onVisibilityChanged|done].
Qed.

Lemma guarded_run (h : pid) (es : list event) (s : state) :
  guarded h s -> guarded h (run es s).
Proof.
  revert s. induction es as [|e es IH]; intros s Hs; [done|].
  cbn. apply IH. by apply guarded_step.
Qed.

End Guard.

(** ** The redirect flow *)

(** A reaction of an earlier flow that is no login: it settles a promise
    that exists and its closure does not clear the login handle. *)
Definition bystander (n : pid) (r : reaction) : Prop :=
  (target r < n)%nat /\ from_option keeps_login True (callback_of r).

#[global] Instance bystander_dec (n : pid) (r : reaction) : Decision (bystander n r).
Proof.
  unfold bystander, keeps_login. destruct (callback_of r); cbn; apply _.
Defined.

(** No closure of a login flow is outstanding. *)
Definition no_login_flow (s : state) : Prop :=
  map_Forall (fun _ P => Forall (bystander (next_pid s)) (reactions P)) (heap s)
  /\ Forall (fun j => bystander (next_pid s) (j_reaction j)) (queue s).

Lemma bystander_harmless (n : pid) (r : reaction) : bystander n r -> harmless n r.
Proof. intros [Hlt Hcb]. split; [lia|done]. Qed.

(** [loginWithRedirect] when no login is pending and none is winding up:
    the promise it makes guards the login category. *)
Lemma loginWithRedirect_guards (r : option string) (s : state) (h : pid) (s1 : state) :
  login (promises s) = None -> no_login_flow s ->
  loginWithRedirect r s = (Ok h, s1) ->
  guarded h s1.
Proof.
  intros Hidle [Hheap Hq] Hs.
  apply loginWithRedirect_started in Hs as (-> & Hh & Hn & Hpr & _ & Hq1); [|done].
  unfold guarded. rewrite Hh, Hn, Hpr, Hq1. cbn.
  split; [done|]. split; [lia|]. split.
  { eexists. by rewrite lookup_insert_eq. }
  split.
  - intros p P. destruct (decide (p = next_pid s)) as [->|Hne].
    + rewrite lookup_insert_eq. by intros [= <-].
    + rewrite lookup_insert_ne by done. intros Hp.
      eapply Forall_impl; [exact (Hheap p P Hp)|]. apply bystander_harmless.
  - eapply Forall_impl; [exact Hq|]. intros j. apply bystander_harmless.
Qed.

Section RedirectClaim.
Context `{Collaborators}.

(** C7, amended.  When no login is pending and no closure of an earlier
    login flow is outstanding, [loginWithRedirect] navigates and returns a
    promise [h] that stays pending whatever happens on the page afterwards:
    after any events the login handle is still [h], and every login request,
    of any flow type, returns [h] and opens no transport and no navigation.
    When a login is pending, [loginWithRedirect] returns the handle of that
    login and does not navigate. *)
Theorem redirect_promise_guards_login
    (r : option string) (s : state) (h : pid) (s1 : state)
    (es : list event) (a : api) (s0 : state) (p : pid) :
  login (promises s) = None -> no_login_flow s ->
  loginWithRedirect r s = (Ok h, s1) ->
  category a = Some login ->
  login (promises s0) = Some p ->
  let s' := run es s1 in
  ((exists u, opened s1 = opened s ++ [(Navigate, u)])
   /\ (exists P, heap s' !! h = Some P /\ p_origin P = NoExecutor /\ status P = None)
   /\ login (promises s') = Some h
   /\ fst (call a s') = Ok (VPromise h)
   /\ opened (snd (call a s')) = opened s')
  /\ (fst (loginWithRedirect r s0) = Ok p
      /\ opened (snd (loginWithRedirect r s0)) = opened s0).
Proof.
  intros Hidle Hwf Hs Ha Hp. cbn zeta. split.
  - pose proof (loginWithRedirect_guards r s h s1 Hidle Hwf Hs) as Hg.
    apply (guarded_run h es) in Hg. destruct Hg as (Hl & _ & HP & _).
    apply loginWithRedirect_started in Hs as (_ & _ & _ & _ & Hop & _); [|done].
    split; [done|]. split; [done|]. split; [done|].
    destruct (pending_request_returns_handle a login h (run es s1) Ha Hl)
      as (Hr & Ho & _).
    done.
  - destruct (pending_request_returns_handle (LoginWithRedirect r) login p s0
                eq_refl Hp) as (Hr & Ho & _).
    cbn [call] in Hr, Ho. unfold returning in Hr, Ho. unfold_M.
    destruct (loginWithRedirect r s0) as [[q|e] sq]; cbn in *; [|done].
    by injection Hr as ->.
Qed.

End RedirectClaim.

(** C7 on the demo page.  Called while a login by iframe is pending,
    [loginWithRedirect] returns the promise of that login and does not
    navigate; once the iframe has landed the promise is fulfilled, the login
    handle is idle, and a login by popup opens its window. *)
Lemma redirect_promise_may_settle :
  let s1 := @run demo_collaborators [Call (LoginWithIframe NoArg)] demo_instance in
  let s2 := @run demo_collaborators [Call (LoginWithRedirect None)] s1 in
  let s3 :=
    @run demo_collaborators
      [TransportSettles 0 (Fulfilled undefined) []; Microtask; Microtask] s2 in
  login (promises s1) = Some 2%nat
  /\ fst (call (LoginWithRedirect None) s1) = Ok (VPromise 2%nat)
  /\ (fst <$> opened s1) = [Iframe]
  /\ (fst <$> opened s2) = [Iframe]
  /\ (status <$> heap s3 !! 2%nat)
     = Some (Some (Fulfilled (VUser {| exp := 1120 |})))
  /\ login (promises s3) = None
  /\ (fst <$> opened (snd (call LoginWithPopup s3))) = [Iframe; Popup].
Proof. vm_compute. repeat split. Qed.

(** A validation that rejects everything. *)
Definition strict_collaborators : Collaborators :=
  {| parseParams := fun _ p => p;
     validate := fun _ _ p => (Some (VErr "ReferenceError" "nonce mismatch"), p);
     isRouteSecure := fun _ => false |}.

(** Why no closure of a login may be outstanding: a login by iframe whose
    validation has failed has cleared the handle in [then] and clears it
    again in [catch]; a [loginWithRedirect] called between the two loses
    its guard. *)
Example redirect_guard_lost_to_winding_up_login :
  let s1 :=
    @run strict_collaborators
      [Call (LoginWithIframe NoArg); TransportSettles 0 (Fulfilled undefined) [];
       Microtask] demo_instance in
  let s2 :=
    @run strict_collaborators
      [Call (LoginWithRedirect None); Microtask; Microtask] s1 in
  login (promises s1) = None
  /\ (j_reaction <$> queue s1) = [Adopt 1%nat]
  /\ fst (call (LoginWithRedirect None) s1) = Ok (VPromise 4%nat)
  /\ heap s2 !! 4%nat = Some (blank NoExecutor)
  /\ login (promises s2) = None
  /\ (fst <$> opened (snd (call LoginWithPopup s2))) = [Iframe; Navigate; Popup].
Proof. vm_compute. repeat split. Qed.

Lemma redirect_promise_guards_login_witness :
  let s1 := snd (loginWithRedirect None logging_out) in
  let s' :=
    @run demo_collaborators
      [Call LoginWithPopup; TransportSettles 0 (Rejected boom) [];
       Microtask; Microtask; Microtask; Call RetrieveAccessToken;
       Tick 2000000; TimerFires 1; Microtask] s1 in
  ((exists u, opened s1 = opened logging_out ++ [(Navigate, u)])
   /\ (exists P, heap s' !! 3%nat = Some P
                 /\ p_origin P = NoExecutor /\ status P = None)
   /\ login (promises s') = Some 3%nat
   /\ fst (call (LoginWithIframe NoArg) s') = Ok (VPromise 3%nat)
   /\ opened (snd (call (LoginWithIframe NoArg) s')) = opened s')
  /\ (fst (loginWithRedirect None s1) = Ok 3%nat
      /\ opened (snd (loginWithRedirect None s1)) = opened s1).
Proof.
  apply (@redirect_promise_guards_login demo_collaborators None logging_out
           3%nat _ _ (LoginWithIframe NoArg) _ 3%nat).
  - vm_compute. reflexivity.
  - apply (bool_decide_unpack _). vm_compute. exact I.
  - assert (fst (loginWithRedirect None logging_out) = Ok 3%nat) as Hr
      by (vm_compute; reflexivity).
    destruct (loginWithRedirect None logging_out); cbn in *. by rewrite Hr.
  - reflexivity.
  - vm_compute. reflexivity.
Defined.

(** * Further properties of the controller *)

(** ** The registry: [on], [off] and [$fire] together *)

Lemma indexOf_from_first {A} `{EqDecision A} (x : A) (l1 l2 : list A) (i : Z) :
  x ∉ l1 -> indexOf_from x (l1 ++ x :: l2) i = i + Z.of_nat (length l1).
Proof.
  revert i. induction l1 as [|y l1 IH]; intros i Hx; cbn.
  - rewrite decide_True by done. lia.
  - apply not_elem_of_cons in Hx as [Hne Hx].
    rewrite decide_False by done. rewrite IH by done. lia.
Qed.

(** The listeners of a kind, as [$fire] and [on] read them: an absent list
    counts as empty. *)
Definition registered (eventType : string) (s : state) : list listener :=
  default [] (listeners s !! eventType).

Lemma off_first (eventType : string) (f : listener) (l1 l2 : list listener)
    (s : state) :
  eventType ∈ event_types ->
  listeners s !! eventType = Some (l1 ++ f :: l2) ->
  f ∉ l1 ->
  off eventType (Fn f) s
  = (Ok tt, upd_listeners (insert eventType (l1 ++ l2)) s).
Proof.
  intros Hkind Hls Hf. unfold off. unfold_M.
  rewrite check_event_known by done. rewrite Hls.
  unfold indexOf. rewrite indexOf_from_first by done. rewrite Z.add_0_l.
  rewrite splice_at. by destruct l1.
Qed.


(** A page where one callback is registered twice for 'login'. *)
Definition twice_registered : state :=
  upd_listeners
    (insert "login" [RenewOnLogin; AppFn 1 None; AppFn 2 None; AppFn 1 None])
    logged_in.


(** X2.  [on(kind, f)] followed by [off(kind, f)], for a function that was
    not registered for the kind, gives back the listeners of every kind;
    both calls return normally.  A kind that had no list is left with an
    empty one. *)
Theorem on_then_off_restores_listeners
    (eventType : string) (f : listener) (s : state) :
  eventType ∈ event_types ->
  f ∉ registered eventType s ->
  let s1 := snd (on eventType (Fn f) s) in
  let s2 := snd (off eventType (Fn f) s1) in
  fst (on eventType (Fn f) s) = Ok tt
  /\ fst (off eventType (Fn f) s1) = Ok tt
  /\ s2 = upd_listeners (insert eventType (registered eventType s)) s1
  /\ (forall kind, registered kind s2 = registered kind s).
Proof.
  intros Hkind Hf. cbn zeta.
  assert (on eventType (Fn f) s
          = (Ok tt, upd_listeners
                      (fun m => <[eventType := registered eventType s ++ [f]]> m) s))
    as Hon.
  { unfold on. unfold_M. by rewrite check_event_known. }
  rewrite Hon. cbn [fst snd].
  set (s1 := upd_listeners _ s).
  assert (off eventType (Fn f) s1
          = (Ok tt, upd_listeners (insert eventType (registered eventType s ++ [])) s1))
    as Hoff.
  { apply off_first; [done| |done].
    unfold s1. cbn. by rewrite lookup_insert_eq. }
  rewrite app_nil_r in Hoff. rewrite Hoff. cbn [fst snd].
  split; [done|]. split; [done|]. split; [done|].
  intros kind. unfold registered, s1. cbn.
  destruct (decide (kind = eventType)) as [->|Hne].
  - by rewrite lookup_insert_eq.
  - by rewrite !lookup_insert_ne.
Qed.

Lemma on_then_off_restores_listeners_witness :
  let s1 := snd (on "expired" (Fn (AppFn 7 None)) demo_instance) in
  let s2 := snd (off "expired" (Fn (AppFn 7 None)) s1) in
  fst (on "expired" (Fn (AppFn 7 None)) demo_instance) = Ok tt
  /\ fst (off "expired" (Fn (AppFn 7 None)) s1) = Ok tt
  /\ s2 = upd_listeners (insert "expired" (registered "expired" demo_instance)) s1
  /\ (forall kind, registered kind s2 = registered kind demo_instance).
Proof.
  apply (on_then_off_restores_listeners "expired" (AppFn 7 None) demo_instance).
  - apply (bool_decide_unpack _). vm_compute. exact I.
  - apply (bool_decide_unpack _). vm_compute. exact I.
Defined.



(** ** When a URL cannot be built *)

(** [$provider] reads the configuration and the table of providers only. *)
Lemma d_provider_setup (s s' : state) :
  config s' = config s -> providers s' = providers s ->
  fst (d_provider s') = fst (d_provider s).
Proof.
  intros Hc Hp. unfold d_provider. rewrite Hc, Hp.
  destruct (c_provider (config s)) as [|name|p]; [done| |done].
  destruct (String.eqb name ""); [done|]. by destruct (providers s !! name).
Qed.

(** [$loginUrl] stores the new state and nonce before it asks for the
    provider: when that throws, they stay. *)
Lemma d_loginUrl_throws (b : bool) (e : value) (s : state) :
  fst (d_provider s) = Throw e -> d_loginUrl b s = (Throw e, correlated s).
Proof.
  intros He.
  pose proof (d_loginUrl_state b s) as Hs.
  assert (fst (d_loginUrl b s) = Throw e) as Hr.
  { unfold d_loginUrl, d_authorizeEndpoint. unfold_M. cbn.
    match goal with |- context [d_provider ?x] =>
      rewrite <- (d_provider_setup s x) in He by done;
      destruct (d_provider x) as [[p|e'] sp]
    end; cbn in *; congruence. }
  destruct (d_loginUrl b s) as [r s']. cbn in *. by subst.
Qed.

(** X4.  A logout whose deauthorize URL cannot be built, because the
    provider is unknown or has no [deauthorizeUrl], throws before anything
    is done: the profile is not cleared, no handle is set and no transport
    is opened.  This holds for [logoutWithRedirect] and, while no logout is
    pending, for the logouts by iframe, popup and new tab. *)
Theorem logout_fails_before_clearing (a : api) (e : value) (s : state) :
  fst (d_deauthorizeUrl s) = Throw e ->
  a = LogoutWithRedirect \/ (flow a = Some Logout /\ logout (promises s) = None) ->
  call a s = (Throw e, s).
Proof.
  intros He Ha.
  assert (d_deauthorizeUrl s = (Throw e, s)) as Hu.
  { pose proof (d_deauthorizeUrl_state s) as Hs.
    destruct (d_deauthorizeUrl s) as [r s']. cbn in *. by subst. }
  destruct Ha as [->|[Ha Hidle]].
  - cbn [call]. unfold returning_nothing, logoutWithRedirect. unfold_M.
    by rewrite Hu.
  - destruct a; try discriminate Ha; cbn [call];
      unfold returning, logoutWithIframe, logoutWithPopup, logoutWithNewTab,
        logout_with; unfold_M; by rewrite Hidle, Hu.
Qed.

(** A provider object that defines nothing, and the demo page configured
    with it. *)
Definition bare_provider : Provider :=
  {| authorizeEndpoint := None; deauthorizeUrl := None;
     defaultConfig := no_defaults |}.

Definition bare_config : Config :=
  {| providerUrl := "https://idp.example"; responseType := "id_token";
     c_provider := Custom bare_provider; loginType := None; autoRefresh := None;
     autoRefreshBuffer := None; redirectLoginCallback := None |}.

Definition bare_instance : state :=
  match @constructor demo_collaborators demo_window (Some bare_config) with
  | (Ok this, _) => upd_profile (@parseParams demo_collaborators []) this
  | (Throw _, _) => fresh_instance demo_window bare_config
  end.

Lemma logout_fails_before_clearing_witness :
  call LogoutWithPopup bare_instance
  = (Throw (TypeError "this.$provider.deauthorizeUrl is undefined"), bare_instance).
Proof.
  apply (logout_fails_before_clearing LogoutWithPopup).
  - vm_compute. reflexivity.
  - right. split; [reflexivity|]. vm_compute. reflexivity.
Defined.

(** [loginWithRedirect] up to the point where [$loginUrl] throws. *)
Lemma loginWithRedirect_throws (r : option string) (e : value) (s : state) :
  login (promises s) = None -> fst (d_provider s) = Throw e ->
  exists s1,
    loginWithRedirect r s = (Throw e, s1)
    /\ promises s1 = set_login (Some (next_pid s)) (promises s)
    /\ heap s1 = <[next_pid s := blank NoExecutor]> (heap s)
    /\ next_pid s1 = S (next_pid s)
    /\ queue s1 = queue s
    /\ opened s1 = opened s
    /\ config s1 = config s /\ providers s1 = providers s.
Proof.
  intros Hidle He. unfold loginWithRedirect, new_promise. unfold_M.
  destruct (redirectLoginCallback (config s)); cbn; rewrite Hidle; cbn;
    match goal with |- context [d_loginUrl false ?x] =>
      rewrite (d_loginUrl_throws false e x)
        by (rewrite <- He; by apply d_provider_setup)
    end; eexists; (split; [reflexivity|]); cbn; done.
Qed.

(** X5.  When [$provider] throws while [loginWithRedirect] builds the login
    URL, the promise that guards the login category has been stored
    already: the call throws without navigating, the login handle holds
    that promise, pending and without executor, and a login request made
    next returns it and opens nothing. *)
Theorem failed_redirect_blocks_logins
    (r : option string) (e : value) (s : state) (a : api) :
  login (promises s) = None ->
  fst (d_provider s) = Throw e ->
  category a = Some login ->
  let s1 := snd (loginWithRedirect r s) in
  fst (loginWithRedirect r s) = Throw e
  /\ opened s1 = opened s
  /\ login (promises s1) = Some (next_pid s)
  /\ heap s1 !! next_pid s = Some (blank NoExecutor)
  /\ fst (call a s1) = Ok (VPromise (next_pid s))
  /\ opened (snd (call a s1)) = opened s.
Proof.
  intros Hidle He Ha. cbn zeta.
  destruct (loginWithRedirect_throws r e s Hidle He)
    as (s1 & -> & Hpr & Hh & _ & _ & Hop & _).
  cbn [fst snd].
  assert (login (promises s1) = Some (next_pid s)) as Hl by (by rewrite Hpr).
  destruct (pending_request_returns_handle a login (next_pid s) s1 Ha Hl)
    as (Hr & Ho & _).
  rewrite Hh, lookup_insert_eq, Ho, Hop. done.
Qed.

Definition unconfigured_instance : state :=
  fresh_instance demo_window unknown_provider_config.

Lemma failed_redirect_blocks_logins_witness :
  let s1 := snd (loginWithRedirect None unconfigured_instance) in
  fst (loginWithRedirect None unconfigured_instance)
  = Throw (ReferenceError "Unknown Provider (nope)")
  /\ opened s1 = opened unconfigured_instance
  /\ login (promises s1) = Some (next_pid unconfigured_instance)
  /\ heap s1 !! next_pid unconfigured_instance = Some (blank NoExecutor)
  /\ fst (call LoginWithPopup s1) = Ok (VPromise (next_pid unconfigured_instance))
  /\ opened (snd (call LoginWithPopup s1)) = opened unconfigured_instance.
Proof.
  apply (failed_redirect_blocks_logins None
           (ReferenceError "Unknown Provider (nope)") unconfigured_instance
           LoginWithPopup).
  - vm_compute. reflexivity.
  - vm_compute. reflexivity.
  - reflexivity.
Defined.

(** ** What every event of the page keeps *)

(** The configuration, the table of providers and the listeners. *)
Definition registry_of (s : state) :=
  (config s, providers s, listeners s).

(** [I] looks at the timers, the configuration and the listeners only; the
    steps that touch the timers keep it. *)
Section Everywhere.
Context `{Collaborators}.
Variable I : state -> Prop.
Hypothesis rest :
  forall s s', timers_of s' = timers_of s -> registry_of s' = registry_of s ->
               I s -> I s'.
Hypothesis rearm : preserves I dd_refreshToken.
Hypothesis cancel_held : forall s id, I s -> I (upd_armed (delete id) s).
Hypothesis stop :
  forall s, I s ->
    I (upd_timeouts (set_t_refresh Nulled)
         (snd (clearTimeout (t_refresh (timeouts s)) s))).

Lemma everywhere_flow_blind : flow_blind I.
Proof. intros s Hh n Q pr pf u o c. by apply rest. Qed.

Local Hint Resolve everywhere_flow_blind : pres.

(** Walk down a method; an update [I] does not see is closed by [rest]. *)
Ltac everywhere :=
  repeat first
    [ apply preserves_ret | apply preserves_throw | apply preserves_get
    | solve [eauto with pres]
    | apply preserves_bind; [|intros ?]
    | apply preserves_forEach; intros ?
    | match goal with
      | |- preserves _ (match ?x with _ => _ end) => destruct x
      | |- preserves _ (let '(_, _) := ?x in _) => destruct x
      | |- preserves _ (if ?x then _ else _) => destruct x
      end
    | (apply preserves_modify; intros ? ?; eapply rest; [| |eassumption];
       reflexivity) ].

Lemma everywhere_clearTimeout (x : slot) : preserves I (clearTimeout x).
Proof.
  destruct x; cbn [clearTimeout]; [apply preserves_ret| |apply preserves_ret].
  apply preserves_modify. intros s. apply cancel_held.
Qed.

Local Hint Resolve everywhere_clearTimeout rearm : pres.

Lemma everywhere_call_listener (error data : value) (l : listener) :
  preserves I (call_listener error data l).
Proof. unfold call_listener. everywhere. Qed.

Local Hint Resolve everywhere_call_listener : pres.

Lemma everywhere_fire (kind : string) (error data : value) :
  preserves I (d_fire kind error data).
Proof. unfold d_fire. everywhere. Qed.

Local Hint Resolve everywhere_fire : pres.

Lemma everywhere_validate (refresh : bool) : preserves I (d_validate refresh).
Proof.
  intros s Hs. unfold d_validate. destruct (validate _ _ _). cbn.
  by eapply rest; [| |exact Hs].
Qed.

Lemma everywhere_parseParams : preserves I d_parseParams.
Proof. unfold d_parseParams. everywhere. Qed.

Local Hint Resolve everywhere_validate everywhere_parseParams : pres.

Lemma everywhere_callback (cb : callback) (v : value) :
  preserves I (apply_callback cb v).
Proof.
  destruct cb; cbn [apply_callback];
    unfold login_response, Promise_reject, createIframe;
    try (everywhere; fail).
  (* StopRenewalThen *)
  intros s Hs. unfold_M. cbn.
  pose proof (stop s Hs) as Hstop.
  destruct (t_refresh (timeouts s)); cbn in *; exact Hstop.
Qed.

Lemma everywhere_microtask (s : state) : I s -> I (microtask s).
Proof.
  intros Hs. unfold microtask. destruct (queue s) as [|j q]; [done|].
  assert (engine_blind I) as HI by (apply flow_blind_engine, everywhere_flow_blind).
  assert (I (upd_queue (fun _ => q) s)) as Hs'
    by (eapply rest; [| |exact Hs]; reflexivity).
  revert Hs'. generalize (upd_queue (fun _ => q) s). clear s Hs. intros s Hs.
  assert (forall cb d v, I (run_reaction cb d v s)) as Hrun.
  { intros cb d v. unfold run_reaction.
    pose proof (everywhere_callback cb v s Hs) as Ha.
    destruct (apply_callback cb v s) as [[v'|e] s']; cbn in Ha;
      [by apply engine_blind_resolve|by apply engine_blind_settle]. }
  destruct j as [[f d|g d|d] [v|e]]; cbn [run_job];
    first [apply Hrun | by apply engine_blind_settle].
Qed.

Lemma everywhere_uncaught {A} (m : M A) (s : state) :
  preserves I m -> I s -> I (uncaught m s).
Proof.
  intros Hm Hs. unfold uncaught. specialize (Hm s Hs).
  destruct (m s) as [[a|e] s']; cbn in Hm; [done|].
  eapply rest; [| |exact Hm]; reflexivity.
Qed.

Lemma everywhere_onRouteChanged : preserves I dd_onRouteChanged.
Proof. unfold dd_onRouteChanged. everywhere. Qed.

Lemma everywhere_onVisibilityChanged (hidden : bool) :
  preserves I (dd_onVisibilityChanged hidden).
Proof. unfold dd_onVisibilityChanged. everywhere. Qed.

Local Hint Resolve everywhere_onRouteChanged : pres.

Lemma everywhere_run_timer (cb : timer_callback) : preserves I (run_timer cb).
Proof.
  destruct cb; cbn [run_timer]; unfold login_response, d_navigate; everywhere.
Qed.

Lemma everywhere_task (e : event) (s : state) : I s -> I (task e s).
Proof.
  intros Hs.
  assert (engine_blind I) as HI by (apply flow_blind_engine, everywhere_flow_blind).
  destruct e as [a| |time|id|p o params|location|hidden]; cbn [task]; try done.
  - destruct (armed s !! id) as [[cb delay]|]; [|done].
    apply everywhere_uncaught; [apply everywhere_run_timer|by apply cancel_held].
  - destruct (heap s !! p) as [[[k| | |] [o'|] R]|]; try done.
    apply engine_blind_settle; [done|].
    destruct k, o; cbn [land]; (eapply rest; [| |exact Hs]; reflexivity).
  - destruct (watching s); [|done].
    apply everywhere_uncaught; [apply everywhere_onRouteChanged|].
    eapply rest; [| |exact Hs]; reflexivity.
  - destruct (watching s); [|done].
    by apply everywhere_uncaught; [apply everywhere_onVisibilityChanged|].
Qed.

(** A call that is neither [on] nor [off]. *)
Definition registers (a : api) : bool :=
  match a with On _ _ | Off _ _ => true | _ => false end.

Lemma everywhere_call (a : api) : registers a = false -> preserves I (call a).
Proof.
  destruct a; try discriminate; intros _; cbn [call];
    unfold returning, returning_nothing, logoutWithIframe, logoutWithPopup,
      logoutWithNewTab, createIframe, openPopup, openNewTab;
    everywhere.
Qed.

Definition registering (e : event) : bool :=
  match e with Call a => registers a | _ => false end.

Lemma everywhere_step (e : event) (s : state) :
  registering e = false -> I s -> I (step e s).
Proof.
  intros He Hs.
  destruct e as [a| |time|id|p o params|location|hidden]; cbn [step].
  - by apply everywhere_call.
  - by apply everywhere_microtask.
  - destruct (now s <=? time); [|done]. eapply rest; [| |exact Hs]; reflexivity.
  - destruct (queue s); [|done]. by apply everywhere_task.
  - destruct (queue s); [|done]. by apply everywhere_task.
  - destruct (queue s); [|done]. by apply everywhere_task.
  - destruct (queue s); [|done]. by apply everywhere_task.
Qed.

End Everywhere.

(** ** The configuration and the listener table *)

Lemma registry_rearm (R : _) :
  preserves (fun s => registry_of s = R) dd_refreshToken.
Proof.
  intros s Hs. pose proof (dd_refreshToken_frame s) as Hf. cbn zeta in Hf.
  destruct Hf as (_ & _ & _ & _ & _ & _ & _ & _ & Hl & Hc & _).
  rewrite <- Hs. unfold registry_of. rewrite Hl, Hc. f_equal. f_equal.
  unfold dd_refreshToken, clearTimeout, setTimeout. unfold_M. cbn.
  destruct (t_refresh (timeouts s)); cbn;
    destruct (t_expired (timeouts s)); cbn;
    destruct (userinfo (profile s)); cbn; reflexivity.
Qed.

(** What [on] and [off] do to the listener table is a function of the
    table. *)
Lemma registration_listeners (a : api) (s1 s2 : state) :
  registers a = true ->
  listeners s1 = listeners s2 ->
  listeners (snd (call a s1)) = listeners (snd (call a s2))
  /\ config (snd (call a s1)) = config s1
  /\ providers (snd (call a s1)) = providers s1.
Proof.
  intros Ha Hl.
  destruct a as [k c|k c| | | | | | | | | |]; try discriminate Ha; cbn [call];
    unfold returning_nothing, on, off, check_event; unfold_M;
    (destruct (decide (indexOf k event_types = -1)); [done|]);
    (destruct c as [l|v]; [|done]); cbn.
  - by rewrite Hl.
  - rewrite Hl. by destruct (listeners s2 !! k) as [[|l0 ls]|]; cbn; rewrite ?Hl.
Qed.

Section Stable.
Context `{Collaborators}.

Lemma registry_step (e : event) (s : state) :
  registering e = false -> registry_of (step e s) = registry_of s.
Proof.
  intros He.
  apply (everywhere_step (fun s' => registry_of s' = registry_of s)); try done.
  - intros s1 s2 _ Hr Hs1. by rewrite Hr.
  - apply registry_rearm.
  - intros s1 Hs1. by destruct (t_refresh (timeouts s1)).
Qed.


End Stable.

(** ** Renewal timers do not pile up *)

(** Every armed refresh timer is the one [$timeouts.refresh] holds, every
    armed expired timer the one [$timeouts.expired] holds, and the ids of
    the armed timers were handed out by [setTimeout]. *)
Definition renewal_timers_held (s : state) : Prop :=
  (forall id d, armed s !! id = Some (RefreshTick, d) ->
                t_refresh (timeouts s) = TimerId id)
  /\ (forall id d, armed s !! id = Some (ExpiredTick, d) ->
                   t_expired (timeouts s) = TimerId id)
  /\ (forall id x, armed s !! id = Some x -> (id < next_timer s)%nat).

Lemma held_cancel (s : state) (id : nat) :
  renewal_timers_held s -> renewal_timers_held (upd_armed (delete id) s).
Proof.
  intros (Hr & He & Hn). unfold renewal_timers_held. cbn.
  split; [|split]; intros id' x Hx; apply lookup_delete_Some in Hx as [_ Hx];
    eauto.
Qed.

(** The timers [$$refreshToken] leaves when the profile has no user
    information: it has cancelled the two it held and throws. *)
Lemma dd_refreshToken_cancels (s : state) :
  userinfo (profile s) = None ->
  let s' := snd (dd_refreshToken s) in
  timeouts s' = timeouts s
  /\ armed s' = cancel (t_expired (timeouts s)) (cancel (t_refresh (timeouts s)) (armed s))
  /\ next_timer s' = next_timer s.
Proof.
  intros Hu. unfold dd_refreshToken. unfold_M. cbn.
  destruct (t_refresh (timeouts s)); cbn;
    destruct (t_expired (timeouts s)); cbn; rewrite Hu; cbn; done.
Qed.

Lemma held_rearm : preserves renewal_timers_held dd_refreshToken.
Proof.
  intros s (Hr & He & Hn).
  destruct (userinfo (profile s)) as [u|] eqn:Hu.
  - destruct (dd_refreshToken_timers s u Hu) as (_ & Ht & Ha & Hnt).
    cbn zeta in *. unfold renewal_timers_held. rewrite Ht, Ha, Hnt. cbn.
    assert (forall id x,
              (<[S (next_timer s) := (ExpiredTick, Z.max (exp u * 1000 - now s) 0)]>
                 (<[next_timer s := (RefreshTick, refresh_delay s u)]>
                    (cancel (t_expired (timeouts s))
                       (cancel (t_refresh (timeouts s)) (armed s))))) !! id = Some x ->
              (id = S (next_timer s) /\ fst x = ExpiredTick)
              \/ (id = next_timer s /\ fst x = RefreshTick)
              \/ (armed s !! id = Some x
                  /\ t_refresh (timeouts s) ≠ TimerId id
                  /\ t_expired (timeouts s) ≠ TimerId id)) as Hcases.
    { intros id x Hx.
      apply lookup_insert_Some in Hx as [[<- <-]|[Hne1 Hx]]; [by left|].
      apply lookup_insert_Some in Hx as [[<- <-]|[Hne2 Hx]]; [by right; left|].
      right; right. rewrite !cancel_lookup in Hx.
      destruct (decide (t_expired (timeouts s) = TimerId id)); [done|].
      destruct (decide (t_refresh (timeouts s) = TimerId id)); done. }
    split; [|split].
    + intros id d Hx.
      destruct (Hcases _ _ Hx) as [[_ [=]]|[[-> _]|(Hold & Hne & _)]]; [done|].
      by apply Hr in Hold.
    + intros id d Hx.
      destruct (Hcases _ _ Hx) as [[-> _]|[[_ [=]]|(Hold & _ & Hne)]]; [done|].
      by apply He in Hold.
    + intros id x Hx.
      destruct (Hcases _ _ Hx) as [[-> _]|[[-> _]|(Hold & _)]]; [lia|lia|].
      apply Hn in Hold. lia.
  - destruct (dd_refreshToken_cancels s Hu) as (Ht & Ha & Hnt).
    cbn zeta in *. unfold renewal_timers_held. rewrite Ht, Ha, Hnt.
    assert (forall id x,
              cancel (t_expired (timeouts s))
                (cancel (t_refresh (timeouts s)) (armed s)) !! id = Some x ->
              armed s !! id = Some x) as Hsub.
    { intros id x. rewrite !cancel_lookup. by repeat case_decide. }
    split; [|split]; intros id x Hx; apply Hsub in Hx; eauto.
Qed.

Lemma held_stop (s : state) :
  renewal_timers_held s ->
  renewal_timers_held
    (upd_timeouts (set_t_refresh Nulled)
       (snd (clearTimeout (t_refresh (timeouts s)) s))).
Proof.
  intros (Hr & He & Hn). unfold renewal_timers_held.
  destruct (t_refresh (timeouts s)) as [|r|] eqn:Hslot; cbn.
  - split; [|split]; [|done..]. intros id d Hx. apply Hr in Hx. congruence.
  - split; [|split]; intros id x Hx; apply lookup_delete_Some in Hx as [Hne Hx];
      [|by eauto..].
    apply Hr in Hx. congruence.
  - split; [|split]; [|done..]. intros id d Hx. apply Hr in Hx. congruence.
Qed.

Section Timers.
Context `{Collaborators}.

Lemma held_step (e : event) (s : state) :
  renewal_timers_held s -> renewal_timers_held (step e s).
Proof.
  intros Hs.
  assert (forall s1 s2, timers_of s2 = timers_of s1 ->
            renewal_timers_held s1 -> renewal_timers_held s2) as Hrest.
  { intros s1 s2 [= Ht Ha Hn]. unfold renewal_timers_held. by rewrite Ht, Ha, Hn. }
  destruct (registering e) eqn:He.
  - destruct e as [a| | | | | |]; try discriminate He. cbn [step].
    apply (Hrest s); [|done].
    destruct a as [k c|k c| | | | | | | | | |]; try discriminate He; cbn [call];
      unfold returning_nothing, on, off, check_event; unfold_M;
      (destruct (decide (indexOf k event_types = -1)); [done|]);
      (destruct c as [l|v]; [|done]); cbn; [done|].
    by destruct (listeners s !! k) as [[|l0 ls]|].
  - apply (everywhere_step renewal_timers_held); try done.
    + intros s1 s2 Ht _. by apply Hrest.
    + apply held_rearm.
    + intros s1 id. apply held_cancel.
    + apply held_stop.
Qed.

Lemma held_run (es : list event) (s : state) :
  renewal_timers_held s -> renewal_timers_held (run es s).
Proof.
  revert s. induction es as [|e es IH]; intros s Hs; [done|].
  cbn. apply IH. by apply held_step.
Qed.

Lemma held_construct (ctx : context) (s : state) :
  renewal_timers_held s -> renewal_timers_held (snd (construct ctx s)).
Proof.
  assert (forall s1 s2, timers_of s2 = timers_of s1 ->
            renewal_timers_held s1 -> renewal_timers_held s2) as Hrest.
  { intros s1 s2 [= Ht Ha Hn]. unfold renewal_timers_held. by rewrite Ht, Ha, Hn. }
  assert (forall cb delay, cb ≠ RefreshTick -> cb ≠ ExpiredTick ->
            preserves renewal_timers_held (setTimeout cb delay)) as Hset.
  { intros cb delay Hcb1 Hcb2 s1 (Hr & He & Hn). unfold renewal_timers_held. cbn.
    split; [|split].
    - intros id d Hx. apply lookup_insert_Some in Hx as [[_ Heq]|[Hne Hx]];
        [by injection Heq as -> _|by eauto].
    - intros id d Hx. apply lookup_insert_Some in Hx as [[_ Heq]|[Hne Hx]];
        [by injection Heq as -> _|by eauto].
    - intros id x Hx. apply lookup_insert_Some in Hx as [[<- _]|[Hne Hx]]; [lia|].
      apply Hn in Hx. lia. }
  assert (forall k c, preserves renewal_timers_held (on k c)) as Hon.
  { intros k c s1 Hs1. apply (Hrest s1); [|done].
    unfold on, check_event. unfold_M.
    destruct (decide (indexOf k event_types = -1)); [done|]. by destruct c. }
  assert (forall kind e d, preserves renewal_timers_held (d_fire kind e d)) as Hfire.
  { intros kind e d.
    apply (everywhere_fire renewal_timers_held).
    - intros s1 s2 Ht _. by apply Hrest.
    - apply held_rearm.
    - intros s1 id. apply held_cancel. }
  pose proof held_rearm as Hrearm.
  assert (forall b, preserves renewal_timers_held (d_validate b)) as Hval.
  { intros b s1 Hs1. unfold d_validate. destruct (validate _ _ _). cbn.
    by apply (Hrest s1). }
  revert s. change (preserves renewal_timers_held (construct ctx)).
  unfold construct, d_parseParams.
  repeat first
    [ apply preserves_ret | apply preserves_throw | apply preserves_get
    | apply preserves_d_provider
    | apply Hon | apply Hfire | apply Hrearm | apply Hval
    | apply Hset; done
    | apply preserves_bind; [|intros ?]
    | match goal with
      | |- preserves _ (match ?x with _ => _ end) => destruct x
      | |- preserves _ (if ?x then _ else _) => destruct x
      end
    | (apply preserves_modify; intros s1 Hs1; apply (Hrest s1); [reflexivity|done]) ].
Qed.

(** X7.  Renewal timers do not pile up.  On the instance the constructor
    returns, and after any events of the page, every armed refresh timer is
    the one held in [$timeouts.refresh] and every armed expired timer the
    one held in [$timeouts.expired]: at most one of each is armed. *)
Theorem renewal_timers_do_not_pile_up
    (w : window) (c : Config) (this : state) (w' : window) (es : list event) :
  salte_auth w = None ->
  constructor w (Some c) = (Ok this, w') ->
  let s := run es this in
  renewal_timers_held s
  /\ (forall cb id1 id2 d1 d2,
        cb = RefreshTick \/ cb = ExpiredTick ->
        armed s !! id1 = Some (cb, d1) -> armed s !! id2 = Some (cb, d2) ->
        id1 = id2).
Proof.
  intros Hnone Hc. cbn zeta.
  assert (renewal_timers_held this) as Hthis.
  { unfold constructor in Hc. rewrite Hnone in Hc.
    pose proof (held_construct (w_context w) (fresh_instance w c)) as Hk.
    destruct (construct (w_context w) (fresh_instance w c)) as [[[]|e] s0];
      [|done].
    injection Hc as <- _. apply Hk.
    split; [|split]; intros id x Hx; cbn in Hx; by rewrite lookup_empty in Hx. }
  pose proof (held_run es this Hthis) as Hs. split; [done|].
  destruct Hs as (Hr & He & _).
  intros cb id1 id2 d1 d2 [-> | ->] H1 H2.
  - apply Hr in H1, H2. congruence.
  - apply He in H1, H2. congruence.
Qed.

End Timers.

Lemma renewal_timers_do_not_pile_up_witness :
  let s :=
    @run demo_collaborators
      [Call RefreshToken; TransportSettles 0 (Fulfilled undefined) [];
       Microtask; Microtask; Microtask; Microtask;
       VisibilityChanged false; Tick 1060000; TimerFires 3%nat]
      demo_instance in
  renewal_timers_held s
  /\ (forall cb id1 id2 d1 d2,
        cb = RefreshTick \/ cb = ExpiredTick ->
        armed s !! id1 = Some (cb, d1) -> armed s !! id2 = Some (cb, d2) ->
        id1 = id2).
Proof.
  apply (@renewal_timers_do_not_pile_up demo_collaborators demo_window demo_config
           demo_instance (set_salte_auth demo_instance demo_window)).
  - reflexivity.
  - vm_compute. reflexivity.
Defined.

(** ** A token that is still valid *)

Section CachedToken.
Context `{Collaborators}.

(** The chain of [token_chain] on a promise that is resolved already,
    while the access token is valid: the jobs run one after the other and
    start nothing. *)
Lemma valid_token_chain (code : bool) (n : pid) (s1 : state) :
  queue s1 = [Job (first_link code n) (Fulfilled undefined)] ->
  token_linked code n s1 ->
  (code = false ->
   accessTokenExpired (now s1) (p_clearErrors (profile s1)) = false) ->
  let s2 := drain 3 s1 in
  queue s2 = []
  /\ heap s2 !! token_handle code n
     = Some (settled (Fulfilled (if code then undefined
                                 else p_accessToken (profile s1)))
               (blank Chained))
  /\ token (promises s2) = None
  /\ opened s2 = opened s1.
Proof.
  intros Hq [Hlt Hl] Hvalid. cbn zeta.
  destruct code; unfold first_link, token_handle in *.
  - destruct Hl as [Hd Hh].
    erewrite drain_step by exact Hq. cbn [run_job]. unfold run_reaction.
    cbn [apply_callback]. unfold_M. cbn [resolve].
    erewrite settle_pending; [|exact Hd|done]. cbn [reactions fmap list_fmap].
    erewrite drain_step by reflexivity. cbn [run_job].
    erewrite settle_pending; [|by cbn; rewrite lookup_insert_ne by lia|done].
    rewrite drain_done by reflexivity. cbn.
    split; [done|]. split; [by rewrite lookup_insert_eq|]. done.
  - destruct Hl as (Hx & Hd & Hh). specialize (Hvalid eq_refl).
    erewrite drain_step by exact Hq. cbn [run_job]. unfold run_reaction.
    cbn [apply_callback]. unfold_M. cbn -[accessTokenExpired p_clearErrors drain].
    rewrite Hvalid. cbn [resolve].
    rewrite resolve_value by apply p_accessToken_not_promise.
    erewrite settle_pending; [|exact Hx|done]. cbn [reactions fmap list_fmap].
    erewrite drain_step by reflexivity. cbn [run_job]. unfold run_reaction.
    cbn [apply_callback]. unfold_M.
    rewrite resolve_value by apply p_accessToken_not_promise.
    erewrite settle_pending; [|by cbn; rewrite lookup_insert_ne by lia|done].
    cbn [reactions fmap list_fmap].
    erewrite drain_step by reflexivity. cbn [run_job].
    erewrite settle_pending; [|by cbn; rewrite !lookup_insert_ne by lia|done].
    rewrite drain_done by reflexivity. cbn.
    split; [done|]. split; [by rewrite lookup_insert_eq|]. done.
Qed.

(** X8.  When no login is needed and the access token has not expired,
    [retrieveAccessToken] opens no transport: three microtasks later the
    promise it returned is fulfilled with the access token of the profile
    and the token handle is idle.  With the response type 'code' the promise
    is fulfilled, after two microtasks, with [undefined]. *)
Theorem valid_token_needs_no_transport (s : state) :
  token (promises s) = None -> queue s = [] ->
  must_login s = false ->
  let code := String.eqb (responseType (config s)) "code" in
  (code = false -> accessTokenExpired (now s) (p_clearErrors (profile s)) = false) ->
  let h := token_handle code (S (next_pid s)) in
  let s1 := snd (retrieveAccessToken s) in
  let s2 := drain 3 s1 in
  fst (retrieveAccessToken s) = Ok (VPromise h)
  /\ token (promises s1) = Some h
  /\ queue s2 = []
  /\ heap s2 !! h
     = Some (settled (Fulfilled (if code then undefined
                                 else p_accessToken (profile s)))
               (blank Chained))
  /\ token (promises s2) = None
  /\ opened s2 = opened s.
Proof.
  intros Htok Hq Hmust code Hvalid h. cbn zeta.
  remember 3%nat as fuel eqn:Hfuel.
  unfold retrieveAccessToken, Promise_resolve, new_promise. unfold_M.
  rewrite Htok. cbn. change (must_login _) with (must_login s). rewrite Hmust.
  set (sA := upd_promises (set_token (Some (next_pid s))) _).
  destruct (token_chain_spec (next_pid s)
              {| p_origin := Immediate; status := Some (Fulfilled undefined);
                 reactions := [] |} sA)
    as (s1 & Hs1 & Hl & Hn & Hpr & _ & _ & Hq1);
    [done|by cbn; rewrite lookup_insert_eq|cbn; lia|].
  pose proof (chain_blind_token_chain
                (fun s' => opened s' = opened s /\ profile s' = profile s
                           /\ now s' = now s)
                (fun _ _ _ _ _ Hs => Hs) sA (conj eq_refl (conj eq_refl eq_refl)))
    as (Hop & Hpf & Hnow).
  rewrite Hs1 in Hop, Hpf, Hnow. cbn [snd] in Hop, Hpf, Hnow.
  rewrite Hs1. cbn [fst snd].
  change (config sA) with (config s) in *.
  change (next_pid sA) with (S (next_pid s)) in *.
  change (queue sA) with (queue s) in Hq1. rewrite Hq in Hq1. cbn in Hq1.
  fold code in Hl, Hn, Hpr, Hq1 |- *. fold h in Hn, Hpr |- *.
  clearbody sA. clear Hs1.
  split; [done|]. split; [by rewrite Hpr|].
  destruct (valid_token_chain code (S (next_pid s)) s1 Hq1 Hl)
    as (Hq2 & Hh2 & Ht2 & Ho2).
  { intros Hc. rewrite Hpf, Hnow. by apply Hvalid. }
  subst fuel. unfold h. rewrite Hq2, Hh2, Ht2, Ho2, Hpf, Hop. done.
Qed.


End CachedToken.

Lemma valid_token_needs_no_transport_witness :
  let code := String.eqb (responseType (config logged_in)) "code" in
  let h := token_handle code (S (next_pid logged_in)) in
  let s1 := snd (retrieveAccessToken logged_in) in
  let s2 := @drain demo_collaborators 3 s1 in
  fst (retrieveAccessToken logged_in) = Ok (VPromise h)
  /\ token (promises s1) = Some h
  /\ queue s2 = []
  /\ heap s2 !! h
     = Some (settled (Fulfilled (if code then undefined
                                 else p_accessToken (profile logged_in)))
               (blank Chained))
  /\ token (promises s2) = None
  /\ opened s2 = opened logged_in.
Proof.
  apply (@valid_token_needs_no_transport demo_collaborators logged_in).
  - vm_compute. reflexivity.
  - vm_compute. reflexivity.
  - vm_compute. reflexivity.
  - intros _. vm_compute. reflexivity.
Defined.

(** ** Where the constructor sets the renewal up *)

(** The page is the landing of a redirect: the storage holds a return URL
    and the page is not at it. *)
Definition landing (w : window) : Prop :=
  is_Some (nonempty (redirectUrl (w_storage w)))
  /\ redirectUrl (w_storage w) ≠ Some (w_href w).

Section Contexts.
Context `{Collaborators}.


End Contexts.

(** The demo page as the landing of a redirect login. *)
Definition landing_window : window :=
  {| salte_auth := None; w_context := TopLevel;
     w_href := "https://app.example/callback"; w_params := [];
     w_storage :=
       with_redirectUrl (Some "https://app.example/private") no_profile;
     w_now := 1000000; w_uuid := 7%nat;
     w_Providers := {[ "hydra" := SalteAuthHydraProvider ]} |}.

Definition landing_instance : state :=
  match @constructor demo_collaborators landing_window (Some demo_config) with
  | (Ok this, _) => this
  | (Throw _, _) => fresh_instance landing_window demo_config
  end.


Section MainPage.
Context `{Collaborators}.

Lemma on_known (eventType : string) (l : listener) (s : state) :
  eventType ∈ event_types ->
  on eventType (Fn l) s
  = (Ok tt, upd_listeners
              (fun m => <[eventType := default [] (m !! eventType) ++ [l]]> m) s).
Proof. intros Hk. unfold on. unfold_M. by rewrite check_event_known. Qed.


End MainPage.


(** ** The landing page of a redirect *)

Section Landing.
Context `{Collaborators}.

(** What the timer of the landing page dispatches, by the action recorded
    for the state the provider sent back. *)
Definition landing_events (action : option string) (error : value) (p : Profile)
    : list (string * value * value) :=
  if decide (action = Some "login") then
    [("salte-auth-login", js_or error null, js_or (p_code p) (p_userInfo p))]
  else if decide (action = Some "logout") then
    [("salte-auth-logout", error, undefined)]
  else [].

Lemma fire_unheard (eventType : string) (error data : value) (s : state) :
  listeners s = ∅ ->
  d_fire eventType error data s
  = (Ok tt, upd_dispatched
              (fun log => log ++ [("salte-auth-" +:+ eventType, error, data)]) s).
Proof. intros Hl. unfold d_fire. unfold_M. cbn. by rewrite Hl, lookup_empty. Qed.


End Landing.

(** A landing page whose storage carries a return URL and the action of a
    login. *)
Definition returning_window : window :=
  {| salte_auth := None; w_context := TopLevel;
     w_href := "https://app.example/callback"; w_params := [];
     w_storage :=
       with_action (Some 7%nat) "login"
         (with_correlation 7 7
            (with_redirectUrl (Some "https://app.example/private") no_profile));
     w_now := 1000000; w_uuid := 7%nat;
     w_Providers := {[ "hydra" := SalteAuthHydraProvider ]} |}.

Definition returning_instance : state :=
  match @constructor demo_collaborators returning_window (Some demo_config) with
  | (Ok this, _) => this
  | (Throw _, _) => fresh_instance returning_window demo_config
  end.


(** ** A login window whose response fails validation *)

Section RejectedLogin.
Context `{Collaborators}.

(** The two closures of a login by popup or new tab, run on a window that
    closed with a response [$validate] refuses. *)
Lemma window_login_refused (t : pid) (k : transport) (v e : value)
    (params : list (string * string)) (pf : Profile) (s1 : state) :
  k ≠ Iframe -> queue s1 = [] ->
  heap s1 !! t
  = Some {| p_origin := FromTransport k; status := None;
            reactions := [Then LoginWindowThen (S t)] |} ->
  heap s1 !! S t
  = Some {| p_origin := Chained; status := None;
            reactions := [Catch LoginWindowCatch (S (S t))] |} ->
  heap s1 !! S (S t) = Some (blank Chained) ->
  next_pid s1 = S (S (S t)) ->
  validate (now s1) false (parseParams params (profile s1)) = (Some e, pf) ->
  let ls := default [] (listeners s1 !! "login") in
  let s2 := drain 4 (task (TransportSettles t (Fulfilled v) params) s1) in
  queue s2 = []
  /\ heap s2 !! S (S t)
     = Some (settled (Rejected (default e (first_throw e (p_clear pf) ls)))
               (blank Chained))
  /\ login (promises s2) = None
  /\ profile s2 = p_clear pf
  /\ opened s2 = opened s1
  /\ dispatched s2 = dispatched s1 ++ [("salte-auth-login", e, undefined)]
  /\ invoked s2
     = invoked s1 ++ ((fun l => (l, e, undefined)) <$> reached e (p_clear pf) ls).
Proof.
  intros Hk Hq Ht Hd Hh Hn Hv. cbn zeta. unfold task. rewrite Ht.
  replace (land k (Fulfilled v) params s1) with (upd_captured (fun _ => params) s1)
    by (by destruct k).
  erewrite settle_pending; [|exact Ht|done]. cbn [reactions fmap list_fmap].
  erewrite drain_step by (cbn; rewrite Hq; reflexivity).
  cbn [run_job]. unfold run_reaction. cbn [apply_callback].
  unfold d_parseParams, d_validate, Promise_reject, new_promise. unfold_M.
  cbn -[drain validate parseParams p_clear]. rewrite Hv.
  cbn -[drain validate parseParams p_clear].
  rewrite Hn.
  erewrite react_settled; [|by cbn; rewrite lookup_insert_eq|reflexivity].
  erewrite drain_step by reflexivity. cbn [run_job].
  erewrite settle_pending;
    [|by cbn; rewrite !lookup_insert_ne by lia; exact Hd|done].
  cbn [reactions fmap list_fmap].
  erewrite drain_step by reflexivity. cbn [run_job]. unfold run_reaction.
  cbn [apply_callback]. unfold Promise_reject, new_promise. unfold_M.
  match goal with |- context [d_fire "login" e undefined ?x] =>
    pose proof (d_fire_spec "login" e undefined x) as Hf;
    destruct (d_fire "login" e undefined x) as [r sf]
  end.
  cbn -[drain validate parseParams p_clear first_throw reached] in Hf.
  rewrite Hn in Hf.
  destruct Hf as (Hr & Hi & Hp & Hpr & Hhp & Hnp & Hqf & Ho & _ & _ & Hdis & _).
  assert (heap sf !! S (S t) = Some (blank Chained)) as Hhf.
  { rewrite Hhp. by rewrite !lookup_insert_ne by lia. }
  clear Hhp.
  destruct (first_throw e (p_clear pf) (default [] (listeners s1 !! "login")))
    as [x|]; subst r; cbn [completion default].
  - erewrite settle_pending; [|exact Hhf|done]. cbn [reactions fmap list_fmap].
    rewrite drain_done by (by cbn; rewrite Hqf). cbn.
    rewrite Hqf, Hi, Hp, Hpr, Ho, Hdis, lookup_insert_eq. done.
  - cbn [resolve].
    erewrite react_settled; [|by cbn; rewrite lookup_insert_eq|reflexivity].
    erewrite drain_step by (by cbn; rewrite Hqf). cbn [run_job].
    erewrite settle_pending;
      [|by cbn; rewrite lookup_insert_ne by lia; exact Hhf|done].
    cbn. rewrite Hi, Hp, Hpr, Ho, Hdis, lookup_insert_eq. done.
Qed.

(** What a login by popup or new tab does not touch when it starts. *)
Lemma login_with_window_leaves (k : transport) (s : state) :
  k = Popup \/ k = NewTab ->
  let s1 := snd (login_with_window (open_transport k) s) in
  now s1 = now s /\ listeners s1 = listeners s
  /\ dispatched s1 = dispatched s /\ invoked s1 = invoked s.
Proof.
  pose (I := fun s' : state =>
          now s' = now s /\ listeners s' = listeners s
          /\ dispatched s' = dispatched s /\ invoked s' = invoked s).
  assert (flow_blind I) as HI by (by intros s' Hh n Q pr pf u o c Hs).
  intros [-> | ->].
  - exact (flow_blind_loginWithPopup I HI s
             (conj eq_refl (conj eq_refl (conj eq_refl eq_refl)))).
  - exact (flow_blind_loginWithNewTab I HI s
             (conj eq_refl (conj eq_refl (conj eq_refl eq_refl)))).
Qed.


End RejectedLogin.


(** ** A page that is hidden *)

(** A listener of the application that returns. *)
Definition quiet (l : listener) : bool :=
  match l with AppFn _ None => true | _ => false end.

Lemma quiet_apps (error : value) (p : Profile) (apps : list listener) :
  Forall (fun l => quiet l = true) apps ->
  Forall (fun l => is_app l = true) apps /\ first_throw error p apps = None.
Proof.
  induction 1 as [|l apps Hl _ [IH1 IH2]]; [done|].
  destruct l as [| | |id [e|]]; try discriminate Hl. split; [by constructor|done].
Qed.

(** The 'refresh' event of a refresh that succeeded, when the listener of
    the constructor is the first one and the others are quiet listeners of
    the application: the renewal timers are armed anew. *)
Lemma d_fire_refresh_rearms (data : value) (apps : list listener) (u : userInfo)
    (s : state) :
  listeners s !! "refresh" = Some (RenewOnRefresh :: apps) ->
  Forall (fun l => quiet l = true) apps ->
  userinfo (profile s) = Some u ->
  let s' := snd (d_fire "refresh" null data s) in
  fst (d_fire "refresh" null data s) = Ok tt
  /\ timeouts s'
     = {| t_refresh := TimerId (next_timer s);
          t_expired := TimerId (S (next_timer s)) |}
  /\ armed s'
     = <[S (next_timer s) := (ExpiredTick, Z.max (exp u * 1000 - now s) 0)]>
         (<[next_timer s := (RefreshTick, refresh_delay s u)]>
            (cancel (t_expired (timeouts s))
               (cancel (t_refresh (timeouts s)) (armed s))))
  /\ next_timer s' = S (S (next_timer s)).
Proof.
  intros Hls Hq Hu. destruct (quiet_apps null (profile s) apps Hq) as [Happs Hnone].
  pose proof (d_fire_spec "refresh" null data s) as Hf. cbn zeta in Hf.
  destruct Hf as (Hr & _). rewrite Hls in Hr. cbn in Hr.
  rewrite Hu, Hnone in Hr. cbn zeta. split; [exact Hr|]. clear Hr.
  unfold d_fire. unfold_M. cbn. rewrite Hls.
  cbn [forEach]. unfold mbind, M_bind.
  set (s0 := upd_invoked (fun log => log ++ [(RenewOnRefresh, null, data)])
               (upd_dispatched
                  (fun log => log ++ [("salte-auth-" +:+ "refresh", null, data)]) s)).
  change (call_listener null data RenewOnRefresh _) with (dd_refreshToken s0).
  destruct (dd_refreshToken_timers s0 u Hu) as (Hok & Ht & Ha & Hn).
  destruct (dd_refreshToken s0) as [r s1] eqn:Hdd. cbn in Hok, Ht, Ha, Hn. subst r.
  destruct (forEach_apps_timers null data apps s1 Happs) as (Ht' & Ha' & Hn').
  cbn zeta in *. by rewrite Ht', Ha', Hn', Ht, Ha, Hn.
Qed.

(** The promises of a refresh started by [$$onVisibilityChanged] on a hidden
    page, from the promise [n] of the iframe on: the two closures of the
    login by iframe, the two of [refreshToken] and the closure that stops the
    renewal. *)
Definition hidden_chain (n : pid) (s : state) : Prop :=
  heap s !! n
  = Some {| p_origin := FromTransport Iframe; status := None;
            reactions := [Then (LoginIframeThen false) (S n)] |}
  /\ heap s !! S n
     = Some {| p_origin := Chained; status := None;
               reactions := [Catch (LoginIframeCatch false) (S (S n))] |}
  /\ heap s !! S (S n)
     = Some {| p_origin := Chained; status := None;
               reactions := [Then RefreshThen (S (S (S n)))] |}
  /\ heap s !! S (S (S n))
     = Some {| p_origin := Chained; status := None;
               reactions := [Catch RefreshCatch (S (S (S (S n))))] |}
  /\ heap s !! S (S (S (S n)))
     = Some {| p_origin := Chained; status := None;
               reactions := [Then StopRenewalThen (S (S (S (S (S n)))))] |}
  /\ heap s !! S (S (S (S (S n)))) = Some (blank Chained).

Section Hidden.
Context `{Collaborators}.

Lemma hidden_refresh_walk (n : pid) (v : value) (params : list (string * string))
    (pf1 pf2 : Profile) (u : userInfo) (apps : list listener) (sH : state) :
  hidden_chain n sH -> queue sH = [] ->
  listeners sH !! "refresh" = Some (RenewOnRefresh :: apps) ->
  Forall (fun l => quiet l = true) apps ->
  validate (now sH) false (parseParams params (profile sH)) = (None, pf1) ->
  validate (now sH) true pf1 = (None, pf2) ->
  userinfo pf2 = Some u ->
  let response := js_or (p_code pf1) (p_userInfo pf1) in
  let s2 := drain 5 (task (TransportSettles n (Fulfilled v) params) sH) in
  queue s2 = []
  /\ heap s2 !! S (S (S (S n))) = Some (settled (Fulfilled response) (blank Chained))
  /\ login (promises s2) = None /\ refresh (promises s2) = None
  /\ profile s2 = pf2 /\ opened s2 = opened sH
  /\ timeouts s2
     = {| t_refresh := Nulled; t_expired := TimerId (S (next_timer sH)) |}
  /\ armed s2
     = delete (next_timer sH)
         (<[S (next_timer sH) := (ExpiredTick, Z.max (exp u * 1000 - now sH) 0)]>
            (<[next_timer sH := (RefreshTick, refresh_delay sH u)]>
               (cancel (t_expired (timeouts sH))
                  (cancel (t_refresh (timeouts sH)) (armed sH)))))
  /\ dispatched s2 = dispatched sH ++ [("salte-auth-refresh", null, response)].
Proof.
  intros (H0 & H1 & H2 & H3 & H4 & H5) Hq Hls Hquiet Hv1 Hv2 Hu. cbn zeta.
  unfold task. rewrite H0. cbn [land].
  erewrite settle_pending; [|exact H0|done]. cbn [reactions fmap list_fmap].
  erewrite drain_step by (cbn; rewrite Hq; reflexivity).
  cbn [run_job]. unfold run_reaction. cbn [apply_callback].
  unfold d_validate, login_response. unfold_M.
  cbn -[drain validate parseParams js_or p_code p_userInfo]. rewrite Hv1.
  cbn -[drain validate parseParams js_or p_code p_userInfo].
  rewrite resolve_value by apply login_response_not_promise.
  erewrite settle_pending;
    [|by cbn; rewrite !lookup_insert_ne by lia; exact H1|done].
  cbn [reactions fmap list_fmap].
  erewrite drain_step by reflexivity. cbn [run_job].
  erewrite settle_pending;
    [|by cbn; rewrite !lookup_insert_ne by lia; exact H2|done].
  cbn [reactions fmap list_fmap].
  erewrite drain_step by reflexivity. cbn [run_job]. unfold run_reaction.
  cbn [apply_callback]. unfold d_validate. unfold_M.
  cbn -[drain validate parseParams js_or p_code p_userInfo d_fire]. rewrite Hv2.
  cbn -[drain validate parseParams js_or p_code p_userInfo d_fire].
  match goal with |- context [d_fire "refresh" null ?r ?x] =>
    pose proof (d_fire_spec "refresh" null r x) as Hf;
    pose proof (d_fire_refresh_rearms r apps u x Hls Hquiet Hu) as Hre;
    destruct (d_fire "refresh" null r x) as [res sf]
  end.
  cbn -[drain validate parseParams js_or p_code p_userInfo first_throw reached
        refresh_delay] in Hf, Hre.
  destruct Hre as (-> & Ht & Ha & Hnt).
  destruct Hf as (_ & _ & Hp & Hpr & Hhp & Hnp & Hqf & Ho & _ & _ & Hdis & _).
  assert (heap sf !! S (S (S n))
          = Some {| p_origin := Chained; status := None;
                    reactions := [Catch RefreshCatch (S (S (S (S n))))] |}
          /\ heap sf !! S (S (S (S n)))
             = Some {| p_origin := Chained; status := None;
                       reactions := [Then StopRenewalThen (S (S (S (S (S n)))))] |}
          /\ heap sf !! S (S (S (S (S n)))) = Some (blank Chained))
    as (H3' & H4' & H5').
  { rewrite Hhp. by rewrite !lookup_insert_ne by lia. }
  clear Hhp.
  rewrite resolve_value by apply login_response_not_promise.
  erewrite settle_pending; [|exact H3'|done]. cbn [reactions fmap list_fmap].
  erewrite drain_step by (by cbn; rewrite Hqf). cbn [run_job].
  erewrite settle_pending;
    [|by cbn; rewrite !lookup_insert_ne by lia; exact H4'|done].
  cbn [reactions fmap list_fmap].
  erewrite drain_step by reflexivity. cbn [run_job]. unfold run_reaction.
  cbn [apply_callback]. unfold_M.
  cbn -[drain js_or p_code p_userInfo refresh_delay settle resolve].
  rewrite Ht. cbn -[drain js_or p_code p_userInfo refresh_delay settle resolve].
  rewrite resolve_value by done.
  erewrite settle_pending;
    [|by cbn; rewrite !lookup_insert_ne by lia; exact H5'|done].
  cbn -[js_or p_code p_userInfo refresh_delay].
  rewrite Hp, Hpr, Ho, Hdis, Ha, Ht, lookup_insert_ne, lookup_insert_eq by lia.
  done.
Qed.

(** The handler on a page that became hidden, while the id token is
    valid, automatic refresh is on and neither a login nor a refresh is
    pending: it starts the refresh [refreshToken] starts and chains the
    closure that stops the renewal on its promise. *)
Lemma hidden_page_starts_refresh (s : state) (h : pid) (s1 : state) :
  login (promises s) = None -> refresh (promises s) = None ->
  idTokenExpired (now s) (profile s) = false ->
  autoRefresh (config s) = Some true ->
  refreshToken s = (Ok h, s1) ->
  exists sH,
    dd_onVisibilityChanged true s = (Ok tt, sH)
    /\ h = S (S (S (S (next_pid s))))
    /\ hidden_chain (next_pid s) sH
    /\ queue sH = queue s
    /\ promises sH = promises s1 /\ refresh (promises s1) = Some h
    /\ profile sH = profile s1 /\ opened sH = opened s1
    /\ (exists url, opened s1 = opened s ++ [(Iframe, url)])
    /\ timers_of sH = timers_of s /\ listeners sH = listeners s
    /\ now sH = now s /\ dispatched sH = dispatched s.
Proof.
  intros Hlogin Hidle Hexp Har Hr.
  pose (I := fun s' : state =>
          timers_of s' = timers_of s /\ listeners s' = listeners s
          /\ now s' = now s /\ dispatched s' = dispatched s).
  assert (flow_blind I) as HI by (by intros s' Hh n Q pr pf u o c Hs).
  pose proof (flow_blind_loginWithIframe I HI (BoolArg true) s
                (conj eq_refl (conj eq_refl (conj eq_refl eq_refl)))) as Hsame.
  destruct (loginWithIframe (BoolArg true) s) as [[l|e] sl] eqn:Hl;
    [|by revert Hr; unfold refreshToken; unfold_M; rewrite Hidle, Hl].
  cbn [snd] in Hsame.
  pose proof (loginWithIframe_started _ _ _ _ Hlogin Hl)
    as [-> Ht Hd Hh Hold Hn Hpr Hop Hq1].
  cbn in Ht, Hd.
  assert (refreshToken s
          = (Ok (S (S (S (S (next_pid s))))),
             upd_promises (set_refresh (Some (S (S (S (S (next_pid s)))))))
               (upd_heap
                  (insert (S (S (S (next_pid s))))
                     (with_reaction (Catch RefreshCatch (S (S (S (S (next_pid s))))))
                        (blank Chained)))
                  (upd_next_pid S
                     (upd_heap (insert (S (S (S (S (next_pid s))))) (blank Chained))
                        (upd_heap
                           (insert (S (S (next_pid s)))
                              (with_reaction (Then RefreshThen (S (S (S (next_pid s)))))
                                 (blank Chained)))
                           (upd_next_pid S
                              (upd_heap
                                 (insert (S (S (S (next_pid s)))) (blank Chained))
                                 sl)))))))) as Hrt.
  { unfold refreshToken. unfold_M. rewrite Hidle, Hl.
    erewrite p_then_pending; [|exact Hh|done|lia]. rewrite Hn.
    erewrite p_catch_pending;
      [|by cbn; rewrite lookup_insert_ne, lookup_insert_eq by lia|done|cbn; lia].
    cbn. by rewrite Hn. }
  rewrite Hrt in Hr. injection Hr as <- <-.
  unfold dd_onVisibilityChanged. unfold_M. rewrite Hexp, Har. cbn. rewrite Hrt.
  erewrite p_then_pending;
    [|by cbn; rewrite lookup_insert_ne, lookup_insert_eq by lia|done|cbn; lia].
  cbn. eexists. split; [reflexivity|]. cbn. rewrite Hn.
  split; [done|]. split.
  { unfold hidden_chain. cbn.
    repeat split; heap_lookup; done. }
  destruct Hsame as (Ht' & Hl' & Hn' & Hd').
  repeat (split; [done|]). done.
Qed.

(** X13.  When the page becomes hidden while the id token is valid and
    automatic refresh is on, the handler starts one refresh by iframe.  When
    that refresh succeeds, its 'refresh' event arms both renewal timers anew
    and the closure chained by the handler then cancels the refresh timer:
    after five microtasks no refresh timer is armed, [$timeouts.refresh] is
    [null], the expired timer is armed for the new expiry, and both handles
    are idle. *)
Theorem hidden_page_refreshes_then_stops_renewal
    (s : state) (h : pid) (s1 : state) (v : value)
    (params : list (string * string)) (pf1 pf2 : Profile) (u : userInfo)
    (apps : list listener) :
  watching s = true -> queue s = [] ->
  login (promises s) = None -> refresh (promises s) = None ->
  idTokenExpired (now s) (profile s) = false ->
  autoRefresh (config s) = Some true ->
  refreshToken s = (Ok h, s1) ->
  listeners s !! "refresh" = Some (RenewOnRefresh :: apps) ->
  Forall (fun l => quiet l = true) apps ->
  renewal_timers_held s ->
  validate (now s) false (parseParams params (profile s1)) = (None, pf1) ->
  validate (now s) true pf1 = (None, pf2) ->
  userinfo pf2 = Some u ->
  let sH := task (VisibilityChanged true) s in
  let s2 := drain 5 (task (TransportSettles (next_pid s) (Fulfilled v) params) sH) in
  (refresh (promises sH) = Some h
   /\ (exists url, opened sH = opened s ++ [(Iframe, url)])
   /\ timers_of sH = timers_of s)
  /\ queue s2 = []
  /\ heap s2 !! h
     = Some (settled (Fulfilled (js_or (p_code pf1) (p_userInfo pf1)))
               (blank Chained))
  /\ login (promises s2) = None /\ refresh (promises s2) = None
  /\ profile s2 = pf2 /\ opened s2 = opened sH
  /\ dispatched s2
     = dispatched s
       ++ [("salte-auth-refresh", null, js_or (p_code pf1) (p_userInfo pf1))]
  /\ timeouts s2
     = {| t_refresh := Nulled; t_expired := TimerId (S (next_timer s)) |}
  /\ armed s2 !! S (next_timer s)
     = Some (ExpiredTick, Z.max (exp u * 1000 - now s) 0)
  /\ (forall id d, armed s2 !! id ≠ Some (RefreshTick, d)).
Proof.
  intros Hw Hq Hlogin Hidle Hexp Har Hr Hls Hquiet (Hheld & _ & _) Hv1 Hv2 Hu.
  destruct (hidden_page_starts_refresh s h s1 Hlogin Hidle Hexp Har Hr)
    as (sH & HsH & -> & Hchain & HqH & HprH & Hh & HpfH & HoH & Ho1 & HtH & HlH
        & HnH & HdH).
  cbn zeta.
  change (task (VisibilityChanged true) s)
    with (if watching s then uncaught (dd_onVisibilityChanged true) s else s).
  rewrite Hw. unfold uncaught. rewrite HsH.
  injection HtH as HtoH HaH HntH.
  split.
  { rewrite HprH, HoH. split; [done|]. split; [done|].
    unfold timers_of. by rewrite HtoH, HaH, HntH. }
  destruct (hidden_refresh_walk (next_pid s) v params pf1 pf2 u apps sH)
    as (Hq2 & Hh2 & Hl2 & Hr2 & Hp2 & Ho2 & Ht2 & Ha2 & Hd2); try done.
  { by rewrite HqH. }
  { by rewrite HlH. }
  { by rewrite HnH, HpfH. }
  { by rewrite HnH. }
  cbn zeta in *. rewrite HntH, HnH, HtoH, HaH, HdH in *.
  repeat (split; [done|]).
  rewrite Ha2. split.
  - by rewrite lookup_delete_ne, lookup_insert_eq by lia.
  - intros id d Hx. apply lookup_delete_Some in Hx as [Hne Hx].
    rewrite lookup_insert_ne in Hx by (intros <-; by rewrite lookup_insert_eq in Hx).
    rewrite lookup_insert_ne in Hx by done.
    rewrite !cancel_lookup in Hx. repeat case_decide; try done.
    apply Hheld in Hx. congruence.
Qed.

End Hidden.

(** The demo page loaded with a session in its storage. *)
Definition session_window : window :=
  {| salte_auth := None; w_context := TopLevel;
     w_href := "https://app.example/"; w_params := [];
     w_storage := @parseParams demo_collaborators [] no_profile;
     w_now := 1000000; w_uuid := 7%nat;
     w_Providers := {[ "hydra" := SalteAuthHydraProvider ]} |}.

Definition session_instance : state :=
  match @constructor demo_collaborators session_window (Some demo_config) with
  | (Ok this, _) => this
  | (Throw _, _) => fresh_instance session_window demo_config
  end.

Lemma hidden_page_refreshes_then_stops_renewal_witness :
  let s := session_instance in
  let pf := @parseParams demo_collaborators [] (profile (snd (refreshToken s))) in
  let sH := @task demo_collaborators (VisibilityChanged true) s in
  let s2 :=
    @drain demo_collaborators 5
      (@task demo_collaborators (TransportSettles 0 (Fulfilled undefined) []) sH) in
  (refresh (promises sH) = Some 4%nat
   /\ (exists url, opened sH = opened s ++ [(Iframe, url)])
   /\ timers_of sH = timers_of s)
  /\ queue s2 = []
  /\ heap s2 !! 4%nat
     = Some (settled (Fulfilled (js_or (p_code pf) (p_userInfo pf))) (blank Chained))
  /\ login (promises s2) = None /\ refresh (promises s2) = None
  /\ profile s2 = pf /\ opened s2 = opened sH
  /\ dispatched s2
     = dispatched s ++ [("salte-auth-refresh", null, js_or (p_code pf) (p_userInfo pf))]
  /\ timeouts s2 = {| t_refresh := Nulled; t_expired := TimerId 4 |}
  /\ armed s2 !! 4%nat = Some (ExpiredTick, 120000)
  /\ (forall id d, armed s2 !! id ≠ Some (RefreshTick, d)).
Proof.
  apply (@hidden_page_refreshes_then_stops_renewal demo_collaborators
           session_instance 4%nat (snd (refreshToken session_instance)) undefined []
           _ _ {| exp := 1120 |} []).
  - vm_compute. reflexivity.
  - vm_compute. reflexivity.
  - vm_compute. reflexivity.
  - vm_compute. reflexivity.
  - vm_compute. reflexivity.
  - vm_compute. reflexivity.
  - assert (fst (refreshToken session_instance) = Ok 4%nat) as Hr
      by (vm_compute; reflexivity).
    destruct (refreshToken session_instance); cbn in *. by rewrite Hr.
  - vm_compute. reflexivity.
  - constructor.
  - assert (session_instance
            = snd (@construct demo_collaborators TopLevel
                     (fresh_instance session_window demo_config))) as ->
      by (vm_compute; reflexivity).
    apply held_construct.
    split; [|split]; intros id x Hx; cbn in Hx; by rewrite lookup_empty in Hx.
  - reflexivity.
  - reflexivity.
  - vm_compute. reflexivity.
Defined.

(** ** The request a login sends and the profile it leaves *)

(** The transport of a request that logs in, and whether its URL asks the
    provider not to prompt. *)
Definition login_transport (a : api) : option (transport * bool) :=
  match a with
  | LoginWithIframe x => Some (Iframe, default false (noPrompt (iframe_config x)))
  | LoginWithPopup => Some (Popup, false)
  | LoginWithNewTab => Some (NewTab, false)
  | LoginWithRedirect _ => Some (Navigate, false)
  | RefreshToken => Some (Iframe, true)
  | _ => None
  end.

(** The authorize endpoint of a provider: its own, or [/authorize] on the
    provider URL. *)
Definition login_endpoint (s : state) (p : Provider) : string :=
  providerUrl (config s) +:+ default "/authorize" (authorizeEndpoint p).

Lemma d_loginUrl_spec (b : bool) (s0 s : state) (u : url) (su : state) :
  config s = config s0 -> providers s = providers s0 ->
  d_loginUrl b s = (Ok u, su) ->
  exists p,
    fst (d_provider s0) = Ok p
    /\ u = LoginUrl (login_endpoint s0 p) (uuid s) (S (uuid s))
             (responseType (config s0)) b
    /\ su = upd_uuid (fun n => S (S n))
              (upd_profile (with_correlation (uuid s) (S (uuid s))) s).
Proof.
  intros Hc Hpv.
  unfold d_loginUrl, d_authorizeEndpoint, fresh_correlation, login_endpoint.
  unfold_M. cbn.
  match goal with |- context [d_provider ?y] =>
    pose proof (d_provider_state y) as Hs;
    pose proof (d_provider_setup s0 y Hc Hpv) as Hp;
    destruct (d_provider y) as [[p|e] sp]
  end; cbn in *; [|done].
  subst sp. intros [= <- <-]. exists p. cbn. by rewrite <- Hp, Hc.
Qed.

(** A flow started on the URL [$loginUrl] has just built: the transport
    carries that URL and the profile holds its state and nonce. *)
Lemma start_flow_on_loginUrl (k : transport) (b : bool) (f g : callback)
    (set : option pid -> Promises -> Promises)
    (s0 s : state) (u : url) (su : state) (h : pid) (s1 : state) :
  config s = config s0 -> providers s = providers s0 -> opened s = opened s0 ->
  d_loginUrl b s = (Ok u, su) ->
  start_flow k u f g set su = (Ok h, s1) ->
  exists p st nc,
    fst (d_provider s0) = Ok p
    /\ opened s1
       = opened s0
         ++ [(k, LoginUrl (login_endpoint s0 p) st nc (responseType (config s0)) b)]
    /\ localState (profile s1) = Some st
    /\ nonce (profile s1) = Some nc.
Proof.
  intros Hc Hpv Ho Hu Hs.
  apply (d_loginUrl_spec b s0) in Hu as (p & Hp & -> & ->); [|done..].
  destruct (start_flow_spec k
              (LoginUrl (login_endpoint s0 p) (uuid s) (S (uuid s))
                 (responseType (config s0)) b) f g set
              (upd_uuid (fun n => S (S n))
                 (upd_profile (with_correlation (uuid s) (S (uuid s))) s)))
    as (s1' & Heq & _ & _ & _ & _ & _ & _ & Hop & Hfr).
  rewrite Heq in Hs. injection Hs as _ <-.
  exists p, (uuid s), (S (uuid s)). split; [done|].
  split; [by rewrite Hop; cbn [opened upd_uuid upd_profile]; rewrite Ho|].
  apply (f_equal profile) in Hfr. cbn in Hfr. by rewrite Hfr.
Qed.

Ltac on_loginUrl Hs :=
  match type of Hs with
  | context [d_loginUrl ?b ?y] =>
      let Hu := fresh "Hu" in
      destruct (d_loginUrl b y) as [[?u|?e] ?su] eqn:Hu; [|done]
  end.

Lemma loginWithIframe_request (x : iframe_arg) (s : state) (l : pid) (sl : state) :
  login (promises s) = None ->
  loginWithIframe x s = (Ok l, sl) ->
  exists p st nc,
    fst (d_provider s) = Ok p
    /\ opened sl
       = opened s
         ++ [(Iframe, LoginUrl (login_endpoint s p) st nc (responseType (config s))
                        (default false (noPrompt (iframe_config x))))]
    /\ localState (profile sl) = Some st
    /\ nonce (profile sl) = Some nc.
Proof.
  intros Hidle. unfold loginWithIframe, createIframe. unfold_M. rewrite Hidle.
  generalize (iframe_config x). intros c.
  destruct (clear c) as [[]|]; cbn; intros Hs; on_loginUrl Hs;
    match type of Hs with
    | context [open_transport Iframe ?u ?y] =>
        change (start_flow Iframe u (LoginIframeThen (default true (events c)))
                  (LoginIframeCatch (default true (events c))) set_login y
                = (Ok l, sl)) in Hs
    end;
    match type of Hu with
    | d_loginUrl _ ?y = _ =>
        eapply (start_flow_on_loginUrl _ _ _ _ _ s y) in Hs;
          [exact Hs|reflexivity|reflexivity|reflexivity|exact Hu]
    end.
Qed.

Lemma login_with_window_request (k : transport) (s : state) (l : pid) (sl : state) :
  login (promises s) = None ->
  login_with_window (open_transport k) s = (Ok l, sl) ->
  exists p st nc,
    fst (d_provider s) = Ok p
    /\ opened sl
       = opened s
         ++ [(k, LoginUrl (login_endpoint s p) st nc (responseType (config s)) false)]
    /\ localState (profile sl) = Some st
    /\ nonce (profile sl) = Some nc.
Proof.
  intros Hidle. unfold login_with_window. unfold_M. rewrite Hidle. cbn.
  intros Hs. on_loginUrl Hs.
  match type of Hs with
  | context [open_transport k ?u ?y] =>
      change (start_flow k u LoginWindowThen LoginWindowCatch set_login y
              = (Ok l, sl)) in Hs
  end.
  match type of Hu with
  | d_loginUrl _ ?y = _ =>
      eapply (start_flow_on_loginUrl _ _ _ _ _ s y) in Hs;
        [exact Hs|reflexivity|reflexivity|reflexivity|exact Hu]
  end.
Qed.

Lemma loginWithRedirect_request (r : option string) (s : state) (l : pid) (sl : state) :
  login (promises s) = None ->
  loginWithRedirect r s = (Ok l, sl) ->
  exists p st nc,
    fst (d_provider s) = Ok p
    /\ opened sl
       = opened s
         ++ [(Navigate,
              LoginUrl (login_endpoint s p) st nc (responseType (config s)) false)]
    /\ localState (profile sl) = Some st
    /\ nonce (profile sl) = Some nc.
Proof.
  intros Hidle. unfold loginWithRedirect, d_navigate, new_promise. unfold_M.
  destruct (redirectLoginCallback (config s)); cbn; rewrite Hidle; cbn;
    intros Hs; on_loginUrl Hs;
    apply (d_loginUrl_spec false s) in Hu as (p & Hp & -> & ->);
    [|reflexivity|reflexivity| |reflexivity|reflexivity];
    injection Hs as _ <-; exists p; eexists _, _;
    (split; [exact Hp|]); cbn; by repeat split.
Qed.

Lemma refreshToken_request (s : state) (h : pid) (s1 : state) :
  login (promises s) = None -> refresh (promises s) = None ->
  refreshToken s = (Ok h, s1) ->
  exists p st nc,
    fst (d_provider s) = Ok p
    /\ opened s1
       = opened s
         ++ [(Iframe,
              LoginUrl (login_endpoint s p) st nc (responseType (config s)) true)]
    /\ localState (profile s1) = Some st
    /\ nonce (profile s1) = Some nc.
Proof.
  intros Hlogin Hidle. unfold refreshToken. unfold_M. rewrite Hidle.
  destruct (loginWithIframe (BoolArg true) s) as [[l|e] sl] eqn:Hl; [|done].
  apply loginWithIframe_request in Hl as (p & st & nc & Hp & Ho & Hst & Hnc);
    [|done].
  rewrite p_then_eq. cbn [fst snd]. rewrite p_catch_eq. cbn [fst snd].
  intros [= _ <-]. exists p, st, nc. split; [done|].
  cbn [opened profile upd_promises]. autorewrite with frame.
  cbn [opened profile new_promise snd upd_next_pid upd_heap].
  autorewrite with frame.
  cbn [opened profile new_promise snd upd_next_pid upd_heap].
  done.
Qed.


